(** * Interactive-Blog-Platform: the editing-session engine of [src/App.jsx]

    A shallow embedding of the post editor's core (the revision of
    [App.jsx] that carries [cleanHtml], [openLinkModal] and
    [normalizeSizeValue], and the drag-and-drop uploader of the
    unnamed source part), of the tag input, the publishing handlers and
    the post list of the same revision, together with the properties
    stated for them.

    - JavaScript strings are sequences of code units; a code unit is an
      [ascii] (the Latin-1 range), a string is a [string] at the
      interfaces and a [list ascii] inside the scanners.
    - The Quill editor, [localStorage] and the timer queue are external
      collaborators: they are modelled as explicit state. *)

From Stdlib Require Import Ascii String.
From stdpp Require Import gmap strings list.

(** ** JavaScript string primitives *)

Module Js.

Abbreviation chars := list_ascii_of_string.
Abbreviation text := string_of_list_ascii.

(** [WhiteSpace] and [LineTerminator] code units below 256: TAB, LF, VT,
    FF, CR, SP and NBSP.  Both [String.prototype.trim] and the regular
    expression class [\s] use this set. *)
Definition is_ws (c : ascii) : bool :=
  match c with
  | "009" | "010" | "011" | "012" | "013" | " " | "160" => true
  | _ => false
  end%char.

(** [[0-9]] *)
Definition is_digit (c : ascii) : bool :=
  match c with
  | "0" | "1" | "2" | "3" | "4" | "5" | "6" | "7" | "8" | "9" => true
  | _ => false
  end%char.

(** [s.trimStart()] *)
Fixpoint trimStart (s : list ascii) : list ascii :=
  match s with
  | c :: r => if is_ws c then trimStart r else s
  | [] => []
  end.

(** [s.trimEnd()] *)
Fixpoint trimEnd (s : list ascii) : list ascii :=
  match s with
  | c :: r =>
      match trimEnd r with
      | [] => if is_ws c then [] else [c]
      | r' => c :: r'
      end
  | [] => []
  end.

(** [s.trim()] *)
Definition trim (s : list ascii) : list ascii := trimEnd (trimStart s).

(** [s.startsWith(p)], case sensitive *)
Fixpoint startsWith (p s : list ascii) : bool :=
  match p, s with
  | [], _ => true
  | a :: p', b :: s' => if decide (a = b) then startsWith p' s' else false
  | _ :: _, [] => false
  end.

(** [s.endsWith(p)] *)
Definition endsWith (p s : list ascii) : bool :=
  startsWith (reverse p) (reverse s).

(** [/^[0-9]+$/.test(s)] *)
Definition all_digits (s : list ascii) : bool :=
  match s with
  | [] => false
  | _ => forallb is_digit s
  end.

End Js.

(** ** Size normalisation of the resize toolbar *)

(** [normalizeSizeValue] of [App.jsx]: the empty input stays empty, a
    trimmed value ending in a percent sign is kept, a run of decimal
    digits gets the suffix [px], anything else is kept as trimmed. *)
Definition normalizeSizeValue (raw : string) : string :=
  if decide (raw = EmptyString) then EmptyString
  else
    let v := Js.trim (Js.chars raw) in
    if Js.endsWith (Js.chars "%") v then Js.text v
    else if Js.all_digits v then Js.text (v ++ Js.chars "px")
    else Js.text v.


(** ** The document model and the editing surface *)

(** JavaScript values that travel as format values: [undefined], the
    booleans and strings. *)
Inductive Value := VUndefined | VBool (b : bool) | VStr (s : string).

#[global] Instance Value_eq_dec : EqDecision Value.
Proof. solve_decision. Defined.

(** [!!v] *)
Definition truthy (v : Value) : bool :=
  match v with
  | VUndefined => false
  | VBool b => b
  | VStr s => if decide (s = EmptyString) then false else true
  end.

(** [obj[key]] on an attribute object: a missing key reads [undefined]. *)
Definition prop (o : gmap string Value) (key : string) : Value :=
  default VUndefined (o !! key).

Module Range.
(** A selection [{index, length}]; [length = 0] is a caret. *)
Record t := mk { index : nat; length : nat }.
End Range.

Inductive Leaf :=
| Char (c : ascii)
| Image (blot : nat) (src : string).

(** One offset unit of the document: a character of a text run or an
    image embed, with its attribute set.  A text run of [n] characters
    is [n] consecutive nodes carrying the same attributes; [blot] is the
    identity of the embed object that [Quill.find] and [getIndex] see. *)
Record Node := mkNode { leaf : Leaf; attrs : gmap string Value }.

Inductive Error := OutOfRange | DetachedBlot | StoreError.

Inductive result (A : Type) := Ok (a : A) | Fail (e : Error).
Arguments Ok {A} a.
Arguments Fail {A} e.

(** Modelled from the spec: the Quill editor is an external library and is
    not part of the sources.  The primitives follow sections 4.1 and 6 of
    the specification: offsets are validated against the current length
    and an out-of-range call fails with [OutOfRange] without mutation;
    [getFormat] returns the attributes common to the whole range; a falsy
    format value clears the attribute. *)
Module Quill.

Record t := mk {
  contents : list Node;
  selection : option Range.t;
  hasFocus : bool;
  cursor : gmap string Value;
  nextBlot : nat
}.

Definition with_contents (d : list Node) (q : t) : t :=
  mk d (selection q) (hasFocus q) (cursor q) (nextBlot q).
Definition with_selection (s : option Range.t) (q : t) : t :=
  mk (contents q) s (hasFocus q) (cursor q) (nextBlot q).
Definition with_cursor (c : gmap string Value) (q : t) : t :=
  mk (contents q) (selection q) (hasFocus q) c (nextBlot q).
Definition with_focus (f : bool) (q : t) : t :=
  mk (contents q) (selection q) f (cursor q) (nextBlot q).

Definition getLength (q : t) : nat := length (contents q).

(** [focus()] and the loss of focus to another element.  The editor
    remembers its range while it is not focused. *)
Definition focus (q : t) : t := with_focus true q.
Definition blur (q : t) : t := with_focus false q.

(** [getSelection()]: the live selection, [null] while the editor does
    not have the focus. *)
Definition getSelection (q : t) : option Range.t :=
  if hasFocus q then selection q else None.

Definition set_attr (name : string) (v : Value) (a : gmap string Value)
  : gmap string Value :=
  if truthy v then <[name := v]> a else delete name a.

Definition format_node (name : string) (v : Value) (n : Node) : Node :=
  mkNode (leaf n) (set_attr name v (attrs n)).

(** Applies [f] to the nodes at offsets [index .. index + len - 1]. *)
Definition map_range (f : Node -> Node) (index len : nat) (d : list Node)
  : list Node :=
  take index d ++ (f <$> take len (drop index d)) ++ drop (index + len) d.

Definition in_range (index len : nat) (q : t) : bool :=
  bool_decide (index + len <= getLength q).

Definition formatText (index len : nat) (name : string) (v : Value) (q : t)
  : result t :=
  if in_range index len q
  then Ok (with_contents (map_range (format_node name v) index len (contents q)) q)
  else Fail OutOfRange.

(** The attributes on which two attribute sets agree. *)
Definition agree (a b : gmap string Value) : gmap string Value :=
  intersection_with (fun x y => if decide (x = y) then Some x else None) a b.

Definition common (ns : list Node) : gmap string Value :=
  match ns with
  | [] => ∅
  | n :: r => foldr (fun m acc => agree (attrs m) acc) (attrs n) r
  end.

(** [getFormat(index, length)]: the attributes common to the range; at a
    caret, the attributes of the unit before it merged with the pending
    cursor formats. *)
Definition getFormat (index len : nat) (q : t) : result (gmap string Value) :=
  if in_range index len q then
    match len with
    | 0 => Ok (cursor q ∪ common (take 1 (drop (index - 1) (contents q))))
    | _ => Ok (common (take len (drop index (contents q))))
    end
  else Fail OutOfRange.

Definition text_nodes (s : string) (a : gmap string Value) : list Node :=
  (fun c => mkNode (Char c) a) <$> Js.chars s.

Definition insert_at (index : nat) (ns : list Node) (d : list Node) : list Node :=
  take index d ++ ns ++ drop index d.

Definition insertText (index : nat) (s : string) (a : gmap string Value) (q : t)
  : result t :=
  if in_range index 0 q
  then Ok (with_contents (insert_at index (text_nodes s a) (contents q)) q)
  else Fail OutOfRange.

(** [insertEmbed(index, "image", src)]: a new embed object of one unit. *)
Definition insertEmbed (index : nat) (src : string) (q : t) : result t :=
  if in_range index 0 q
  then Ok (mk (insert_at index [mkNode (Image (nextBlot q) src) ∅] (contents q))
              (selection q) (hasFocus q) (cursor q) (S (nextBlot q)))
  else Fail OutOfRange.

Definition deleteText (index len : nat) (q : t) : result t :=
  if in_range index len q
  then Ok (with_contents (take index (contents q) ++ drop (index + len) (contents q)) q)
  else Fail OutOfRange.

(** [setSelection(index, length)] keeps the range inside the document. *)
Definition setSelection (index len : nat) (q : t) : t :=
  let i := index `min` getLength q in
  with_selection (Some (Range.mk i (len `min` (getLength q - i))))
    (with_cursor ∅ (focus q)).

Definition is_blot (b : nat) (n : Node) : bool :=
  match leaf n with
  | Image b' _ => bool_decide (b' = b)
  | Char _ => false
  end.

(** [getIndex(blot)]: the current offset of an embed object. *)
Fixpoint index_of (b : nat) (d : list Node) : option nat :=
  match d with
  | [] => None
  | n :: r => if is_blot b n then Some 0 else S <$> index_of b r
  end.

Definition getIndex (b : nat) (q : t) : result nat :=
  match index_of b (contents q) with
  | Some i => Ok i
  | None => Fail DetachedBlot
  end.

Definition is_newline (n : Node) : bool :=
  match leaf n with
  | Char c => bool_decide (c = "010"%char)
  | Image _ _ => false
  end.

(** Line attributes live on the newline that ends the line.  [pos] is the
    offset of the head of [d] and [start] the offset at which its line
    began; a line is touched when it meets [index .. index + len]. *)
Fixpoint formatLine_from (pos start index len : nat) (name : string) (v : Value)
    (d : list Node) : list Node :=
  match d with
  | [] => []
  | n :: r =>
      if is_newline n then
        (if bool_decide (index <= pos) && bool_decide (start < index + len `max` 1)
         then format_node name v n else n)
          :: formatLine_from (S pos) (S pos) index len name v r
      else n :: formatLine_from (S pos) start index len name v r
  end.

Definition formatLine (index len : nat) (name : string) (v : Value) (q : t) : t :=
  with_contents (formatLine_from 0 0 index len name v (contents q)) q.

Definition is_block (name : string) : bool :=
  bool_decide (name = "list") || bool_decide (name = "header").

(** [format(name, value)]: acts on the current selection; a block
    attribute goes to the touched lines, a caret only changes the pending
    cursor formats, a range is formatted as by [formatText]. *)
Definition format (name : string) (v : Value) (q : t) : result t :=
  match selection (focus q) with
  | None => Ok q
  | Some r =>
      if is_block name
      then Ok (formatLine (Range.index r) (Range.length r) name v (focus q))
      else if decide (Range.length r = 0)
      then Ok (with_cursor (set_attr name v (cursor q)) (focus q))
      else formatText (Range.index r) (Range.length r) name v (focus q)
  end.

(** Number of embed nodes of a document. *)
Definition is_embed (n : Node) : bool :=
  match leaf n with
  | Image _ _ => true
  | Char _ => false
  end.

Definition embedCount (d : list Node) : nat := length (filter is_embed d).

End Quill.

(** ** Application state and handlers *)

Inductive Level := Info | Warn | Failure | Success.

(** An advisory event handed to the notification sink ([toast.info] and
    friends). *)
Record Toast := mkToast { level : Level; message : string }.

(** [draggingState.current] of the uploader. *)
Record DragState := mkDrag {
  draggedBlot : option nat;
  draggedSrc : option string
}.

(** The refs and state cells the handlers of [App] close over. *)
Record App := mkApp {
  quillRef : option Quill.t;
  lastSelectionRef : option Range.t;
  linkModalOpen : bool;
  draggingState : DragState;
  toasts : list Toast
}.

Definition set_quill (q : Quill.t) (a : App) : App :=
  mkApp (Some q) (lastSelectionRef a) (linkModalOpen a) (draggingState a) (toasts a).
Definition set_lastSelection (s : option Range.t) (a : App) : App :=
  mkApp (quillRef a) s (linkModalOpen a) (draggingState a) (toasts a).
Definition set_linkModalOpen (b : bool) (a : App) : App :=
  mkApp (quillRef a) (lastSelectionRef a) b (draggingState a) (toasts a).
Definition set_dragging (d : DragState) (a : App) : App :=
  mkApp (quillRef a) (lastSelectionRef a) (linkModalOpen a) d (toasts a).
Definition add_toast (t : Toast) (a : App) : App :=
  mkApp (quillRef a) (lastSelectionRef a) (linkModalOpen a) (draggingState a)
        (toasts a ++ [t]).

(** A handler either returns or throws; both leave a state behind. *)
Inductive Outcome (A : Type) :=
| Returned (a : A) (s : App)
| Threw (e : Error) (s : App).
Arguments Returned {A} a s.
Arguments Threw {A} e s.

Definition M (A : Type) : Type := App -> Outcome A.

Definition ret {A} (a : A) : M A := fun s => Returned a s.

Definition bind {A B} (k : A -> M B) (c : M A) : M B :=
  fun s => match c s with
           | Returned a s' => k a s'
           | Threw e s' => Threw e s'
           end.

#[global] Instance M_ret : MRet M := @ret.
#[global] Instance M_bind : MBind M := @bind.

(** [try { c } catch {}] *)
Definition try_ (c : M unit) : M unit :=
  fun s => match c s with
           | Returned a s' => Returned a s'
           | Threw _ s' => Returned tt s'
           end.

Definition read {A} (f : App -> A) : M A := fun s => Returned (f s) s.
Definition update (f : App -> App) : M unit := fun s => Returned tt (f s).

(** A query on the editor behind [quillRef]; the handlers only reach it
    after their [if (!editor) return] guard. *)
Definition ask {A} (f : Quill.t -> A) (d : A) : M A :=
  read (fun s => match quillRef s with Some q => f q | None => d end).

(** A mutation of the editor behind [quillRef]. *)
Definition call (f : Quill.t -> result Quill.t) : M unit :=
  fun s => match quillRef s with
           | Some q => match f q with
                       | Ok q' => Returned tt (set_quill q' s)
                       | Fail e => Threw e s
                       end
           | None => Returned tt s
           end.

Definition query {A} (f : Quill.t -> result A) (d : A) : M A :=
  fun s => match quillRef s with
           | Some q => match f q with
                       | Ok a => Returned a s
                       | Fail e => Threw e s
                       end
           | None => Returned d s
           end.

Definition toast (l : Level) (msg : string) : M unit :=
  update (add_toast (mkToast l msg)).

(** [!x] on a reference that is an object or [null] *)
Definition missing {A} (o : option A) : bool :=
  match o with
  | None => true
  | Some _ => false
  end.

Definition no_range (range : option Range.t) : bool :=
  match range with
  | None => true
  | Some r => bool_decide (Range.length r = 0)
  end.

Definition range_index (range : option Range.t) : nat :=
  from_option Range.index 0 range.
Definition range_length (range : option Range.t) : nat :=
  from_option Range.length 0 range.

(** [handleFormat(format, value)] of [App]. *)
Definition handleFormat (format : string) (value : Value) : M unit :=
  editor ← read quillRef;
  if missing editor then ret tt else
  range ← ask Quill.getSelection None;
  let index := range_index range in
  let length := range_length range in
  if bool_decide (format = "list") then
    if no_range range
    then toast Info "Select the text you want to turn into a list."
    else call (Quill.format "list" value)
  else if bool_decide (format = "size") then
    if no_range range
    then toast Info "Select text to apply the heading size."
    else
      call (Quill.formatText index length "size" value);;
      call (fun q => Ok (Quill.setSelection (index + length) 0 q));;
      call (Quill.format "size" (VBool false))
  else if bool_decide (format ∈ ["bold"; "italic"; "underline"; "strike"]) then
    if no_range range
    then toast Info "Select text to apply formatting."
    else
      currentFormats ← query (Quill.getFormat index length) ∅;
      let currentlyEnabled := truthy (prop currentFormats format) in
      call (Quill.formatText index length format (VBool (negb currentlyEnabled)));;
      call (fun q => Ok (Quill.setSelection (index + length) 0 q));;
      call (Quill.format format (VBool false))
  else
    if missing range then ret tt
    else call (Quill.format format
                 (if decide (value = VUndefined) then VBool true else value)).

(** [openLinkModal()]: snapshots the live selection, then opens the
    dialog. *)
Definition openLinkModal : M unit :=
  sel ← ask Quill.getSelection None;
  (if missing sel then ret tt else update (set_lastSelection sel));;
  update (set_linkModalOpen true).

(** The [selection-change] subscriber of [App]. *)
Definition handleSelectionChange (range : option Range.t) : M unit :=
  update (set_lastSelection range).

(** [snapshotSelection()], run on text-change, click and key-up. *)
Definition snapshotSelection : M unit :=
  sel ← ask Quill.getSelection None;
  update (set_lastSelection sel).

(** The scheme test and prefixing shared by [handleInsertLink] and the
    submit handler of the link dialog. *)
Definition withScheme (url : string) : string :=
  if negb (Js.startsWith (Js.chars "http://") (Js.chars url))
     && negb (Js.startsWith (Js.chars "https://") (Js.chars url))
  then "https://" +:+ url
  else url.

(** [handleInsertLink(url)] of [App]. *)
Definition handleInsertLink (url : string) : M unit :=
  editor ← read quillRef;
  if missing editor then ret tt else
  let finalUrl := withScheme url in
  saved ← read lastSelectionRef;
  range ← ask Quill.getSelection None;
  len ← ask Quill.getLength 0;
  let useIndex :=
    match range, saved with
    | Some r, _ => Range.index r
    | None, Some r => Range.index r
    | None, None => 0 `max` (len - 1)
    end in
  let useLength :=
    match range, saved with
    | Some r, _ => Range.length r
    | None, Some r => Range.length r
    | None, None => 0
    end in
  if bool_decide (0 < useLength) then
    call (Quill.formatText useIndex useLength "link" (VStr finalUrl));;
    call (fun q => Ok (Quill.setSelection (useIndex + useLength) 0 q));;
    call (fun q => Ok (Quill.focus q));;
    update (set_lastSelection None)
  else
    call (Quill.insertText useIndex finalUrl {["link" := VStr finalUrl]});;
    call (fun q => Ok (Quill.setSelection (useIndex + String.length finalUrl) 0 q));;
    call (fun q => Ok (Quill.focus q));;
    update (set_lastSelection None).

(** [handleSubmit] of the link dialog: an all-blank input is refused with
    a warning, otherwise the trimmed URL gets its scheme and is handed to
    [onInsert], and the dialog closes. *)
Definition LinkModal_handleSubmit (url : string) : M unit :=
  if decide (Js.trim (Js.chars url) = []) then toast Warn "Please enter a link URL"
  else
    handleInsertLink (withScheme (Js.text (Js.trim (Js.chars url))));;
    update (set_linkModalOpen false).

(** The modal dialog takes the focus away from the editing surface. *)
Definition loseFocus : M unit := call (fun q => Ok (Quill.blur q)).

(** ** Drag and drop of embedded images (the uploader of the unnamed part) *)

(** What the [drop] listener reads from its event: the [text/plain] payload
    of [dataTransfer] and, for the fallback, the offset of the blot under
    the pointer when the browser resolves one. *)
Record DropEvent := mkDrop {
  dataTransfer : string;
  pointOffset : option nat
}.

(** The [dragstart] listener of the image at [offset]: remembers the
    embed object and its source. *)
Definition onDragStart (offset : nat) : M unit :=
  d ← ask Quill.contents [];
  match leaf <$> d !! offset with
  | Some (Image b src) => update (set_dragging (mkDrag (Some b) (Some src)))
  | _ => ret tt
  end.

(** The drop offset: the selection of the focused editor, else the blot
    under the pointer, else the end of the document. *)
Definition dropIndexOf (q : Quill.t) (e : DropEvent) : nat :=
  match Quill.getSelection (Quill.focus q) with
  | Some r => Range.index r
  | None => default (Quill.getLength q) (pointOffset e)
  end.

(** The [drop] listener.  The source computes an [adjustedDropIndex] that
    it never uses; the deletion is at the index [getIndex] reports after
    the insertion. *)
Definition onDrop (e : DropEvent) : M unit :=
  editor ← read quillRef;
  if missing editor then ret tt else
  let src := dataTransfer e in
  dropIndex ← ask (fun q => dropIndexOf q e) 0;
  call (fun q => Ok (Quill.focus q));;
  if decide (src = EmptyString) then ret tt else
  call (Quill.insertEmbed dropIndex src);;
  dragged ← read draggingState;
  match draggedBlot dragged with
  | Some blot =>
      try_ (originalIndex ← query (Quill.getIndex blot) 0;
            call (Quill.deleteText originalIndex 1);;
            update (set_dragging (mkDrag None None)))
  | None => ret tt
  end.

(** ** Draft persistence *)

Record ImageRecord := mkImage {
  id : nat;
  name : string;
  url : string;
  width : option string;
  height : option string
}.

Record Draft := mkDraft {
  title : string;
  content : string;
  tags : list string;
  images : list ImageRecord
}.

Definition DRAFT_KEY : string := "blog-draft".

(** [s && s.trim()] as a condition *)
Definition nonblank (s : string) : bool :=
  negb (bool_decide (Js.trim (Js.chars s) = [])).

(** [hasContent] of [useAutoSaveDraft] *)
Definition hasContent (draft : Draft) : bool :=
  nonblank (title draft) || nonblank (content draft)
  || bool_decide (0 < length (tags draft))
  || bool_decide (0 < length (images draft)).

(** A pending [setTimeout] of the autosave effect; the callback closes
    over the draft of the render that scheduled it. *)
Record Timer := mkTimer { timerId : nat; due : nat; captured : Draft }.

(** A call of [localStorage.setItem]. *)
Record Write := mkWrite { time : nat; key : string; payload : Draft }.

(** The environment of the hooks: the clock, the timer queue, the store
    and the notification sink. *)
Record Env := mkEnv {
  now : nat;
  timers : list Timer;
  nextTimerId : nat;
  writes : list Write;
  storage : gmap string Draft;
  notices : list Toast
}.

Definition initEnv : Env := mkEnv 0 [] 0 [] ∅ [].

Section Persistence.

(** The debounce delay and the verdict of the store on a value
    ([setItem] throws when the quota is exceeded). *)
Variable delay : nat.
Variable quotaExceeded : Draft -> bool.

(** [setTimeout(callback, delay)] *)
Definition setTimeout (d : Draft) (e : Env) : nat * Env :=
  (nextTimerId e,
   mkEnv (now e) (timers e ++ [mkTimer (nextTimerId e) (now e + delay) d])
         (S (nextTimerId e)) (writes e) (storage e) (notices e)).

(** [clearTimeout(id)] *)
Definition clearTimeout (i : nat) (e : Env) : Env :=
  mkEnv (now e) (filter (fun t => timerId t ≠ i) (timers e))
        (nextTimerId e) (writes e) (storage e) (notices e).

Definition logged (k : string) (d : Draft) (e : Env) : Env :=
  mkEnv (now e) (timers e) (nextTimerId e)
        (writes e ++ [mkWrite (now e) k d]) (storage e) (notices e).

Definition stored (k : string) (d : Draft) (e : Env) : Env :=
  mkEnv (now e) (timers e) (nextTimerId e) (writes e)
        (<[k := d]> (storage e)) (notices e).

(** [localStorage.setItem(key, JSON.stringify(draft))]: the call is
    recorded in [writes]; the slot changes unless the store refuses, in
    which case the call throws. *)
Definition setItem (k : string) (d : Draft) (e : Env) : result unit * Env :=
  if quotaExceeded d then (Fail StoreError, logged k d e)
  else (Ok tt, stored k d (logged k d e)).

Definition notify (t : Toast) (e : Env) : Env :=
  mkEnv (now e) (timers e) (nextTimerId e) (writes e) (storage e)
        (notices e ++ [t]).

(** The timer callback of [useAutoSaveDraft]. *)
Definition autosaveCallback (draft : Draft) (e : Env) : Env :=
  match setItem DRAFT_KEY draft e with
  | (Ok _, e') => notify (mkToast Info "Draft auto-saved") e'
  | (Fail _, e') => notify (mkToast Failure "Failed to save draft") e'
  end.

(** The effect of [useAutoSaveDraft]: the cleanup of the previous run
    (held in [cleanup]) and then the body for the draft of this render.
    The result is the cleanup of this run. *)
Definition useAutoSaveDraft (draft : Draft) (cleanup : option nat) (e : Env)
  : option nat * Env :=
  let e1 := match cleanup with Some i => clearTimeout i e | None => e end in
  if negb (hasContent draft) then (None, e1)
  else let '(t, e2) := setTimeout draft e1 in (Some t, e2).

(** One unit of time passes: every timer that has come due runs, in the
    order in which it was scheduled. *)
Definition tick (e : Env) : Env :=
  let t := S (now e) in
  let dueNow := filter (fun x => due x <= t) (timers e) in
  let rest := filter (fun x => ¬ (due x <= t)) (timers e) in
  foldl (fun acc x => autosaveCallback (captured x) acc)
        (mkEnv t rest (nextTimerId e) (writes e) (storage e) (notices e))
        dueNow.

Definition elapse (n : nat) (e : Env) : Env := Nat.iter n tick e.

(** *** The state of the hook between renders *)

Record Hook := mkHook { cleanup : option nat; env : Env }.

Definition initHook : Hook := mkHook None initEnv.

Inductive HookEvent :=
| Render (draft : Draft)
| Tick.

Definition hookStep (ev : HookEvent) (h : Hook) : Hook :=
  match ev with
  | Render draft =>
      let '(c, e) := useAutoSaveDraft draft (cleanup h) (env h) in mkHook c e
  | Tick => mkHook (cleanup h) (tick (env h))
  end.

(** *** The component: both effects of [App] *)

Record Editing := mkEditing {
  draft : Draft;
  autosave : Hook
}.

Inductive Change :=
| SetTitle (s : string)
| SetContent (s : string)
| SetTags (l : list string)
| SetImages (l : list ImageRecord)
| Elapse.

(** The effect on [[images]]: an immediate [setItem] of the snapshot of
    this render; a failure is swallowed. *)
Definition persistImages (d : Draft) (e : Env) : Env :=
  snd (setItem DRAFT_KEY d e).

(** A render after a state change: the autosave effect runs again (its
    dependency is a fresh object every time), the images effect only
    when the image list was set. *)
Definition rerender (d : Draft) (imagesChanged : bool) (s : Editing) : Editing :=
  let h := hookStep (Render d) (autosave s) in
  mkEditing d (if imagesChanged
               then mkHook (cleanup h) (persistImages d (env h))
               else h).

Definition change (c : Change) (s : Editing) : Editing :=
  let d := draft s in
  match c with
  | SetTitle x => rerender (mkDraft x (content d) (tags d) (images d)) false s
  | SetContent x => rerender (mkDraft (title d) x (tags d) (images d)) false s
  | SetTags x => rerender (mkDraft (title d) (content d) x (images d)) false s
  | SetImages x => rerender (mkDraft (title d) (content d) (tags d) x) true s
  | Elapse => mkEditing d (hookStep Tick (autosave s))
  end.

(** The first render: the state cells start empty and every effect
    runs once. *)
Definition mount : Editing :=
  rerender (mkDraft EmptyString EmptyString [] []) true
           (mkEditing (mkDraft EmptyString EmptyString [] []) initHook).

End Persistence.


(** ** The content normaliser *)

(** The regular expressions of [cleanHtml] are embedded as scanners: a
    matcher tries its pattern at the head of the input and returns the
    rest behind the match.  Every quantifier in the source is greedy and
    none of the patterns needs to give characters back, so a scanner
    that takes as much as it can finds the match the backtracking engine
    finds.  Recursion that follows matches, not characters, runs on
    fuel; the length of the input is always enough. *)
Section Scan.

Context {A : Type}.

(** [(m)*]: as many matches of [m] in a row as there are. *)
Fixpoint many_fuel (m : list A -> option (list A)) (fuel : nat) (s : list A)
  : list A :=
  match fuel with
  | 0 => s
  | S n =>
      match m s with
      | Some r => many_fuel m n r
      | None => s
      end
  end.

Definition many (m : list A -> option (list A)) (s : list A) : list A :=
  many_fuel m (length s) s.

(** [(m)+] *)
Definition atLeast1 (m : list A -> option (list A)) (s : list A) : option (list A) :=
  match m s with
  | Some r => Some (many m r)
  | None => None
  end.

(** [(m){2,}] *)
Definition atLeast2 (m : list A -> option (list A)) (s : list A)
  : option (list A) :=
  match m s with
  | Some r1 =>
      match m r1 with
      | Some r2 => Some (many m r2)
      | None => None
      end
  | None => None
  end.

(** [s.replace(/m/g, rep)]: the matches are found from left to right,
    each search starting behind the previous match. *)
Fixpoint replaceAll_fuel (m : list A -> option (list A)) (rep : list A)
    (fuel : nat) (s : list A) : list A :=
  match fuel with
  | 0 => s
  | S n =>
      match s with
      | [] => []
      | c :: r =>
          match m s with
          | Some rest => rep ++ replaceAll_fuel m rep n rest
          | None => c :: replaceAll_fuel m rep n r
          end
      end
  end.

Definition replaceAll (m : list A -> option (list A)) (rep s : list A) : list A :=
  replaceAll_fuel m rep (length s) s.

(** [s.replace(/^m/, "")] *)
Definition stripLeading (m : list A -> option (list A)) (s : list A) : list A :=
  match m s with
  | Some r => r
  | None => s
  end.

(** [s.replace(/m$/, "")]: the leftmost position from which [m] reaches
    the end of the input. *)
Fixpoint stripTrailing (m : list A -> option (list A)) (s : list A) : list A :=
  match s with
  | [] => []
  | c :: r =>
      match m s with
      | Some [] => []
      | _ => c :: stripTrailing m r
      end
  end.

End Scan.

Module Re.

(** Canonicalisation under the [i] flag: a lower-case ASCII letter and its
    upper-case form are the same; no other character is the same as an
    ASCII character. *)
Definition upper (c : ascii) : ascii :=
  let n := nat_of_ascii c in
  if (97 <=? n) && (n <=? 122) then ascii_of_nat (n - 32) else c.

Definition eqi (a b : ascii) : bool := bool_decide (upper a = upper b).

(** A literal, compared under the [i] flag. *)
Fixpoint lit (p s : list ascii) : option (list ascii) :=
  match p, s with
  | [], _ => Some s
  | a :: p', b :: s' => if eqi a b then lit p' s' else None
  | _ :: _, [] => None
  end.

(** [\s*] *)
Definition spaces (s : list ascii) : list ascii := Js.trimStart s.

(** [\/?] *)
Definition slash (s : list ascii) : list ascii :=
  match s with
  | c :: r => if decide (c = "/"%char) then r else s
  | [] => []
  end.

(** [<br\s*\/?>] *)
Definition br (s : list ascii) : option (list ascii) :=
  match lit (Js.chars "<br") s with
  | Some r => lit (Js.chars ">") (slash (spaces r))
  | None => None
  end.

(** [\s|&nbsp;|<br\s*\/?>], the alternatives in the order of the source *)
Definition blank (s : list ascii) : option (list ascii) :=
  match s with
  | [] => None
  | c :: r =>
      if Js.is_ws c then Some r
      else match lit (Js.chars "&nbsp;") s with
           | Some r' => Some r'
           | None => br s
           end
  end.

(** [<p>(\s|&nbsp;|<br\s*\/?>)*<\/p>] *)
Definition para (s : list ascii) : option (list ascii) :=
  match lit (Js.chars "<p>") s with
  | Some r => lit (Js.chars "</p>") (many blank r)
  | None => None
  end.

(** [<p>\s*<\/p>\s*] *)
Definition emptyPara (s : list ascii) : option (list ascii) :=
  match lit (Js.chars "<p>") s with
  | Some r =>
      match lit (Js.chars "</p>") (spaces r) with
      | Some r' => Some (spaces r')
      | None => None
      end
  | None => None
  end.

(** [<br\s*\/?>\s*] *)
Definition breakSpace (s : list ascii) : option (list ascii) :=
  match br s with
  | Some r => Some (spaces r)
  | None => None
  end.

End Re.

(** The body of [cleanHtml] on the code units of a non-empty input. *)
Definition cleanChars (rawHtml : list ascii) : list ascii :=
  let html := Js.trim rawHtml in
  let html := replaceAll Re.para (Js.chars "<p></p>") html in
  let html := replaceAll (atLeast2 Re.emptyPara) (Js.chars "<p></p>") html in
  let html := stripLeading (atLeast1 Re.emptyPara) html in
  let html := stripTrailing (atLeast1 Re.emptyPara) html in
  let html := replaceAll (atLeast2 Re.breakSpace) (Js.chars "<br/>") html in
  Js.trim html.

(** [cleanHtml(rawHtml)] *)
Definition cleanHtml (rawHtml : string) : string :=
  if decide (rawHtml = EmptyString) then EmptyString
  else Js.text (cleanChars (Js.chars rawHtml)).


(** ** Tokens

    For the proofs the input is read as a sequence of tokens: the units
    the patterns of [cleanHtml] are made of.  A token is never split by a
    match, so every step of the normaliser is a step on tokens. *)

Inductive Kind := KOpen | KClose | KBreak | KNbsp | KSpace | KOther.

#[global] Instance Kind_eq_dec : EqDecision Kind.
Proof. solve_decision. Defined.

(** A token with the characters it stands for. *)
Record Tok := mkTok { kind : Kind; raw : list ascii }.

Module Lex.

(** What a matcher took from [s] when it left [r]. *)
Definition consumed (s r : list ascii) : list ascii :=
  take (length s - length r) s.

(** The tags and the entity, tried in turn. *)
Definition classify (s : list ascii) : option (Kind * list ascii) :=
  match Re.lit (Js.chars "<p>") s with
  | Some r => Some (KOpen, r)
  | None =>
      match Re.lit (Js.chars "</p>") s with
      | Some r => Some (KClose, r)
      | None =>
          match Re.br s with
          | Some r => Some (KBreak, r)
          | None =>
              match Re.lit (Js.chars "&nbsp;") s with
              | Some r => Some (KNbsp, r)
              | None => None
              end
          end
      end
  end.

(** The first token of the input and the rest behind it. *)
Definition next (s : list ascii) : option (Tok * list ascii) :=
  match s with
  | [] => None
  | c :: r =>
      if Js.is_ws c then Some (mkTok KSpace [c], r)
      else match classify s with
           | Some (k, r') => Some (mkTok k (consumed s r'), r')
           | None => Some (mkTok KOther [c], r)
           end
  end.

Fixpoint lex_fuel (fuel : nat) (s : list ascii) : list Tok :=
  match fuel with
  | 0 => []
  | S n =>
      match next s with
      | Some (t, r) => t :: lex_fuel n r
      | None => []
      end
  end.

Definition lex (s : list ascii) : list Tok := lex_fuel (length s) s.

Definition unlex (ts : list Tok) : list ascii := mjoin (raw <$> ts).

Definition isSpace (t : Tok) : bool := bool_decide (kind t = KSpace).

Definition isBlank (t : Tok) : bool :=
  bool_decide (kind t = KSpace) || bool_decide (kind t = KNbsp)
  || bool_decide (kind t = KBreak).

(** A token of kind [k] at the head. *)
Definition head_is (k : Kind) (ts : list Tok) : option (list Tok) :=
  match ts with
  | t :: r => if decide (kind t = k) then Some r else None
  | [] => None
  end.

Fixpoint spaces (ts : list Tok) : list Tok :=
  match ts with
  | t :: r => if isSpace t then spaces r else ts
  | [] => []
  end.

Fixpoint spacesEnd (ts : list Tok) : list Tok :=
  match ts with
  | t :: r =>
      match spacesEnd r with
      | [] => if isSpace t then [] else [t]
      | r' => t :: r'
      end
  | [] => []
  end.

Definition trim (ts : list Tok) : list Tok := spacesEnd (spaces ts).

Definition blank (ts : list Tok) : option (list Tok) :=
  match ts with
  | t :: r => if isBlank t then Some r else None
  | [] => None
  end.

Definition para (ts : list Tok) : option (list Tok) :=
  match head_is KOpen ts with
  | Some r => head_is KClose (many blank r)
  | None => None
  end.

Definition emptyPara (ts : list Tok) : option (list Tok) :=
  match head_is KOpen ts with
  | Some r =>
      match head_is KClose (spaces r) with
      | Some r' => Some (spaces r')
      | None => None
      end
  | None => None
  end.

Definition breakSpace (ts : list Tok) : option (list Tok) :=
  match head_is KBreak ts with
  | Some r => Some (spaces r)
  | None => None
  end.

(** The tokens of the two replacement texts. *)
Definition P : list Tok :=
  [mkTok KOpen (Js.chars "<p>"); mkTok KClose (Js.chars "</p>")].
Definition B : list Tok := [mkTok KBreak (Js.chars "<br/>")].

(** [cleanChars], token by token. *)
Definition clean (ts : list Tok) : list Tok :=
  let ts := trim ts in
  let ts := replaceAll para P ts in
  let ts := replaceAll (atLeast2 emptyPara) P ts in
  let ts := stripLeading (atLeast1 emptyPara) ts in
  let ts := stripTrailing (atLeast1 emptyPara) ts in
  let ts := replaceAll (atLeast2 breakSpace) B ts in
  trim ts.

End Lex.

(** ** Notions used in the proofs about the scanners *)

(** A matcher that always takes something. *)
Definition shrinking {A} (m : list A -> option (list A)) : Prop :=
  forall s r, m s = Some r -> length r < length s.

(** [m] matches nowhere in [s]. *)
Definition nowhere {A} (m : list A -> option (list A)) (s : list A) : Prop :=
  forall a b, s = a ++ b -> m b = None.

(** Input that cannot complete a tag begun before it: blanks only, or
    blanks followed by the start of a new tag. *)
Definition quiet (b : list ascii) : Prop :=
  match Re.spaces b with
  | [] => True
  | c :: _ => c = "<"%char
  end.

(** A character that is neither white space nor the start of a tag. *)
Definition plain (a : ascii) : Prop :=
  Js.is_ws a = false /\ a <> "<"%char.

(** A matcher that only matches at a [<]. *)
Definition at_lt (m : list ascii -> option (list ascii)) : Prop :=
  forall s r, m s = Some r -> exists y, s = "<"%char :: y.

(** A matcher that returns what is left of its input. *)
Definition cuts {A} (m : list A -> option (list A)) : Prop :=
  forall s r, m s = Some r -> exists a, s = a ++ r.

(** [m] reaches the end of the input from no position of [s]. *)
Definition noTrail {A} (m : list A -> option (list A)) (s : list A) : Prop :=
  forall a b, s = a ++ b -> b <> [] -> m b <> Some [].

(** Every match of [m] in [s] is an occurrence of [rep]. *)
Definition onlyAt {A} (m : list A -> option (list A)) (rep s : list A) : Prop :=
  forall a b r, s = a ++ b -> m b = Some r -> b = rep ++ r.

(** The kind of the first token. *)
Definition headKind (ts : list Tok) : option Kind := kind <$> head ts.

(** A matcher on tokens that only matches at a token of kind [k]. *)
Definition starts (m : list Tok -> option (list Tok)) (k : Kind) : Prop :=
  forall s r, m s = Some r -> headKind s = Some k.

(** No white space in front. *)
Definition noLead (ts : list Tok) : Prop := Lex.spaces ts = ts.

(** The three global replacements of [Lex.clean]. *)
Abbreviation paras := (replaceAll Lex.para Lex.P).
Abbreviation empties := (replaceAll (atLeast2 Lex.emptyPara) Lex.P).
Abbreviation breaks := (replaceAll (atLeast2 Lex.breakSpace) Lex.B).


(** ** Observations used in the statements *)

(** The state a handler leaves behind, whether it returns or throws. *)
Definition final {A} (o : Outcome A) : App :=
  match o with
  | Returned _ s => s
  | Threw _ s => s
  end.

(** [u.startsWith("http://") || u.startsWith("https://")] *)
Definition hasScheme (u : string) : bool :=
  Js.startsWith (Js.chars "http://") (Js.chars u)
  || Js.startsWith (Js.chars "https://") (Js.chars u).


(** The value of one attribute at every offset of a document. *)
Definition formatsOf (name : string) (d : list Node) : list Value :=
  (fun n => prop (attrs n) name) <$> d.

(** The document behind [quillRef]. *)
Definition documentOf (a : App) : list Node :=
  from_option Quill.contents [] (quillRef a).

(** The user selects a range on the focused editing surface. *)
Definition select (index len : nat) : M unit :=
  call (fun q => Ok (Quill.setSelection index len q)).

(** The dialog round trip as [App] wires it: the toolbar opens the link
    dialog, the dialog takes the focus, the editor reports the loss of
    its selection to the [selection-change] subscriber with a null
    range, and the submission of the dialog reaches [handleInsertLink]. *)
Definition linkViaModal (url : string) : M unit :=
  openLinkModal;; loseFocus;; handleSelectionChange None;; handleInsertLink url.

(** A toggle, the same range selected again, and the toggle again. *)
Definition toggleTwice (format : string) (index len : nat) : M unit :=
  handleFormat format VUndefined;; select index len;;
  handleFormat format VUndefined.

(** Every unit carries the attribute as [true], or none carries it. *)
Definition uniform (name : string) (ns : list Node) : Prop :=
  Forall (fun n => attrs n !! name = Some (VBool true)) ns
  \/ Forall (fun n => attrs n !! name = None) ns.

(** A drag of the image at [offset] that ends in a drop. *)
Definition dragMove (offset : nat) (e : DropEvent) : M unit :=
  onDragStart offset;; onDrop e.

(** Two toggles one after the other, the selection left as the first
    one leaves it. *)
Definition toggleInSuccession (format : string) : M unit :=
  handleFormat format VUndefined;; handleFormat format VUndefined.

(** A sample editor: the text [s] without attributes, the range
    [index, len] selected and focused. *)
Definition sampleApp (d : list Node) (index len : nat) : App :=
  mkApp (Some (Quill.mk d (Some (Range.mk index len)) true ∅ 0))
        None false (mkDrag None None) [].

(** A sample document: the letters a and b, an image, the letter c. *)
Definition sampleDoc : list Node :=
  [mkNode (Char "a") ∅; mkNode (Char "b") ∅;
   mkNode (Image 0 "data:image/png;base64,AAAA") ∅; mkNode (Char "c") ∅].

(** The sample document in an editor whose next embed object is number 1,
    with a caret at [index]. *)
Definition sampleDrag (index : nat) : App :=
  mkApp (Some (Quill.mk sampleDoc (Some (Range.mk index 0)) true ∅ 1))
        None false (mkDrag None None) [].

(** The kinds of the units of a document, embeds by their source. *)
Definition leaves (d : list Node) : list Leaf := leaf <$> d.

(** A draft whose four fields are all empty: title and content empty or
    blank, no tags, no images. *)
Definition allEmpty (d : Draft) : Prop :=
  Js.trim (Js.chars (title d)) = [] /\ Js.trim (Js.chars (content d)) = []
  /\ tags d = [] /\ images d = [].

(** The environment [e] at a later time, nothing else changed. *)
Definition later (n : nat) (e : Env) : Env :=
  mkEnv (now e + n) (timers e) (nextTimerId e) (writes e) (storage e) (notices e).

(** At most one autosave is pending, and it is the one that the cleanup
    of the last run of the effect clears. *)
Definition onePending (h : Hook) : Prop :=
  timers (env h) = []
  \/ exists t, timers (env h) = [t] /\ cleanup h = Some (timerId t).

(** Every pending callback has captured a draft with content. *)
Definition guarded (h : Hook) : Prop :=
  Forall (fun t => hasContent (captured t) = true) (timers (env h)).

Definition titled (s : string) : Draft := mkDraft s EmptyString [] [].

Definition acceptAll (d : Draft) : bool := false.

Section Component.

Variable delay : nat.
Variable quotaExceeded : Draft -> bool.

(** [n] units of time pass and nothing renders. *)
Definition idle (n : nat) (s : Editing) : Editing :=
  Nat.iter n (change delay quotaExceeded Elapse) s.

(** What the component does next: it renders again, with the draft [d]
    of that render, or a unit of time passes.  The flag says whether the
    image list was set for this render; a render for which it was not
    set shows the list of the render before. *)
Inductive editStep : Editing -> Editing -> Prop :=
| edit_render d b s :
    (b = false -> images d = images (draft s)) ->
    editStep s (rerender delay quotaExceeded d b s)
| edit_tick s : editStep s (change delay quotaExceeded Elapse s).

(** The states of the component: the first render and what follows. *)
Definition editReachable (s : Editing) : Prop :=
  rtc editStep (mount delay quotaExceeded) s.

(** Renders with the drafts [d0], now, and [d1], 10 units of time later,
    neither with the image list set, and no render from then until [t]
    units after the first. *)
Definition twoRenders (t : nat) (d0 d1 : Draft) (s : Editing) : Editing :=
  idle (t - 10) (rerender delay quotaExceeded d1 false
                   (idle 10 (rerender delay quotaExceeded d0 false s))).

End Component.

(** ** The other handlers of the editor page *)

(** *** The tag input ([TagSelector]) *)

Module TagSelector.

(** The [selectedTags] property and the [input] state cell. *)
Record t := mk { selectedTags : list string; input : string }.

(** [addTag(raw)]: the trimmed text is added unless it is empty or
    already there; adding clears the input. *)
Definition addTag (raw : string) (s : t) : t :=
  let tag := Js.text (Js.trim (Js.chars raw)) in
  if decide (tag = EmptyString) then s
  else if bool_decide (tag ∈ selectedTags s) then s
  else mk (selectedTags s ++ [tag]) EmptyString.

(** [handleKeyDown(e)], by [e.key]; [slice(0, -1)] drops the last tag. *)
Definition handleKeyDown (key : string) (s : t) : t :=
  if bool_decide (key = "Enter") || bool_decide (key = ",") then addTag (input s) s
  else if bool_decide (key = "Backspace")
          && bool_decide (input s = EmptyString)
          && bool_decide (0 < length (selectedTags s))
  then mk (take (length (selectedTags s) - 1) (selectedTags s)) (input s)
  else s.

(** [handleRemove(tagToRemove)] *)
Definition handleRemove (tagToRemove : string) (s : t) : t :=
  mk (filter (fun t => t ≠ tagToRemove) (selectedTags s)) (input s).

(** The [onChange] of the text input. *)
Definition setInput (value : string) (s : t) : t := mk (selectedTags s) value.

Inductive Event :=
| KeyDown (key : string)
| Typed (value : string)
| RemoveClick (tag : string).

Definition step (ev : Event) (s : t) : t :=
  match ev with
  | KeyDown key => handleKeyDown key s
  | Typed value => setInput value s
  | RemoveClick tag => handleRemove tag s
  end.

Definition run (evs : list Event) (s : t) : t := foldl (fun acc ev => step ev acc) s evs.

(** A tag as [addTag] stores it: trimmed and not empty. *)
Definition clean (tag : string) : Prop :=
  tag <> EmptyString /\ Js.text (Js.trim (Js.chars tag)) = tag.

End TagSelector.

(** *** The toolbar ([EditorToolbar]) *)

(** The [map] of [handleHeading]. *)
Definition headingSizes : list (string * string) :=
  [("h1", "36px"); ("h2", "32px"); ("h3", "28px");
   ("h4", "24px"); ("h5", "18px"); ("h6", "14px")].

(** [v ? map[v] : false] *)
Definition headingValue (v : string) : Value :=
  if decide (v = EmptyString) then VBool false
  else match (list_to_map headingSizes : gmap string string) !! v with
       | Some px => VStr px
       | None => VUndefined
       end.

(** [handleHeading(e)] with [onFormat] bound to [handleFormat];
    [v] is [e.target.value]. *)
Definition handleHeading (v : string) : M unit :=
  handleFormat "size" (headingValue v).

(** *** Pasting and uploading *)

(** The [paste] listener that [App] installs on the editing surface
    once the editor exists.  [clipboard] is [None] when the event has no
    [clipboardData], otherwise its text. *)
Definition onPaste (clipboard : option string) : M unit :=
  editor ← read quillRef;
  if missing editor then ret tt else
  match clipboard with
  | None => ret tt
  | Some text =>
      if decide (text = EmptyString) then ret tt else
      sel ← ask Quill.getSelection None;
      saved ← read lastSelectionRef;
      len ← ask Quill.getLength 0;
      let insertIndex :=
        match sel, saved with
        | Some r, _ => Range.index r
        | None, Some r => Range.index r
        | None, None => 0 `max` (len - 1)
        end in
      call (Quill.insertText insertIndex text ∅);;
      call (fun q => Ok (Quill.setSelection (insertIndex + String.length text) 0 q));;
      update (set_lastSelection
                (Some (Range.mk (insertIndex + String.length text) 0)))
  end.

(** The record that [insertImageIntoEditor] of the unnamed part appends
    to the image list; [stamp] is [Date.now()]. *)
Definition uploaded (imageUrl fileName : string) (stamp : nat) : ImageRecord :=
  mkImage stamp (if decide (fileName = EmptyString) then "image" else fileName)
          imageUrl None None.

(** [insertImageIntoEditor(imageUrl, fileName)] of the uploader (unnamed
    part): the embed goes to the selection of the focused editor, else
    to the end, and the caret behind it.  The result is the updater
    handed to [onImagesChange]; the styling of the DOM node is not part
    of the document. *)
Definition insertImageIntoEditor (imageUrl fileName : string) (stamp : nat)
  : M (list ImageRecord -> list ImageRecord) :=
  let updater := fun prev => prev ++ [uploaded imageUrl fileName stamp] in
  editor ← read quillRef;
  if missing editor then ret updater else
  call (fun q => Ok (Quill.focus q));;
  range ← ask Quill.getSelection None;
  len ← ask Quill.getLength 0;
  let index := match range with
               | Some r => Range.index r
               | None => len
               end in
  call (Quill.insertEmbed index imageUrl);;
  call (fun q => Ok (Quill.setSelection (index + 1) 0 q));;
  ret updater.

(** The updater that [handleResizeImage] hands to [setImages]: the
    records whose [url] is the source of the resized image take the new
    sizes, an empty size keeps the stored one. *)
Definition resizeRecord (src widthCss heightCss : string) (it : ImageRecord)
  : ImageRecord :=
  if decide (url it = EmptyString) then it
  else if decide (url it = src)
  then mkImage (id it) (name it) (url it)
         (if decide (widthCss = EmptyString) then width it else Some widthCss)
         (if decide (heightCss = EmptyString) then height it else Some heightCss)
  else it.

Definition resizeRecords (src widthRaw heightRaw : string)
    (prev : list ImageRecord) : list ImageRecord :=
  resizeRecord src (normalizeSizeValue widthRaw) (normalizeSizeValue heightRaw)
    <$> prev.

(** *** Publishing *)

Module Post.
Record t := mk {
  id : nat;
  title : string;
  contentHtml : string;
  contentPlain : string;
  tags : list string;
  images : list ImageRecord;
  createdAt : string
}.
End Post.

Inductive View := EditorView | PostsView.

(** The state cells of [App] that the page handlers touch.  The four
    draft cells, the autosave hook and the store slot of the draft are
    in [editing]; [postsSlot] is the store slot of [POSTS_KEY]. *)
Record Page := mkPage {
  view : View;
  isPreview : bool;
  editing : Editing;
  posts : list Post.t;
  postsSlot : option (list Post.t);
  banners : list Toast
}.

Definition emptyDraft : Draft := mkDraft EmptyString EmptyString [] [].

(** [localStorage.removeItem(key)] *)
Definition removeItem (k : string) (e : Env) : Env :=
  mkEnv (now e) (timers e) (nextTimerId e) (writes e) (delete k (storage e))
        (notices e).

(** The draft cells are set to [d] and the draft slot is removed. *)
Definition resetDraft (d : Draft) (s : Editing) : Editing :=
  mkEditing d (mkHook (cleanup (autosave s)) (removeItem DRAFT_KEY (env (autosave s)))).

(** [.filter(Boolean)] on a list of strings *)
Definition truthyTags (l : list string) : list string :=
  filter (fun t => t ≠ EmptyString) l.

Section Publishing.

(** The text of an HTML fragment as the DOM reports it ([textContent] of
    a detached [div]), and the verdict of the store on the list of
    posts. *)
Variable textContent : string -> string.
Variable postsQuota : list Post.t -> bool.

(** The post that [handlePublish] builds; [stamp] is [Date.now()] and
    [iso] is [new Date().toISOString()]. *)
Definition newPost (stamp : nat) (iso : string) (d : Draft) : Post.t :=
  let cleanedHtml := cleanHtml (content d) in
  let trimmed := Js.text (Js.trim (Js.chars (title d))) in
  Post.mk stamp
    (if decide (trimmed = EmptyString) then "Untitled Post" else trimmed)
    cleanedHtml (textContent cleanedHtml) (truthyTags (tags d)) (images d) iso.

(** [handlePublish()] *)
Definition handlePublish (stamp : nat) (iso : string) (s : Page) : Page :=
  let d := draft (editing s) in
  if negb (nonblank (title d)) && negb (nonblank (content d)) then
    mkPage (view s) (isPreview s) (editing s) (posts s) (postsSlot s)
      (banners s ++ [mkToast Warn "Add a title or some content before publishing"])
  else
    let updatedPosts := newPost stamp iso d :: posts s in
    mkPage (view s) (isPreview s) (resetDraft emptyDraft (editing s))
      updatedPosts
      (if postsQuota updatedPosts then postsSlot s else Some updatedPosts)
      (banners s ++ [mkToast Success "Post published!"]).

(** [handleSelectPost(post)]: the post is loaded into the draft cells. *)
Definition handleSelectPost (post : Post.t) (s : Page) : Page :=
  mkPage EditorView false
    (mkEditing (mkDraft (Post.title post) (Post.contentHtml post)
                  (truthyTags (Post.tags post)) (Post.images post))
       (autosave (editing s)))
    (posts s) (postsSlot s)
    (banners s ++ [mkToast Info "Loaded post for editing"]).

End Publishing.

(** *** The list of posts ([PostListView]) *)

(** [toLowerCase()] on a code unit below 256: the ASCII capitals and the
    capitals of Latin-1. *)
Definition lower (c : ascii) : ascii :=
  let n := nat_of_ascii c in
  if ((65 <=? n) && (n <=? 90))
     || ((192 <=? n) && (n <=? 222) && negb (n =? 215))
  then ascii_of_nat (n + 32) else c.

Definition toLowerCase (s : list ascii) : list ascii := lower <$> s.

(** [s.includes(q)] *)
Fixpoint includes (q s : list ascii) : bool :=
  Js.startsWith q s
  || match s with
     | [] => false
     | _ :: r => includes q r
     end.

(** The predicate of [posts.filter] in [PostListView]. *)
Definition matchesQuery (query : string) (post : Post.t) : bool :=
  let q := toLowerCase (Js.trim (Js.chars query)) in
  if decide (q = []) then true
  else includes q (toLowerCase (Js.chars (Post.title post)))
       || includes q (toLowerCase (Js.chars (Post.contentPlain post))).

Definition filtered (query : string) (posts : list Post.t) : list Post.t :=
  filter (fun p => matchesQuery query p = true) posts.

(** ** Further observations *)

(** A handler step that leaves the characters and embeds of the
    document as they are, whether it returns or throws. *)
Definition keepsText {A} (c : M A) : Prop :=
  forall s, leaves (documentOf (final (c s))) = leaves (documentOf s).

(** An editor mutation that leaves the characters and embeds as they
    are. *)
Definition keepsLeaves (f : Quill.t -> result Quill.t) : Prop :=
  forall q q', f q = Ok q' -> leaves (Quill.contents q') = leaves (Quill.contents q).

(** Every unit carries the attribute with one and the same truthy
    value: what [getFormat] over the units reports as enabled. *)
Definition carried (name : string) (ns : list Node) : Prop :=
  exists v, truthy v = true /\ Forall (fun n => attrs n !! name = Some v) ns.

(** The document without the unit at [offset]. *)
Definition without (offset : nat) (d : list Node) : list Node :=
  take offset d ++ drop (S offset) d.

(** The tokens of a text that are neither white space nor one of the
    tags or the entity that [cleanHtml] looks for: the characters that
    the normaliser has no pattern for. *)
Definition others (ts : list Tok) : list Tok :=
  filter (fun t => kind t = KOther) ts.

(** A matcher that consumes at least as many units as [rep] has. *)
Definition takes {A} (m : list A -> option (list A)) (rep : list A) : Prop :=
  forall s r, m s = Some r -> length rep + length r <= length s.

(** A matcher on tokens that takes none of the other tokens. *)
Definition spares (m : list Tok -> option (list Tok)) : Prop :=
  forall s r, m s = Some r -> others s = others r.


(** * Properties *)

(** ** Strings *)

Lemma text_chars (s : string) : Js.text (Js.chars s) = s.
Proof. apply string_of_list_ascii_of_string. Qed.

Lemma chars_text (l : list ascii) : Js.chars (Js.text l) = l.
Proof. apply list_ascii_of_string_of_list_ascii. Qed.

Lemma chars_app (a b : string) : Js.chars (a +:+ b) = Js.chars a ++ Js.chars b.
Proof. induction a as [|c a IH]; simpl; [done | by rewrite IH]. Qed.

Lemma text_app (a b : list ascii) : Js.text (a ++ b) = Js.text a +:+ Js.text b.
Proof. induction a as [|c a IH]; simpl; [done | by rewrite IH]. Qed.

Lemma chars_inj (a b : string) : Js.chars a = Js.chars b -> a = b.
Proof. intros H. rewrite <- (text_chars a), <- (text_chars b). by rewrite H. Qed.

Lemma startsWith_app (p s : list ascii) : Js.startsWith p (p ++ s) = true.
Proof. induction p as [|c p IH]; simpl; [done | by rewrite decide_True]. Qed.

Lemma trimStart_no_ws (s : list ascii) :
  Forall (fun c => Js.is_ws c = false) s -> Js.trimStart s = s.
Proof. destruct 1 as [|c r Hc _]; simpl; [done | by rewrite Hc]. Qed.

Lemma trimEnd_no_ws (s : list ascii) :
  Forall (fun c => Js.is_ws c = false) s -> Js.trimEnd s = s.
Proof.
  induction 1 as [|c r Hc _ IH]; simpl; [done |].
  rewrite IH, Hc. by destruct r.
Qed.

Lemma digit_not_ws (c : ascii) : Js.is_digit c = true -> Js.is_ws c = false.
Proof.
  destruct c as [[] [] [] [] [] [] [] []]; simpl; intros H;
    try discriminate H; reflexivity.
Qed.

Lemma digit_not_percent (c : ascii) : Js.is_digit c = true -> c <> "%"%char.
Proof. intros H ->. discriminate H. Qed.

Lemma all_digits_Forall (s : list ascii) :
  Js.all_digits s = true -> s <> [] /\ Forall (fun c => Js.is_digit c = true) s.
Proof.
  destruct s as [|c r]; [discriminate |]. unfold Js.all_digits.
  intros H. split; [done |]. apply Forall_forall. intros x Hx.
  eapply forallb_forall in H; [exact H | by apply list_elem_of_In].
Qed.

Lemma endsWith_percent_digits (s : list ascii) :
  Forall (fun c => Js.is_digit c = true) s ->
  Js.endsWith (Js.chars "%") s = false.
Proof.
  intros H. unfold Js.endsWith. simpl.
  destruct (reverse s) as [|c r] eqn:E; [done |].
  assert (Hc : c ∈ s).
  { apply elem_of_reverse. rewrite E. left. }
  rewrite Forall_forall in H. specialize (H c Hc). simpl.
  apply digit_not_percent in H. rewrite decide_False; [done | congruence].
Qed.

(** ** Size normalisation *)

(** C9: a run of decimal digits gets the suffix [px]; every other trimmed
    value, percentages and explicit units among them, is returned as it
    is; in particular 300 becomes 300px while 50% and auto stay. *)
Theorem normalizeSizeValue_spec :
  (forall v : string,
      Js.all_digits (Js.chars v) = true -> normalizeSizeValue v = v +:+ "px")
  /\ (forall v : string,
      v <> EmptyString -> Js.trim (Js.chars v) = Js.chars v ->
      Js.all_digits (Js.chars v) = false -> normalizeSizeValue v = v)
  /\ normalizeSizeValue "300" = "300px"
  /\ normalizeSizeValue "50%" = "50%"
  /\ normalizeSizeValue "auto" = "auto".
Proof.
  split; [| split; [| by vm_compute]].
  - intros v Hd. destruct (all_digits_Forall _ Hd) as [Hne Hall].
    unfold normalizeSizeValue.
    rewrite decide_False by (intros ->; by apply Hne).
    assert (Hws : Forall (fun c => Js.is_ws c = false) (Js.chars v)).
    { eapply Forall_impl; [exact Hall | apply digit_not_ws]. }
    unfold Js.trim. rewrite trimStart_no_ws, trimEnd_no_ws by done.
    rewrite endsWith_percent_digits by done. rewrite Hd.
    by rewrite text_app, text_chars.
  - intros v Hne Htrim Hd. unfold normalizeSizeValue.
    rewrite decide_False by done. rewrite Htrim, Hd, text_chars.
    by destruct (Js.endsWith _ _).
Qed.

Lemma normalizeSizeValue_spec_witness :
  normalizeSizeValue "42" = "42px" /\ normalizeSizeValue "2.5em" = "2.5em".
Proof.
  destruct normalizeSizeValue_spec as (Hd & Hk & _). split.
  - apply (Hd "42"). reflexivity.
  - apply (Hk "2.5em"); [discriminate | reflexivity | reflexivity].
Defined.


(** ** The handlers *)

#[local] Arguments Quill.getSelection : simpl never.
#[local] Arguments Quill.getLength : simpl never.
#[local] Arguments Quill.formatText : simpl never.
#[local] Arguments Quill.getFormat : simpl never.
#[local] Arguments Quill.format : simpl never.
#[local] Arguments Quill.setSelection : simpl never.
#[local] Arguments Quill.insertText : simpl never.
#[local] Arguments Quill.insertEmbed : simpl never.
#[local] Arguments Quill.deleteText : simpl never.
#[local] Arguments Quill.getIndex : simpl never.

Ltac run_handler :=
  unfold mbind, M_bind, bind, mret, M_ret, ret, read, ask, query, call,
    update, toast, try_; simpl.

(** *** Running a handler step by step *)

Lemma run_bind {A B} (c : M A) (k : A -> M B) (s : App) :
  (c ≫= k) s = match c s with
               | Returned a s' => k a s'
               | Threw e s' => Threw e s'
               end.
Proof. reflexivity. Qed.

Lemma run_ret {A} (a : A) (s : App) : mret (M := M) a s = Returned a s.
Proof. reflexivity. Qed.

Lemma run_read {A} (f : App -> A) (s : App) : read f s = Returned (f s) s.
Proof. reflexivity. Qed.

Lemma run_update (f : App -> App) (s : App) : update f s = Returned tt (f s).
Proof. reflexivity. Qed.

Lemma run_toast (l : Level) (msg : string) (s : App) :
  toast l msg s = Returned tt (add_toast (mkToast l msg) s).
Proof. reflexivity. Qed.

Lemma run_ask {A} (f : Quill.t -> A) (d : A) (s : App) (q : Quill.t) :
  quillRef s = Some q -> ask f d s = Returned (f q) s.
Proof. intros H. unfold ask, read. by rewrite H. Qed.

Lemma run_call (f : Quill.t -> result Quill.t) (s : App) (q q' : Quill.t) :
  quillRef s = Some q -> f q = Ok q' -> call f s = Returned tt (set_quill q' s).
Proof. intros H E. unfold call. by rewrite H, E. Qed.

Lemma run_call_fail (f : Quill.t -> result Quill.t) (s : App) (q : Quill.t)
    (e : Error) :
  quillRef s = Some q -> f q = Fail e -> call f s = Threw e s.
Proof. intros H E. unfold call. by rewrite H, E. Qed.

Lemma run_query {A} (f : Quill.t -> result A) (d : A) (s : App) (q : Quill.t)
    (a : A) :
  quillRef s = Some q -> f q = Ok a -> query f d s = Returned a s.
Proof. intros H E. unfold query. by rewrite H, E. Qed.

Lemma run_query_fail {A} (f : Quill.t -> result A) (d : A) (s : App)
    (q : Quill.t) (e : Error) :
  quillRef s = Some q -> f q = Fail e -> query f d s = Threw e s.
Proof. intros H E. unfold query. by rewrite H, E. Qed.

Ltac known := first [eassumption | reflexivity].

(** One statement of a handler: the head of a sequence is run and the
    continuation is entered. *)
Ltac step :=
  rewrite ?run_bind;
  first
    [ rewrite run_read
    | rewrite run_update
    | rewrite run_toast
    | rewrite run_ret
    | erewrite run_ask; [| known ]
    | erewrite run_query; [| known | known ]
    | erewrite run_call; [| known | known ] ];
  cbn beta iota; cbn [missing].

Lemma no_range_index (r : option Range.t) :
  no_range r = false ->
  r = Some (Range.mk (range_index r) (range_length r)) /\ 0 < range_length r.
Proof.
  destruct r as [[i n]|]; simpl; [| done].
  intros H. apply bool_decide_eq_false in H. split; [done | lia].
Qed.

(** C3: with a caret or without a selection, every range-requiring format
    is refused with an advisory; nothing else in the state changes, so
    the document and its length stay as they were. *)
Theorem handleFormat_empty_selection (app : App) (q : Quill.t)
    (format : string) (value : Value) :
  quillRef app = Some q ->
  no_range (Quill.getSelection q) = true ->
  format ∈ ["bold"; "italic"; "underline"; "strike"; "size"; "list"] ->
  exists msg app',
    handleFormat format value app = Returned tt app'
    /\ app' = add_toast (mkToast Info msg) app
    /\ quillRef app' = Some q
    /\ (Quill.getLength <$> quillRef app') = Some (Quill.getLength q).
Proof.
  intros Hq Hsel Hfmt.
  unfold handleFormat. run_handler. repeat (rewrite !Hq; simpl). rewrite !Hsel.
  repeat (apply elem_of_cons in Hfmt as [-> | Hfmt]); simpl;
    try (eexists _, _; split; [reflexivity |];
         split; [reflexivity |]; simpl; rewrite Hq; by split).
  by apply elem_of_nil in Hfmt.
Qed.

(** *** Ranges of a document *)

Lemma map_range_split {A} (i n : nat) (d : list A) :
  take i d ++ take n (drop i d) ++ drop (i + n) d = d.
Proof.
  rewrite <- (drop_drop d n i), (take_drop n (drop i d)). apply take_drop.
Qed.

Lemma map_range_id (f : Node -> Node) (i n : nat) (d : list Node) :
  Forall (fun x => f x = x) (take n (drop i d)) -> Quill.map_range f i n d = d.
Proof.
  intros H. unfold Quill.map_range.
  assert (E : f <$> take n (drop i d) = take n (drop i d)).
  { induction H as [|x l Hx _ IH]; csimpl; [done | by rewrite Hx, IH]. }
  rewrite E. apply map_range_split.
Qed.

Lemma map_range_length (f : Node -> Node) (i n : nat) (d : list Node) :
  length (Quill.map_range f i n d) = length d.
Proof.
  unfold Quill.map_range. rewrite <- (map_range_split i n d) at 4.
  rewrite !length_app, length_fmap. done.
Qed.

Lemma map_range_window (f : Node -> Node) (i n : nat) (d : list Node) :
  i + n <= length d ->
  take n (drop i (Quill.map_range f i n d)) = f <$> take n (drop i d).
Proof.
  intros H. unfold Quill.map_range.
  rewrite drop_app_length' by (rewrite length_take; lia).
  rewrite take_app_length'; [done |].
  rewrite length_fmap, length_take, length_drop. lia.
Qed.

Lemma map_range_prefix (f : Node -> Node) (i n : nat) (d : list Node) :
  i + n <= length d -> take i (Quill.map_range f i n d) = take i d.
Proof.
  intros H. unfold Quill.map_range.
  rewrite take_app_length'; [done | rewrite length_take; lia].
Qed.

Lemma map_range_suffix (f : Node -> Node) (i n : nat) (d : list Node) :
  i + n <= length d -> drop (i + n) (Quill.map_range f i n d) = drop (i + n) d.
Proof.
  intros H. unfold Quill.map_range. rewrite app_assoc.
  rewrite drop_app_length'; [done |].
  rewrite length_app, length_fmap, !length_take, length_drop. lia.
Qed.

Lemma map_range_twice (f g : Node -> Node) (i n : nat) (d : list Node) :
  i + n <= length d ->
  Quill.map_range g i n (Quill.map_range f i n d) = Quill.map_range (g ∘ f) i n d.
Proof.
  intros H. unfold Quill.map_range at 1.
  rewrite map_range_prefix, map_range_window, map_range_suffix by done.
  unfold Quill.map_range. by rewrite <- list_fmap_compose.
Qed.

Lemma map_range_lookup (f : Node -> Node) (i n j : nat) (d : list Node) :
  i + n <= length d ->
  Quill.map_range f i n d !! j
  = if bool_decide (i <= j < i + n) then f <$> d !! j else d !! j.
Proof.
  intros H. unfold Quill.map_range.
  destruct (decide (j < i)) as [Hlt | Hge].
  - rewrite bool_decide_eq_false_2 by lia.
    rewrite lookup_app_l by (rewrite length_take; lia).
    by rewrite lookup_take_lt.
  - rewrite lookup_app_r by (rewrite length_take; lia).
    rewrite length_take, Nat.min_l by lia.
    destruct (decide (j < i + n)) as [Hin | Hout].
    + rewrite bool_decide_eq_true_2 by lia.
      rewrite lookup_app_l
        by (rewrite length_fmap, length_take, length_drop; lia).
      rewrite list_lookup_fmap, lookup_take_lt, lookup_drop by lia.
      do 2 f_equal. lia.
    + rewrite bool_decide_eq_false_2 by lia.
      rewrite lookup_app_r
        by (rewrite length_fmap, length_take, length_drop; lia).
      rewrite length_fmap, length_take, length_drop, lookup_drop.
      f_equal. lia.
Qed.

(** *** Link insertion *)

Lemma withScheme_hasScheme (url : string) : hasScheme (withScheme url) = true.
Proof.
  unfold withScheme, hasScheme.
  destruct (Js.startsWith (Js.chars "http://") (Js.chars url)) eqn:E1;
    cbn [negb andb]; [by rewrite E1 |].
  destruct (Js.startsWith (Js.chars "https://") (Js.chars url)) eqn:E2;
    cbn [negb andb].
  - rewrite E2. by rewrite orb_true_r.
  - rewrite chars_app, (startsWith_app (Js.chars "https://")).
    by rewrite orb_true_r.
Qed.



Lemma formatText_Ok (i n : nat) (name : string) (v : Value) (q q' : Quill.t) :
  Quill.formatText i n name v q = Ok q' ->
  i + n <= Quill.getLength q
  /\ q' = Quill.with_contents
            (Quill.map_range (Quill.format_node name v) i n (Quill.contents q)) q.
Proof.
  unfold Quill.formatText, Quill.in_range. case_bool_decide; [| done].
  intros [= <-]. done.
Qed.

Lemma formatText_in_range (i n : nat) (name : string) (v : Value) (q : Quill.t) :
  i + n <= Quill.getLength q ->
  Quill.formatText i n name v q
  = Ok (Quill.with_contents
          (Quill.map_range (Quill.format_node name v) i n (Quill.contents q)) q).
Proof.
  intros H. unfold Quill.formatText, Quill.in_range.
  by rewrite bool_decide_eq_true_2.
Qed.







Lemma getSelection_Some (q : Quill.t) (r : Range.t) :
  Quill.getSelection q = Some r ->
  Quill.hasFocus q = true /\ Quill.selection q = Some r.
Proof. unfold Quill.getSelection. by destruct (Quill.hasFocus q). Qed.

Lemma getSelection_blur (q : Quill.t) : Quill.getSelection (Quill.blur q) = None.
Proof. done. Qed.

(** What the selection cache is there for: with no live selection, a
    range that is still in [lastSelectionRef] when the insertion runs
    gets the link by [formatText]. *)
Lemma handleInsertLink_saved (url : string) (s : App) (q : Quill.t) (i n : nat) :
  quillRef s = Some q ->
  Quill.getSelection q = None ->
  lastSelectionRef s = Some (Range.mk i n) ->
  0 < n -> i + n <= Quill.getLength q ->
  exists s',
    handleInsertLink url s = Returned tt s'
    /\ documentOf s'
       = Quill.map_range (Quill.format_node "link" (VStr (withScheme url))) i n
           (Quill.contents q).
Proof.
  intros Hq Hsel Hsaved Hn Hlen. unfold handleInsertLink.
  step. rewrite Hq. cbn [missing]. 
  do 3 step. rewrite Hsel, Hsaved. cbn [Range.index Range.length].
  rewrite bool_decide_eq_true_2 by done.
  pose proof (formatText_in_range i n "link" (VStr (withScheme url)) q Hlen) as Hf.
  do 4 step. eexists. split; reflexivity.
Qed.

Lemma length_chars (s : string) : length (Js.chars s) = String.length s.
Proof. induction s as [|c s IH]; simpl; [done | by rewrite IH]. Qed.

Lemma length_text_nodes (s : string) (a : gmap string Value) :
  length (Quill.text_nodes s a) = String.length s.
Proof. unfold Quill.text_nodes. by rewrite length_fmap, length_chars. Qed.

Lemma length_insert_at (i : nat) (ns d : list Node) :
  length (Quill.insert_at i ns d) = length d + length ns.
Proof.
  unfold Quill.insert_at. rewrite <- (take_drop i d) at 3.
  rewrite !length_app. lia.
Qed.

Lemma insertText_in_range (i : nat) (s : string) (a : gmap string Value)
    (q : Quill.t) :
  i <= Quill.getLength q ->
  Quill.insertText i s a q
  = Ok (Quill.with_contents
          (Quill.insert_at i (Quill.text_nodes s a) (Quill.contents q)) q).
Proof.
  intros H. unfold Quill.insertText, Quill.in_range.
  by rewrite bool_decide_eq_true_2 by lia.
Qed.

Lemma withScheme_length (url : string) : 0 < String.length (withScheme url).
Proof.
  pose proof (withScheme_hasScheme url) as H.
  destruct (withScheme url); [done | simpl; lia].
Qed.

(** With nothing selected and nothing cached the URL is inserted as
    linked text in front of the last unit of the document, and the caret
    is put behind it. *)
Lemma handleInsertLink_nothing (url : string) (s : App) (q : Quill.t) :
  quillRef s = Some q ->
  Quill.getSelection q = None ->
  lastSelectionRef s = None ->
  let at_ := Quill.getLength q - 1 in
  let final_ := withScheme url in
  exists s' q',
    handleInsertLink url s = Returned tt s'
    /\ quillRef s' = Some q'
    /\ Quill.contents q'
       = Quill.insert_at at_ (Quill.text_nodes final_ {["link" := VStr final_]})
           (Quill.contents q)
    /\ Quill.getSelection q' = Some (Range.mk (at_ + String.length final_) 0)
    /\ lastSelectionRef s' = None.
Proof.
  intros Hq Hsel Hsaved at_ final_. unfold handleInsertLink.
  step. rewrite Hq. cbn [missing].
  do 3 step. rewrite Hsel, Hsaved. fold final_.
  rewrite bool_decide_eq_false_2 by lia.
  rewrite Nat.max_0_l. fold at_.
  assert (Hi : Quill.insertText at_ final_ {["link" := VStr final_]} q
               = Ok (Quill.with_contents
                       (Quill.insert_at at_
                          (Quill.text_nodes final_ {["link" := VStr final_]})
                          (Quill.contents q)) q)).
  { apply insertText_in_range. unfold at_. lia. }
  do 4 step.
  eexists _, _. split; [reflexivity |]. split; [reflexivity |].
  split; [reflexivity |]. split; [| reflexivity].
  unfold Quill.getSelection. simpl.
  change (Quill.getLength (Quill.with_contents ?d _)) with (length d).
  rewrite length_insert_at, length_text_nodes.
  unfold Quill.getLength in at_. do 2 f_equal; unfold at_; lia.
Qed.

(** C4, which the code does not do: the selection [{index: 2, length: 3}]
    is cached when the link dialog opens; the dialog takes the focus and
    the editor reports the lost selection to the [selection-change]
    subscriber, which clears the cache; when the insertion runs, the live
    selection and the cache are both [null], so the URL is inserted as
    new linked text in front of the last unit of the document.  Every
    unit of the original document keeps its attributes, and the result
    is not the document with the link applied to offsets 2 to 5. *)
Theorem link_after_focus_loss (app : App) (q : Quill.t) (url : string) :
  quillRef app = Some q ->
  Quill.getSelection q = Some (Range.mk 2 3) ->
  5 <= Quill.getLength q ->
  let final_ := withScheme url in
  exists opened blurred app',
    openLinkModal app = Returned tt opened
    /\ lastSelectionRef opened = Some (Range.mk 2 3)
    /\ (loseFocus;; handleSelectionChange None) opened = Returned tt blurred
    /\ (quillRef blurred ≫= Quill.getSelection) = None
    /\ lastSelectionRef blurred = None
    /\ handleInsertLink url blurred = Returned tt app'
    /\ linkViaModal url app = Returned tt app'
    /\ documentOf app'
       = Quill.insert_at (Quill.getLength q - 1)
           (Quill.text_nodes final_ {["link" := VStr final_]}) (Quill.contents q)
    /\ (forall j, j < Quill.getLength q - 1 ->
          documentOf app' !! j = Quill.contents q !! j)
    /\ documentOf app'
       <> Quill.map_range (Quill.format_node "link" (VStr final_)) 2 3
            (Quill.contents q).
Proof.
  intros Hq Hsel Hlen final_.
  set (opened := set_linkModalOpen true (set_lastSelection (Some (Range.mk 2 3)) app)).
  set (blurred := set_lastSelection None (set_quill (Quill.blur q) opened)).
  destruct (handleInsertLink_nothing url blurred (Quill.blur q))
    as (app' & q' & Hrun & Hq' & Hdoc & _); [done | done | done |].
  change (Quill.getLength (Quill.blur q)) with (Quill.getLength q) in Hdoc.
  change (Quill.contents (Quill.blur q)) with (Quill.contents q) in Hdoc.
  fold final_ in Hdoc.
  assert (Hopen : openLinkModal app = Returned tt opened).
  { unfold openLinkModal. step. rewrite Hsel. cbn [missing]. by do 2 step. }
  assert (Hblur : (loseFocus;; handleSelectionChange None) opened
                  = Returned tt blurred).
  { unfold loseFocus, handleSelectionChange.
    assert (Hq0 : quillRef opened = Some q) by done. by do 2 step. }
  assert (Hd : documentOf app'
               = Quill.insert_at (Quill.getLength q - 1)
                   (Quill.text_nodes final_ {["link" := VStr final_]})
                   (Quill.contents q)).
  { unfold documentOf. by rewrite Hq'. }
  exists opened, blurred, app'.
  split; [exact Hopen |]. split; [done |]. split; [exact Hblur |].
  split; [done |]. split; [done |]. split; [exact Hrun |].
  split.
  { unfold linkViaModal, openLinkModal, loseFocus, handleSelectionChange.
    step. rewrite Hsel. cbn [missing]. do 4 step. exact Hrun. }
  split; [exact Hd |]. split.
  - intros j Hj. rewrite Hd. unfold Quill.insert_at.
    unfold Quill.getLength in *.
    rewrite lookup_app_l by (rewrite length_take; lia).
    by rewrite lookup_take_lt by lia.
  - intros E. apply (f_equal length) in E.
    rewrite Hd, length_insert_at, length_text_nodes, map_range_length in E.
    pose proof (withScheme_length url). fold final_ in H. lia.
Qed.

Lemma link_after_focus_loss_witness :
  let text := Quill.text_nodes "hello world" ∅ in
  let q := Quill.mk text (Some (Range.mk 2 3)) true ∅ 0 in
  let app := mkApp (Some q) None false (mkDrag None None) [] in
  exists app',
    linkViaModal "a.b" app = Returned tt app'
    /\ formatsOf "link" (documentOf app')
       = replicate 10 VUndefined ++ replicate 11 (VStr "https://a.b")
         ++ [VUndefined].
Proof.
  intros text q app.
  destruct (link_after_focus_loss app q "a.b")
    as (opened & blurred & app' & _ & _ & _ & _ & _ & _ & Hrun & Hdoc & _);
    [reflexivity | reflexivity | vm_compute; lia |].
  exists app'. split; [exact Hrun |]. rewrite Hdoc. vm_compute. reflexivity.
Defined.

(** *** Character toggles *)

Lemma agree_lookup (a b : gmap string Value) (k : string) :
  Quill.agree a b !! k
  = match a !! k, b !! k with
    | Some x, Some y => if decide (x = y) then Some x else None
    | _, _ => None
    end.
Proof.
  unfold Quill.agree. rewrite lookup_intersection_with.
  destruct (a !! k), (b !! k); done.
Qed.

Lemma common_all (k : string) (v : Value) (ns : list Node) :
  ns <> [] ->
  Forall (fun n => attrs n !! k = Some v) ns ->
  Quill.common ns !! k = Some v.
Proof.
  destruct ns as [|n r]; [done |]. intros _ H.
  apply Forall_cons in H as [Hn Hr]. simpl.
  induction Hr as [|m r Hm _ IH]; simpl; [done |].
  rewrite agree_lookup, Hm, IH. by rewrite decide_True.
Qed.

Lemma common_none (k : string) (ns : list Node) :
  Forall (fun n => attrs n !! k = None) ns ->
  Quill.common ns !! k = None.
Proof.
  destruct ns as [|n r]; [done |]. intros H.
  apply Forall_cons in H as [Hn Hr]. simpl.
  induction Hr as [|m r Hm _ IH]; simpl; [done |].
  by rewrite agree_lookup, Hm.
Qed.

Lemma window_nonempty (i n : nat) (d : list Node) :
  0 < n -> i + n <= length d -> take n (drop i d) <> [].
Proof.
  intros Hn Hlen E. apply (f_equal length) in E.
  rewrite length_take, length_drop in E. simpl in E. lia.
Qed.

Lemma getFormat_window (i n : nat) (q : Quill.t) :
  0 < n -> i + n <= Quill.getLength q ->
  Quill.getFormat i n q = Ok (Quill.common (take n (drop i (Quill.contents q)))).
Proof.
  intros Hn Hlen. unfold Quill.getFormat, Quill.in_range.
  rewrite bool_decide_eq_true_2 by done. destruct n; [lia | done].
Qed.

Lemma setSelection_in_range (i n : nat) (q : Quill.t) :
  i + n <= Quill.getLength q ->
  Quill.getSelection (Quill.setSelection i n q) = Some (Range.mk i n).
Proof.
  intros H. unfold Quill.setSelection, Quill.getSelection. simpl.
  change (length (Quill.contents q)) with (Quill.getLength q).
  do 2 f_equal; lia.
Qed.

Lemma format_at_caret (name : string) (v : Value) (q : Quill.t) (i : nat) :
  Quill.is_block name = false ->
  Quill.selection q = Some (Range.mk i 0) ->
  Quill.format name v q
  = Ok (Quill.with_cursor (Quill.set_attr name v (Quill.cursor q)) (Quill.focus q)).
Proof. intros Hb Hs. unfold Quill.format. simpl. by rewrite Hs, Hb. Qed.

Lemma toggle_not_block (format : string) :
  format ∈ ["bold"; "italic"; "underline"; "strike"] ->
  bool_decide (format = "list") = false
  /\ bool_decide (format = "size") = false
  /\ Quill.is_block format = false.
Proof.
  intros H.
  repeat (apply elem_of_cons in H as [-> | H]; [done |]).
  by apply elem_of_nil in H.
Qed.

(** What one toggle does to the editor when the live selection is a range
    inside the document: the attribute is set to the negation of its
    common value over the range, and a caret is left behind the range. *)
Lemma handleFormat_toggle (format : string) (app : App) (q : Quill.t) (i n : nat) :
  format ∈ ["bold"; "italic"; "underline"; "strike"] ->
  quillRef app = Some q ->
  Quill.getSelection q = Some (Range.mk i n) ->
  0 < n -> i + n <= Quill.getLength q ->
  exists app' q',
    handleFormat format VUndefined app = Returned tt app'
    /\ quillRef app' = Some q'
    /\ Quill.contents q'
       = Quill.map_range
           (Quill.format_node format
              (VBool (negb (truthy (prop (Quill.common
                                            (take n (drop i (Quill.contents q))))
                                         format)))))
           i n (Quill.contents q)
    /\ Quill.getSelection q' = Some (Range.mk (i + n) 0).
Proof.
  intros Hfmt Hq Hsel Hn Hlen. unfold handleFormat.
  step. rewrite Hq. cbn [missing]. step. rewrite Hsel.
  destruct (toggle_not_block format Hfmt) as (Hl & Hs & Hb).
  rewrite Hl, Hs, (bool_decide_eq_true_2 _ Hfmt).
  cbn [no_range range_index range_length from_option Range.index Range.length].
  rewrite bool_decide_eq_false_2 by lia.
  pose proof (getFormat_window i n q Hn Hlen) as Hg.
  step.
  set (v := VBool (negb _)).
  pose proof (formatText_in_range i n format v q Hlen) as Hf.
  step. step.
  erewrite run_call;
    [| reflexivity | eapply format_at_caret; [exact Hb | reflexivity]].
  eexists _, _. split; [reflexivity |]. split; [reflexivity |].
  split; [reflexivity |].
  unfold Quill.getSelection. simpl. unfold Quill.getLength. simpl.
  rewrite map_range_length. unfold Quill.getLength in Hlen.
  do 2 f_equal; lia.
Qed.

Lemma set_attr_off_on (k : string) (a : gmap string Value) :
  a !! k = None ->
  Quill.set_attr k (VBool false) (Quill.set_attr k (VBool true) a) = a.
Proof.
  intros H. unfold Quill.set_attr. simpl.
  rewrite delete_insert_eq. by apply delete_id.
Qed.

Lemma set_attr_on_off (k : string) (a : gmap string Value) :
  a !! k = Some (VBool true) ->
  Quill.set_attr k (VBool true) (Quill.set_attr k (VBool false) a) = a.
Proof.
  intros H. unfold Quill.set_attr. simpl.
  rewrite insert_delete_eq. by apply insert_id.
Qed.

(** C2, as the code has it: when every position of a non-empty range in
    the document carries the format, or none does, then a toggle, the
    same range selected again (the handler leaves a caret behind the
    range) and a second toggle give the original document back. *)
Theorem toggle_twice_uniform (format : string) (app : App) (q : Quill.t)
    (i n : nat) :
  format ∈ ["bold"; "italic"; "underline"; "strike"] ->
  quillRef app = Some q ->
  Quill.getSelection q = Some (Range.mk i n) ->
  0 < n -> i + n <= Quill.getLength q ->
  uniform format (take n (drop i (Quill.contents q))) ->
  exists app',
    toggleTwice format i n app = Returned tt app'
    /\ documentOf app' = Quill.contents q.
Proof.
  intros Hfmt Hq Hsel Hn Hlen Hu.
  destruct (handleFormat_toggle format app q i n) as (a1 & q1 & R1 & Q1 & D1 & _);
    [done ..|].
  assert (L1 : Quill.getLength q1 = Quill.getLength q).
  { unfold Quill.getLength. by rewrite D1, map_range_length. }
  set (q2 := Quill.setSelection i n q1).
  destruct (handleFormat_toggle format (set_quill q2 a1) q2 i n)
    as (a3 & q3 & R3 & Q3 & D3 & _); [done | done | | done | |].
  { apply setSelection_in_range. by rewrite L1. }
  { unfold q2. unfold Quill.getLength in *. simpl. by rewrite L1. }
  exists a3. split.
  { unfold toggleTwice, select. rewrite run_bind, R1. cbn beta iota.
    step. exact R3. }
  unfold documentOf. rewrite Q3. simpl.
  change (Quill.contents q2) with (Quill.contents q1) in D3.
  set (w := take n (drop i (Quill.contents q))) in *.
  assert (Hne : w <> []) by by apply window_nonempty.
  assert (Hw1 : forall v,
             Quill.contents q1 = Quill.map_range (Quill.format_node format v) i n
                                   (Quill.contents q) ->
             take n (drop i (Quill.contents q1)) = Quill.format_node format v <$> w).
  { intros v ->. by apply map_range_window. }
  destruct Hu as [Hon | Hoff].
  - assert (E1 : prop (Quill.common w) format = VBool true).
    { unfold prop. by rewrite (common_all format (VBool true) w). }
    rewrite E1 in D1. cbn [truthy negb] in D1.
    assert (E2 : prop (Quill.common (take n (drop i (Quill.contents q1)))) format
                 = VUndefined).
    { rewrite (Hw1 _ D1). unfold prop. rewrite common_none; [done |].
      apply Forall_fmap. eapply Forall_impl; [exact Hon |].
      intros x Hx. simpl. unfold Quill.set_attr. simpl. apply lookup_delete_eq. }
    rewrite E2 in D3. cbn [truthy negb] in D3.
    rewrite D3, D1, map_range_twice by done. apply map_range_id.
    eapply Forall_impl; [exact Hon |]. intros [l a] Hx. simpl in *.
    unfold Quill.format_node. simpl. f_equal. by apply set_attr_on_off.
  - assert (E1 : prop (Quill.common w) format = VUndefined).
    { unfold prop. by rewrite (common_none format w). }
    rewrite E1 in D1. cbn [truthy negb] in D1.
    assert (E2 : prop (Quill.common (take n (drop i (Quill.contents q1)))) format
                 = VBool true).
    { rewrite (Hw1 _ D1). unfold prop.
      rewrite (common_all format (VBool true)); [done | |].
      - intros E. by apply fmap_nil_inv in E.
      - apply Forall_fmap. eapply Forall_impl; [exact Hoff |].
        intros x Hx. simpl. unfold Quill.set_attr. simpl. apply lookup_insert_eq. }
    rewrite E2 in D3. cbn [truthy negb] in D3.
    rewrite D3, D1, map_range_twice by done. apply map_range_id.
    eapply Forall_impl; [exact Hoff |]. intros [l a] Hx. simpl in *.
    unfold Quill.format_node. simpl. f_equal. by apply set_attr_off_on.
Qed.
Lemma toggle_twice_uniform_witness :
  let d := Quill.text_nodes "abc" {["bold" := VBool true]} in
  exists app',
    toggleTwice "bold" 1 2 (sampleApp d 1 2) = Returned tt app'
    /\ documentOf app' = d.
Proof.
  intros d.
  apply (toggle_twice_uniform "bold" (sampleApp d 1 2)
           (Quill.mk d (Some (Range.mk 1 2)) true ∅ 0) 1 2).
  - set_solver.
  - reflexivity.
  - reflexivity.
  - lia.
  - vm_compute. lia.
  - left. repeat constructor.
Defined.

(** C2 fails as stated.  On a range that starts mixed (the first unit
    bold, the second not) the first toggle makes both bold and the second
    clears both, so the first unit has lost its format.  And two toggles
    in direct succession do not undo each other either: the first leaves
    a caret, so the second is refused and the range stays bold. *)
Lemma toggle_twice_counterexample :
  let mixed := [mkNode (Char "a") {["bold" := VBool true]}; mkNode (Char "b") ∅] in
  let plain := [mkNode (Char "a") ∅; mkNode (Char "b") ∅] in
  (exists app',
      toggleTwice "bold" 0 2 (sampleApp mixed 0 2) = Returned tt app'
      /\ formatsOf "bold" mixed = [VBool true; VUndefined]
      /\ formatsOf "bold" (documentOf app') = [VUndefined; VUndefined]
      /\ formatsOf "bold" (documentOf app') <> formatsOf "bold" mixed)
  /\ (exists app',
      toggleInSuccession "bold" (sampleApp plain 0 2) = Returned tt app'
      /\ formatsOf "bold" plain = [VUndefined; VUndefined]
      /\ formatsOf "bold" (documentOf app') = [VBool true; VBool true]
      /\ formatsOf "bold" (documentOf app') <> formatsOf "bold" plain).
Proof.
  intros mixed plain. split.
  - eexists. split; [vm_compute; reflexivity |].
    split; [reflexivity |]. split; [vm_compute; reflexivity |].
    vm_compute. discriminate.
  - eexists. split; [vm_compute; reflexivity |].
    split; [reflexivity |]. split; [vm_compute; reflexivity |].
    vm_compute. discriminate.
Qed.

(** On a mixed range the two toggles leave the format off everywhere. *)
Lemma toggle_twice_mixed_clears :
  let mixed := [mkNode (Char "a") ∅; mkNode (Char "b") {["italic" := VBool true]};
                mkNode (Char "c") ∅] in
  formatsOf "italic" (documentOf (final (toggleTwice "italic" 0 3 (sampleApp mixed 0 3))))
  = [VUndefined; VUndefined; VUndefined].
Proof. vm_compute. reflexivity. Qed.
(** *** Drag and drop *)

Lemma embedCount_app (a b : list Node) :
  Quill.embedCount (a ++ b) = Quill.embedCount a + Quill.embedCount b.
Proof. unfold Quill.embedCount. by rewrite filter_app, length_app. Qed.

Lemma embedCount_insert_image (i b : nat) (src : string) (d : list Node) :
  Quill.embedCount (Quill.insert_at i [mkNode (Image b src) ∅] d)
  = S (Quill.embedCount d).
Proof.
  unfold Quill.insert_at. rewrite <- (take_drop i d) at 3.
  rewrite !embedCount_app. unfold Quill.embedCount at 2. simpl. lia.
Qed.

Lemma is_blot_embed (b : nat) (n : Node) :
  Quill.is_blot b n = true -> Quill.is_embed n = true.
Proof. unfold Quill.is_blot, Quill.is_embed. by destruct (leaf n). Qed.

Lemma index_of_Some (b : nat) (d : list Node) (k : nat) :
  Quill.index_of b d = Some k ->
  exists n, d !! k = Some n /\ Quill.is_blot b n = true.
Proof.
  revert k. induction d as [|x d IH]; intros k; simpl; [done |].
  destruct (Quill.is_blot b x) eqn:E.
  - intros [= <-]. by exists x.
  - destruct (Quill.index_of b d) as [j|]; simpl; [| done].
    intros [= <-]. by apply IH.
Qed.

Lemma index_of_elem (b : nat) (d : list Node) (n : Node) :
  n ∈ d -> Quill.is_blot b n = true -> is_Some (Quill.index_of b d).
Proof.
  induction 1 as [n d | n x d _ IH]; intros Hb; simpl.
  - by rewrite Hb.
  - destruct (Quill.is_blot b x); [done |].
    destruct (IH Hb) as [j ->]. done.
Qed.

Lemma embedCount_delete (k : nat) (n : Node) (d : list Node) :
  d !! k = Some n -> Quill.is_embed n = true ->
  S (Quill.embedCount (take k d ++ drop (k + 1) d)) = Quill.embedCount d.
Proof.
  intros Hk He. rewrite <- (take_drop_middle d k n Hk) at 3.
  rewrite !embedCount_app. replace (k + 1) with (S k) by lia.
  unfold Quill.embedCount at 4.
  rewrite filter_cons_True by (by rewrite He). simpl.
  fold (Quill.embedCount (drop (S k) d)). lia.
Qed.

Lemma elem_of_insert_at (n : Node) (i : nat) (ns d : list Node) :
  n ∈ d -> n ∈ Quill.insert_at i ns d.
Proof.
  intros H. unfold Quill.insert_at. rewrite <- (take_drop i d) in H.
  apply elem_of_app in H as [H | H]; rewrite !elem_of_app; auto.
Qed.

(** C8: a drag of an embedded image that ends in a drop inside the
    document inserts a copy at the drop offset and deletes the original
    at the offset it has after the insertion; the number of embeds and
    the length of the document are the same before and after, wherever
    source and destination lie. *)
Theorem dragMove_preserves_embedCount (app : App) (q : Quill.t)
    (offset blot : nat) (src : string) (a : gmap string Value) (e : DropEvent) :
  quillRef app = Some q ->
  Quill.contents q !! offset = Some (mkNode (Image blot src) a) ->
  dataTransfer e <> EmptyString ->
  dropIndexOf q e <= Quill.getLength q ->
  exists app',
    dragMove offset e app = Returned tt app'
    /\ Quill.embedCount (documentOf app') = Quill.embedCount (Quill.contents q)
    /\ length (documentOf app') = length (Quill.contents q).
Proof.
  intros Hq Hsrc Hdata Hdrop.
  unfold dragMove, onDragStart, onDrop.
  step. rewrite Hsrc. cbn [fmap option_fmap option_map leaf].
  do 2 step. cbn [quillRef set_dragging]. rewrite Hq. cbn [missing].
  do 2 step. rewrite decide_False by done.
  set (k := dropIndexOf q e) in *.
  assert (Hins : Quill.insertEmbed k (dataTransfer e) (Quill.focus q)
                 = Ok (Quill.mk (Quill.insert_at k
                                   [mkNode (Image (Quill.nextBlot q) (dataTransfer e)) ∅]
                                   (Quill.contents q))
                         (Quill.selection q) true (Quill.cursor q)
                         (S (Quill.nextBlot q)))).
  { unfold Quill.insertEmbed, Quill.in_range.
    case_bool_decide as Hk; [done |].
    exfalso. apply Hk. rewrite Nat.add_0_r. exact Hdrop. }
  do 2 step. cbn [draggingState set_quill set_dragging draggedBlot].
  set (d' := Quill.insert_at k _ (Quill.contents q)) in *.
  set (q' := Quill.mk d' _ _ _ _) in *.
  assert (Hin : mkNode (Image blot src) a ∈ d').
  { apply elem_of_insert_at. by eapply list_elem_of_lookup_2. }
  destruct (index_of_elem blot d' _ Hin) as [j Hj].
  { unfold Quill.is_blot. simpl. by apply bool_decide_eq_true_2. }
  destruct (index_of_Some _ _ _ Hj) as (x & Hx & Hb).
  assert (Hget : Quill.getIndex blot q' = Ok j).
  { unfold Quill.getIndex. simpl. by rewrite Hj. }
  assert (Hdel : Quill.deleteText j 1 q'
                 = Ok (Quill.with_contents (take j d' ++ drop (j + 1) d') q')).
  { unfold Quill.deleteText, Quill.in_range.
    rewrite bool_decide_eq_true_2; [done |].
    apply lookup_lt_Some in Hx. unfold Quill.getLength. simpl. lia. }
  unfold try_. do 3 step.
  eexists. split; [reflexivity |]. unfold documentOf. simpl.
  pose proof (embedCount_delete j x d' Hx (is_blot_embed _ _ Hb)) as Hc.
  unfold d' in Hc at 3. rewrite embedCount_insert_image in Hc.
  split; [lia |].
  rewrite length_app, length_take, length_drop.
  apply lookup_lt_Some in Hx.
  assert (length d' = S (length (Quill.contents q))).
  { unfold d', Quill.insert_at. rewrite !length_app, length_take, length_drop.
    simpl. unfold Quill.getLength in Hdrop. lia. }
  lia.
Qed.
Lemma dragMove_preserves_embedCount_witness :
  let e := mkDrop "data:image/png;base64,AAAA" None in
  (exists app',
      dragMove 2 e (sampleDrag 4) = Returned tt app'
      /\ Quill.embedCount (documentOf app') = 1
      /\ length (documentOf app') = 4)
  /\ (exists app',
      dragMove 2 e (sampleDrag 0) = Returned tt app'
      /\ Quill.embedCount (documentOf app') = 1
      /\ length (documentOf app') = 4).
Proof.
  intros e. split.
  - apply (dragMove_preserves_embedCount (sampleDrag 4)
             (Quill.mk sampleDoc (Some (Range.mk 4 0)) true ∅ 1)
             2 0 "data:image/png;base64,AAAA" ∅ e);
      [reflexivity | reflexivity | discriminate | vm_compute; lia].
  - apply (dragMove_preserves_embedCount (sampleDrag 0)
             (Quill.mk sampleDoc (Some (Range.mk 0 0)) true ∅ 1)
             2 0 "data:image/png;base64,AAAA" ∅ e);
      [reflexivity | reflexivity | discriminate | vm_compute; lia].
Defined.

(** The drop behind the source and the drop before it, unit by unit. *)
Lemma dragMove_examples :
  let e := mkDrop "data:image/png;base64,AAAA" None in
  leaves (documentOf (final (dragMove 2 e (sampleDrag 4))))
  = [Char "a"; Char "b"; Char "c"; Image 1 "data:image/png;base64,AAAA"]
  /\ leaves (documentOf (final (dragMove 2 e (sampleDrag 0))))
     = [Image 1 "data:image/png;base64,AAAA"; Char "a"; Char "b"; Char "c"].
Proof. split; vm_compute; reflexivity. Qed.

(** Without a remembered embed object the drop inserts and deletes
    nothing else: the move degrades to a copy. *)
Lemma drop_without_source_copies :
  let e := mkDrop "data:image/png;base64,AAAA" None in
  Quill.embedCount (documentOf (final (onDrop e (sampleDrag 4)))) = 2.
Proof. vm_compute. reflexivity. Qed.

Lemma handleFormat_empty_selection_witness :
  exists msg app',
    handleFormat "bold" VUndefined (sampleApp sampleDoc 1 0) = Returned tt app'
    /\ app' = add_toast (mkToast Info msg) (sampleApp sampleDoc 1 0)
    /\ quillRef app' = Some (Quill.mk sampleDoc (Some (Range.mk 1 0)) true ∅ 0)
    /\ (Quill.getLength <$> quillRef app') = Some 4.
Proof.
  apply (handleFormat_empty_selection (sampleApp sampleDoc 1 0)
           (Quill.mk sampleDoc (Some (Range.mk 1 0)) true ∅ 0) "bold" VUndefined).
  - reflexivity.
  - reflexivity.
  - set_solver.
Defined.


(** ** Draft persistence *)

Lemma hasContent_false (d : Draft) : hasContent d = false <-> allEmpty d.
Proof.
  unfold hasContent, allEmpty, nonblank.
  rewrite !orb_false_iff, !negb_false_iff, !bool_decide_eq_true,
    !bool_decide_eq_false.
  destruct (tags d), (images d); simpl; intuition (try lia; try done).
Qed.

Lemma autosaveCallback_facts (quota : Draft -> bool) (d : Draft) (e : Env) :
  writes (autosaveCallback quota d e) = writes e ++ [mkWrite (now e) DRAFT_KEY d]
  /\ timers (autosaveCallback quota d e) = timers e
  /\ now (autosaveCallback quota d e) = now e
  /\ nextTimerId (autosaveCallback quota d e) = nextTimerId e.
Proof. unfold autosaveCallback, setItem. by destruct (quota d). Qed.

(** While no timer comes due, a tick only moves the clock. *)
Lemma tick_idle (quota : Draft -> bool) (e : Env) :
  Forall (fun x => S (now e) < due x) (timers e) ->
  tick quota e = later 1 e.
Proof.
  intros H. unfold tick, later.
  assert (E1 : filter (fun x => due x <= S (now e)) (timers e) = []).
  { induction H as [|x l Hx _ IH]; [done |].
    rewrite filter_cons_False by (simpl; lia). exact IH. }
  assert (E2 : filter (fun x => ~ due x <= S (now e)) (timers e) = timers e).
  { clear E1. induction H as [|x l Hx _ IH]; [done |].
    rewrite filter_cons_True by (simpl; lia). by rewrite IH. }
  rewrite E1, E2. simpl. f_equal. lia.
Qed.

Lemma later_later (n m : nat) (e : Env) : later n (later m e) = later (m + n) e.
Proof. unfold later. simpl. f_equal. lia. Qed.

Lemma later_0 (e : Env) : later 0 e = e.
Proof. destruct e. unfold later. simpl. f_equal. lia. Qed.

Lemma elapse_S (quota : Draft -> bool) (n : nat) (e : Env) :
  elapse quota (S n) e = elapse quota n (tick quota e).
Proof. unfold elapse. by rewrite Nat.iter_succ_r. Qed.

Lemma elapse_add (quota : Draft -> bool) (n m : nat) (e : Env) :
  elapse quota (n + m) e = elapse quota m (elapse quota n e).
Proof. unfold elapse. rewrite Nat.add_comm. apply Nat.iter_add. Qed.

Lemma elapse_idle (quota : Draft -> bool) (n : nat) (e : Env) :
  Forall (fun x => now e + n < due x) (timers e) ->
  elapse quota n e = later n e.
Proof.
  revert e. induction n as [|n IH]; intros e H.
  - by rewrite later_0.
  - rewrite elapse_S, tick_idle.
    + rewrite IH; [by rewrite later_later |].
      simpl. eapply Forall_impl; [exact H |]. simpl. intros; lia.
    + eapply Forall_impl; [exact H |]. simpl. intros; lia.
Qed.

(** A single pending timer runs at the tick that reaches its deadline. *)
Lemma tick_fire (quota : Draft -> bool) (e : Env) (i : nat) (d : Draft) :
  timers e = [mkTimer i (S (now e)) d] ->
  tick quota e
  = autosaveCallback quota d
      (mkEnv (S (now e)) [] (nextTimerId e) (writes e) (storage e) (notices e)).
Proof.
  intros H. unfold tick. rewrite H.
  rewrite (filter_cons_True (fun x => due x <= S (now e))) by (simpl; lia).
  rewrite (filter_cons_False (fun x => ~ due x <= S (now e)))
    by (simpl; intros HH; apply HH; lia).
  done.
Qed.

(** The callbacks that run at a tick only touch the log, the store and
    the notices. *)
Lemma callbacks_facts (quota : Draft -> bool) (l : list Timer) (e : Env) :
  let e' := foldl (fun acc x => autosaveCallback quota (captured x) acc) e l in
  timers e' = timers e
  /\ now e' = now e
  /\ writes e'
     = writes e ++ ((fun x => mkWrite (now e) DRAFT_KEY (captured x)) <$> l).
Proof.
  revert e. induction l as [|x l IH]; intros e; simpl.
  - by rewrite app_nil_r.
  - destruct (IH (autosaveCallback quota (captured x) e)) as (Ht & Hn & Hw).
    destruct (autosaveCallback_facts quota (captured x) e) as (Hw0 & Ht0 & Hn0 & _).
    rewrite Ht, Hn, Hw, Ht0, Hn0, Hw0. by rewrite <- app_assoc.
Qed.

Lemma timers_tick (quota : Draft -> bool) (e : Env) :
  timers (tick quota e) = filter (fun x => ~ due x <= S (now e)) (timers e).
Proof.
  unfold tick.
  by destruct (callbacks_facts quota
                 (filter (fun x => due x <= S (now e)) (timers e))
                 (mkEnv (S (now e))
                    (filter (fun x => ~ due x <= S (now e)) (timers e))
                    (nextTimerId e) (writes e) (storage e) (notices e)))
    as (-> & _).
Qed.

(** What a tick adds to the log: one write for every timer that has come
    due, with the draft that the timer captured. *)
Lemma writes_tick (quota : Draft -> bool) (e : Env) :
  writes (tick quota e)
  = writes e
    ++ ((fun x => mkWrite (S (now e)) DRAFT_KEY (captured x))
          <$> filter (fun x => due x <= S (now e)) (timers e)).
Proof.
  unfold tick.
  by destruct (callbacks_facts quota
                 (filter (fun x => due x <= S (now e)) (timers e))
                 (mkEnv (S (now e))
                    (filter (fun x => ~ due x <= S (now e)) (timers e))
                    (nextTimerId e) (writes e) (storage e) (notices e)))
    as (_ & _ & ->).
Qed.

(** *** The pending timer *)

Lemma render_onePending (delay : nat) (quota : Draft -> bool) (d : Draft) (h : Hook) :
  onePending h -> onePending (hookStep delay quota (Render d) h).
Proof.
  intros H. unfold onePending. simpl. unfold useAutoSaveDraft.
  set (e1 := match cleanup h with
             | Some i => clearTimeout i (env h)
             | None => env h
             end).
  assert (E1 : timers e1 = []).
  { unfold e1. destruct H as [H | (t & Ht & Hc)].
    - destruct (cleanup h); simpl; by rewrite H.
    - rewrite Hc. simpl. rewrite Ht.
      by rewrite filter_cons_False by (simpl; intros HH; by apply HH). }
  destruct (hasContent d); simpl; [| by left].
  right. rewrite E1. by eexists.
Qed.

Lemma tick_onePending (quota : Draft -> bool) (h : Hook) :
  onePending h -> onePending (mkHook (cleanup h) (tick quota (env h))).
Proof.
  intros H. unfold onePending. simpl. rewrite timers_tick.
  destruct H as [H | (t & Ht & Hc)].
  - left. by rewrite H.
  - rewrite Ht. destruct (decide (~ due t <= S (now (env h)))) as [Hd | Hd].
    + right. exists t. by rewrite filter_cons_True.
    + left. by rewrite filter_cons_False.
Qed.

Lemma render_guarded (delay : nat) (quota : Draft -> bool) (d : Draft) (h : Hook) :
  guarded h -> guarded (hookStep delay quota (Render d) h).
Proof.
  intros H. unfold guarded. simpl. unfold useAutoSaveDraft.
  set (e1 := match cleanup h with
             | Some i => clearTimeout i (env h)
             | None => env h
             end).
  assert (H1 : Forall (fun t => hasContent (captured t) = true) (timers e1)).
  { unfold e1. destruct (cleanup h); [| done]. simpl.
    apply Forall_forall. intros x [_ Hx]%list_elem_of_filter.
    by eapply Forall_forall in H. }
  destruct (hasContent d) eqn:Hd; simpl; [| done].
  apply Forall_app. split; [done |]. by repeat constructor.
Qed.

Lemma tick_guarded (quota : Draft -> bool) (h : Hook) :
  guarded h -> guarded (mkHook (cleanup h) (tick quota (env h))).
Proof.
  intros H. unfold guarded. simpl. rewrite timers_tick.
  apply Forall_forall. intros x [_ Hx]%list_elem_of_filter.
  by eapply Forall_forall in H.
Qed.

(** After a render with content exactly one timer is pending: the one
    of this render. *)
Lemma render_pending (delay : nat) (quota : Draft -> bool) (d : Draft) (h : Hook) :
  onePending h -> hasContent d = true ->
  exists i k,
    env (hookStep delay quota (Render d) h)
    = mkEnv (now (env h)) [mkTimer i (now (env h) + delay) d] k
            (writes (env h)) (storage (env h)) (notices (env h)).
Proof.
  intros H Hd. simpl. unfold useAutoSaveDraft. rewrite Hd. simpl.
  destruct H as [H | (t & Ht & Hc)].
  - destruct (cleanup h); simpl; rewrite H; by eexists _, _.
  - rewrite Hc. simpl. rewrite Ht.
    rewrite filter_cons_False by (simpl; intros HH; by apply HH).
    by eexists _, _.
Qed.

(** After a render of an all-empty draft none is pending. *)
Lemma render_blank (delay : nat) (quota : Draft -> bool) (d : Draft) (h : Hook) :
  onePending h -> hasContent d = false ->
  env (hookStep delay quota (Render d) h)
  = mkEnv (now (env h)) [] (nextTimerId (env h))
          (writes (env h)) (storage (env h)) (notices (env h)).
Proof.
  intros H Hd. simpl. unfold useAutoSaveDraft. rewrite Hd. simpl.
  destruct H as [H | (t & Ht & Hc)].
  - destruct (cleanup h); simpl.
    + unfold clearTimeout. by rewrite H.
    + destruct (env h); simpl in *. by subst.
  - rewrite Hc. simpl. unfold clearTimeout. rewrite Ht.
    by rewrite filter_cons_False by (simpl; intros HH; by apply HH).
Qed.

(** Whatever the draft, a render leaves the clock and the log alone, and
    what is pending afterwards is due a full delay later. *)
Lemma render_facts (delay : nat) (quota : Draft -> bool) (d : Draft) (h : Hook) :
  onePending h ->
  let e' := env (hookStep delay quota (Render d) h) in
  now e' = now (env h)
  /\ writes e' = writes (env h)
  /\ storage e' = storage (env h)
  /\ Forall (fun x => due x = now (env h) + delay) (timers e').
Proof.
  intros H e'. unfold e'. destruct (hasContent d) eqn:Hd.
  - destruct (render_pending delay quota d h H Hd) as (i & k & ->). simpl.
    by repeat constructor.
  - rewrite (render_blank delay quota d h H Hd). simpl. by repeat constructor.
Qed.

(** A single timer through a quiet period, whatever the log and the
    store hold. *)
Lemma single_timer_elapse (delay : nat) (quota : Draft -> bool) (e : Env)
    (i : nat) (d : Draft) :
  0 < delay ->
  timers e = [mkTimer i (now e + delay) d] ->
  (forall n, n < delay -> elapse quota n e = later n e)
  /\ elapse quota delay e
     = autosaveCallback quota d
         (mkEnv (now e + delay) [] (nextTimerId e) (writes e) (storage e)
                (notices e)).
Proof.
  intros Hdelay Ht. split.
  - intros n Hn. apply elapse_idle. rewrite Ht. repeat constructor. simpl. lia.
  - replace delay with ((delay - 1) + 1) at 1 by lia.
    rewrite elapse_add, (elapse_idle quota (delay - 1)).
    2:{ rewrite Ht. repeat constructor. simpl. lia. }
    change (elapse quota 1 ?e) with (tick quota e).
    rewrite (tick_fire quota _ i d).
    2:{ simpl. rewrite Ht. do 2 f_equal. lia. }
    simpl. do 2 f_equal. lia.
Qed.

(** *** The states of the component *)

Lemma idle_S (delay : nat) (quota : Draft -> bool) (n : nat) (s : Editing) :
  idle delay quota (S n) s = change delay quota Elapse (idle delay quota n s).
Proof. reflexivity. Qed.

Lemma idle_autosave (delay : nat) (quota : Draft -> bool) (n : nat) (s : Editing) :
  autosave (idle delay quota n s)
  = mkHook (cleanup (autosave s)) (elapse quota n (env (autosave s)))
  /\ draft (idle delay quota n s) = draft s.
Proof.
  induction n as [|n [IH1 IH2]].
  - by destruct s as [d [c e]].
  - rewrite idle_S. cbn [change autosave draft hookStep]. by rewrite IH1, IH2.
Qed.

Lemma persistImages_facts (quota : Draft -> bool) (d : Draft) (e : Env) :
  timers (persistImages quota d e) = timers e
  /\ now (persistImages quota d e) = now e
  /\ writes (persistImages quota d e) = writes e ++ [mkWrite (now e) DRAFT_KEY d].
Proof. unfold persistImages, setItem. by destruct (quota d). Qed.

(** What holds of the autosave hook in every state of the component. *)
Lemma editStep_inv (delay : nat) (quota : Draft -> bool) (s s' : Editing) :
  editStep delay quota s s' ->
  onePending (autosave s) /\ guarded (autosave s) ->
  onePending (autosave s') /\ guarded (autosave s').
Proof.
  intros [d b s0 _ | s0] [H1 H2].
  - pose proof (render_onePending delay quota d _ H1) as R1.
    pose proof (render_guarded delay quota d _ H2) as R2.
    unfold rerender. destruct b; cbn [autosave]; [| done].
    unfold onePending, guarded in *. cbn [cleanup env].
    by destruct (persistImages_facts quota d
                   (env (hookStep delay quota (Render d) (autosave s0)))) as (-> & _).
  - cbn [change autosave hookStep].
    split; [by apply tick_onePending | by apply tick_guarded].
Qed.

Lemma editReachable_inv (delay : nat) (quota : Draft -> bool) (s : Editing) :
  editReachable delay quota s ->
  onePending (autosave s) /\ guarded (autosave s).
Proof.
  unfold editReachable. intros H.
  apply (rtc_ind_r (R := editStep delay quota)
           (fun x => onePending (autosave x) /\ guarded (autosave x))
           (mount delay quota)); [| | exact H].
  - set (d := mkDraft EmptyString EmptyString [] []).
    assert (E : timers (env (hookStep delay quota (Render d) initHook)) = [])
      by reflexivity.
    unfold mount, rerender, onePending, guarded. cbn [autosave cleanup env].
    fold d.
    destruct (persistImages_facts quota d
                (env (hookStep delay quota (Render d) initHook))) as (-> & _).
    rewrite E. split; [by left | constructor].
  - intros y z _ Hstep IH. by eapply editStep_inv.
Qed.

Lemma editReachable_mount (delay : nat) (quota : Draft -> bool) :
  editReachable delay quota (mount delay quota).
Proof. apply rtc_refl. Qed.

Lemma editReachable_change (delay : nat) (quota : Draft -> bool) (c : Change)
    (s : Editing) :
  editReachable delay quota s -> editReachable delay quota (change delay quota c s).
Proof.
  intros H. eapply rtc_r; [exact H |].
  destruct c; cbn [change]; by constructor.
Qed.

Lemma editReachable_idle (delay : nat) (quota : Draft -> bool) (n : nat)
    (s : Editing) :
  editReachable delay quota s -> editReachable delay quota (idle delay quota n s).
Proof.
  intros H. induction n as [|n IH]; [done |].
  rewrite idle_S. by apply editReachable_change.
Qed.

(** *** The debounce *)

(** The second of two renders, and what follows while nothing renders:
    the log stays as it is until a full delay has passed, and from then
    on holds one more write, the draft of that render. *)
Lemma quiet_period (delay : nat) (quota : Draft -> bool) (s : Editing)
    (d : Draft) (n : nat) :
  onePending (autosave s) ->
  0 < delay ->
  hasContent d = true ->
  let e := env (autosave s) in
  writes (env (autosave (idle delay quota n (rerender delay quota d false s))))
  = if bool_decide (n < delay) then writes e
    else writes e ++ [mkWrite (now e + delay) DRAFT_KEY d].
Proof.
  intros H1 Hdelay Hd e.
  destruct (idle_autosave delay quota n (rerender delay quota d false s))
    as [-> _].
  cbn [rerender autosave env].
  destruct (render_pending delay quota d (autosave s) H1 Hd) as (i & k & E).
  fold e in E. rewrite E.
  destruct (single_timer_elapse delay quota
              (mkEnv (now e) [mkTimer i (now e + delay) d] k (writes e)
                 (storage e) (notices e)) i d Hdelay eq_refl) as [Hidle Hfire].
  cbn [now nextTimerId writes storage notices] in Hfire.
  case_bool_decide as Hn.
  - by rewrite Hidle.
  - replace n with (delay + (n - delay)) by lia.
    rewrite elapse_add, Hfire.
    destruct (autosaveCallback_facts quota d
                (mkEnv (now e + delay) [] k (writes e) (storage e) (notices e)))
      as (Hw & Ht & _).
    rewrite elapse_idle by (rewrite Ht; constructor).
    simpl. by rewrite Hw.
Qed.

(** A render of an all-empty draft, and what follows while nothing
    renders: the log stays as it is. *)
Lemma blank_period (delay : nat) (quota : Draft -> bool) (s : Editing)
    (d : Draft) (n : nat) :
  onePending (autosave s) ->
  hasContent d = false ->
  writes (env (autosave (idle delay quota n (rerender delay quota d false s))))
  = writes (env (autosave s)).
Proof.
  intros H1 Hd.
  destruct (idle_autosave delay quota n (rerender delay quota d false s))
    as [-> _].
  cbn [rerender autosave env].
  rewrite (render_blank delay quota d (autosave s) H1 Hd).
  by rewrite elapse_idle by constructor.
Qed.

(** C5, as the code has it: the component renders now and 10 units of
    time later, neither render with the image list set, and nothing
    renders afterwards.  Until the second render nothing is added to the
    log of writes.  When the draft of the second render has content,
    nothing is added until 40 units after the first render, and from
    then on the log holds exactly one more write, made 40 units after
    the first render with the draft of the second.  When that draft is
    empty in all four fields, nothing is added at all. *)
Theorem debounce_two_changes (quota : Draft -> bool) (s : Editing)
    (d0 d1 : Draft) :
  editReachable 30 quota s ->
  images d0 = images (draft s) ->
  images d1 = images d0 ->
  let e := env (autosave s) in
  (forall t, t <= 10 ->
     writes (env (autosave (idle 30 quota t (rerender 30 quota d0 false s))))
     = writes e)
  /\ (hasContent d1 = true ->
      (forall t, 10 <= t < 40 ->
         writes (env (autosave (twoRenders 30 quota t d0 d1 s))) = writes e)
      /\ (forall t, 40 <= t ->
            writes (env (autosave (twoRenders 30 quota t d0 d1 s)))
            = writes e ++ [mkWrite (now e + 40) DRAFT_KEY d1]))
  /\ (allEmpty d1 ->
      forall t, 10 <= t ->
        writes (env (autosave (twoRenders 30 quota t d0 d1 s))) = writes e).
Proof.
  intros Hr _ _ e.
  apply editReachable_inv in Hr as [H1 _].
  destruct (render_facts 30 quota d0 (autosave s) H1) as (Hn0 & Hw0 & _ & Hdue0).
  pose proof (render_onePending 30 quota d0 (autosave s) H1) as H0.
  set (s0 := rerender 30 quota d0 false s) in *.
  assert (Hs0 : autosave s0 = hookStep 30 quota (Render d0) (autosave s)) by done.
  assert (Hidle : forall t, t <= 10 ->
            env (autosave (idle 30 quota t s0)) = later t (env (autosave s0))).
  { intros t Ht. destruct (idle_autosave 30 quota t s0) as [-> _].
    cbn [env]. apply elapse_idle. rewrite Hs0.
    eapply Forall_impl; [exact Hdue0 |].
    intros x Hx. cbn beta in Hx. rewrite Hn0, Hx. lia. }
  set (s10 := idle 30 quota 10 s0).
  assert (H10 : onePending (autosave s10)).
  { unfold s10. destruct (idle_autosave 30 quota 10 s0) as [E _].
    rewrite E. rewrite elapse_idle.
    - unfold onePending in *. cbn [env cleanup later timers]. by rewrite <- Hs0 in H0.
    - rewrite Hs0. eapply Forall_impl; [exact Hdue0 |].
      intros x Hx. cbn beta in Hx. rewrite Hn0, Hx. lia. }
  assert (E10 : writes (env (autosave s10)) = writes e
                /\ now (env (autosave s10)) = now e + 10).
  { unfold s10. rewrite (Hidle 10) by lia. rewrite Hs0.
    unfold later. cbn [writes now]. by rewrite Hw0, Hn0. }
  destruct E10 as [Ew10 En10].
  split; [| split].
  - intros t Ht. rewrite (Hidle t Ht), Hs0. unfold later. cbn [writes]. exact Hw0.
  - intros Hd1.
    assert (Hrun : forall t, 10 <= t ->
              writes (env (autosave (twoRenders 30 quota t d0 d1 s)))
              = if bool_decide (t - 10 < 30) then writes e
                else writes e ++ [mkWrite (now e + 40) DRAFT_KEY d1]).
    { intros t Ht. unfold twoRenders. fold s0. fold s10.
      rewrite (quiet_period 30 quota s10 d1 (t - 10) H10) by (done || lia).
      rewrite Ew10, En10.
      by replace (now e + 10 + 30) with (now e + 40) by lia. }
    split.
    + intros t Ht. rewrite Hrun by lia. by rewrite bool_decide_eq_true_2 by lia.
    + intros t Ht. rewrite Hrun by lia. by rewrite bool_decide_eq_false_2 by lia.
  - intros Hd1 t Ht. apply hasContent_false in Hd1.
    unfold twoRenders. fold s0. fold s10.
    by rewrite (blank_period 30 quota s10 d1 (t - 10) H10 Hd1).
Qed.

Lemma debounce_two_changes_witness :
  let s := mount 30 acceptAll in
  let first := mkWrite 0 DRAFT_KEY (titled EmptyString) in
  writes (env (autosave s)) = [first]
  /\ writes (env (autosave (twoRenders 30 acceptAll 25 (titled "a") (titled "ab") s)))
     = [first]
  /\ writes (env (autosave (twoRenders 30 acceptAll 40 (titled "a") (titled "ab") s)))
     = [first; mkWrite 40 DRAFT_KEY (titled "ab")]
  /\ writes (env (autosave (twoRenders 30 acceptAll 75 (titled "a") (titled "ab") s)))
     = [first; mkWrite 40 DRAFT_KEY (titled "ab")].
Proof.
  intros s first.
  destruct (debounce_two_changes acceptAll s (titled "a") (titled "ab"))
    as (_ & Hcontent & _);
    [apply editReachable_mount | reflexivity | reflexivity |].
  destruct (Hcontent eq_refl) as [Hbefore Hafter].
  split; [reflexivity |].
  split; [apply Hbefore; lia |]. split; apply Hafter; lia.
Defined.

(** C5 fails as stated when the second change empties the draft: the
    pending timer is cleared, no new one is set, and nothing is written
    40 units after the first change or later. *)
Lemma debounce_two_changes_counterexample :
  let s0 := change 30 acceptAll (SetTitle "a") (mount 30 acceptAll) in
  let s10 := change 30 acceptAll (SetTitle EmptyString) (idle 30 acceptAll 10 s0) in
  hasContent (draft s0) = true
  /\ now (env (autosave s0)) = 0
  /\ now (env (autosave s10)) = 10
  /\ now (env (autosave (idle 30 acceptAll 30 s10))) = 40
  /\ writes (env (autosave (idle 30 acceptAll 30 s10)))
     = writes (env (autosave (mount 30 acceptAll)))
  /\ writes (env (autosave (idle 30 acceptAll 90 s10)))
     = writes (env (autosave (mount 30 acceptAll)))
  /\ mkWrite 40 DRAFT_KEY (draft s10)
     ∉ writes (env (autosave (idle 30 acceptAll 30 s10))).
Proof.
  repeat split; try (vm_compute; reflexivity).
  vm_compute. intros H. repeat (apply elem_of_cons in H as [H | H]; [discriminate |]).
  by apply elem_of_nil in H.
Qed.

(** Every render restarts the timer, also one that shows the same draft
    again: with a third render 20 units after the first, the write is
    made 50 units after the first and not 40. *)
Lemma render_without_change_restarts :
  let s10 := rerender 30 acceptAll (titled "ab") false
               (idle 30 acceptAll 10
                  (rerender 30 acceptAll (titled "a") false (mount 30 acceptAll))) in
  let s20 := rerender 30 acceptAll (draft s10) false (idle 30 acceptAll 10 s10) in
  time <$> writes (env (autosave (idle 30 acceptAll 20 s20))) = [0]
  /\ time <$> writes (env (autosave (idle 30 acceptAll 29 s20))) = [0]
  /\ writes (env (autosave (idle 30 acceptAll 30 s20)))
     = [mkWrite 0 DRAFT_KEY (titled EmptyString); mkWrite 50 DRAFT_KEY (titled "ab")].
Proof. repeat split; vm_compute; reflexivity. Qed.

(** *** The guard of the autosave hook *)

(** C7, for the writes of the timer: in every state of the component the
    pending callbacks hold drafts with content; what a unit of time adds
    to the log are writes of such drafts to the draft slot; and a render
    for which the image list was not set adds nothing to the log. *)
Theorem autosave_never_writes_empty (delay : nat) (quota : Draft -> bool)
    (s : Editing) :
  editReachable delay quota s ->
  Forall (fun t => ~ allEmpty (captured t)) (timers (env (autosave s)))
  /\ (exists ws,
        writes (env (autosave (change delay quota Elapse s)))
        = writes (env (autosave s)) ++ ws
        /\ Forall (fun w => key w = DRAFT_KEY /\ ~ allEmpty (payload w)) ws)
  /\ (forall d,
        writes (env (autosave (rerender delay quota d false s)))
        = writes (env (autosave s))).
Proof.
  intros Hr. apply editReachable_inv in Hr as [H1 H2].
  assert (Hg : forall l : list Timer,
            Forall (fun t => hasContent (captured t) = true) l ->
            Forall (fun t => ~ allEmpty (captured t)) l).
  { intros l Hl. eapply Forall_impl; [exact Hl |].
    simpl. intros t Ht He. apply hasContent_false in He. congruence. }
  split; [by apply Hg |]. split.
  - cbn [change autosave hookStep env]. rewrite writes_tick.
    eexists. split; [reflexivity |].
    apply Forall_fmap, Forall_forall.
    intros x [_ Hx]%list_elem_of_filter. simpl. split; [done |].
    intros He. apply hasContent_false in He.
    eapply Forall_forall in H2; [| exact Hx]. simpl in H2. congruence.
  - intros d. cbn [rerender autosave].
    by destruct (render_facts delay quota d (autosave s) H1) as (_ & -> & _).
Qed.

Lemma autosave_never_writes_empty_witness :
  let s := idle 30 acceptAll 29
             (change 30 acceptAll (SetTitle "a") (mount 30 acceptAll)) in
  timers (env (autosave s)) = [mkTimer 0 30 (titled "a")]
  /\ writes (env (autosave (change 30 acceptAll Elapse s)))
     = writes (env (autosave s)) ++ [mkWrite 30 DRAFT_KEY (titled "a")]
  /\ exists ws,
       writes (env (autosave (change 30 acceptAll Elapse s)))
       = writes (env (autosave s)) ++ ws
       /\ Forall (fun w => key w = DRAFT_KEY /\ ~ allEmpty (payload w)) ws.
Proof.
  intros s. split; [vm_compute; reflexivity |].
  split; [vm_compute; reflexivity |].
  apply (autosave_never_writes_empty 30 acceptAll s).
  apply editReachable_idle, editReachable_change, editReachable_mount.
Defined.

(** *** The immediate write on image changes *)

(** C6: setting the image list records a write of the full snapshot of
    that render, the new image list included, at once: no time passes and
    the write is stamped with the current time, while the debounce timer
    that the same render restarts for this snapshot only comes due a full
    delay later. *)
Theorem images_change_writes_immediately (delay : nat) (quota : Draft -> bool)
    (s : Editing) (imgs : list ImageRecord) :
  let s' := change delay quota (SetImages imgs) s in
  let e := env (autosave s) in
  let snapshot := mkDraft (title (draft s)) (content (draft s)) (tags (draft s)) imgs in
  draft s' = snapshot
  /\ writes (env (autosave s')) = writes e ++ [mkWrite (now e) DRAFT_KEY snapshot]
  /\ now (env (autosave s')) = now e
  /\ (quota snapshot = false ->
      storage (env (autosave s')) !! DRAFT_KEY = Some snapshot)
  /\ (hasContent snapshot = true ->
      exists i, mkTimer i (now e + delay) snapshot ∈ timers (env (autosave s'))).
Proof.
  intros s' e snapshot. unfold s', change, rerender. cbn [draft autosave].
  unfold hookStep, useAutoSaveDraft. fold e. fold snapshot.
  set (e1 := match cleanup (autosave s) with
             | Some i => clearTimeout i e
             | None => e
             end).
  assert (H1 : writes e1 = writes e /\ now e1 = now e).
  { unfold e1. by destruct (cleanup (autosave s)). }
  destruct H1 as (Hw1 & Hn1).
  unfold persistImages, setItem.
  destruct (hasContent snapshot); cbn [negb cleanup env];
    destruct (quota snapshot) eqn:Hq; cbn [snd];
    unfold stored, logged, setTimeout; simpl; rewrite ?Hw1, ?Hn1;
    (split; [done |]); (split; [done |]); (split; [done |]);
    (split; [try done; intros _; apply lookup_insert_eq |]);
    try done; intros _; eexists; apply elem_of_app; right; left.
Qed.

(** A title change at time 0 starts the debounce; an image appended at
    time 5 is written at time 5, while the timer it restarts runs to
    time 35. *)
Lemma images_change_mid_debounce :
  let img := mkImage 1 "cat.png" "data:image/png;base64,AAAA" None None in
  let s0 := mkEditing (titled EmptyString) initHook in
  let s1 := change 30 acceptAll (SetTitle "Draft") s0 in
  let s2 := Nat.iter 5 (change 30 acceptAll Elapse) s1 in
  let s3 := change 30 acceptAll (SetImages [img]) s2 in
  writes (env (autosave s2)) = []
  /\ writes (env (autosave s3)) = [mkWrite 5 DRAFT_KEY (mkDraft "Draft" EmptyString [] [img])]
  /\ due <$> timers (env (autosave s3)) = [35].
Proof. repeat split; vm_compute; reflexivity. Qed.

(** C7 fails as stated for the draft slot as a whole: the effect on the
    image list is not behind the guard of the autosave hook, and on the
    first render it writes the draft whose four fields are all empty. *)
Lemma mount_writes_empty_draft :
  let d := mkDraft EmptyString EmptyString [] [] in
  writes (env (autosave (mount 30 acceptAll))) = [mkWrite 0 DRAFT_KEY d]
  /\ storage (env (autosave (mount 30 acceptAll))) !! DRAFT_KEY = Some d
  /\ allEmpty d.
Proof. repeat split; vm_compute; reflexivity. Qed.

Lemma images_change_writes_immediately_witness :
  let img := mkImage 1 "cat.png" "data:image/png;base64,AAAA" None None in
  let s := Nat.iter 5 (change 30 acceptAll Elapse)
             (change 30 acceptAll (SetTitle "Draft")
                (mkEditing (titled EmptyString) initHook)) in
  let s' := change 30 acceptAll (SetImages [img]) s in
  writes (env (autosave s'))
  = [mkWrite 5 DRAFT_KEY (mkDraft "Draft" EmptyString [] [img])]
  /\ storage (env (autosave s')) !! DRAFT_KEY
     = Some (mkDraft "Draft" EmptyString [] [img])
  /\ exists i, mkTimer i 35 (mkDraft "Draft" EmptyString [] [img])
               ∈ timers (env (autosave s')).
Proof.
  intros img s s'.
  destruct (images_change_writes_immediately 30 acceptAll s [img])
    as (_ & Hw & _ & Hs & Ht).
  split; [exact Hw |]. split; [apply Hs; reflexivity |].
  apply Ht. reflexivity.
Defined.

(** ** The normaliser *)

(** *** Scanning on fuel *)

Lemma list_length_ind {A} (Q : list A -> Prop) :
  (forall s, (forall r, length r < length s -> Q r) -> Q s) -> forall s, Q s.
Proof.
  intros H s. remember (length s) as n eqn:E. revert s E.
  induction n as [n IH] using lt_wf_ind. intros s ->.
  apply H. intros r Hr. by apply (IH (length r)).
Qed.

Section ScanFacts.

Context {A : Type}.
Implicit Types (m : list A -> option (list A)) (s r rep : list A).

Lemma many_fuel_enough m n s :
  shrinking m -> length s <= n -> many_fuel m n s = many m s.
Proof.
  intros Hm. unfold many.
  assert (H : forall n1 n2 s, length s <= n1 -> length s <= n2 ->
                many_fuel m n1 s = many_fuel m n2 s).
  { clear n s. induction n1 as [|n1 IH]; intros n2 s H1 H2.
    - destruct s; [| simpl in H1; lia]. destruct n2; simpl; [done |].
      destruct (m []) as [r|] eqn:E; [| done].
      apply Hm in E. simpl in E. lia.
    - destruct n2 as [|n2].
      + destruct s; [| simpl in H2; lia]. simpl.
        destruct (m []) as [r|] eqn:E; [| done].
        apply Hm in E. simpl in E. lia.
      + simpl. destruct (m s) as [r|] eqn:E; [| done].
        apply Hm in E. apply IH; lia. }
  intros Hn. by apply H.
Qed.

Lemma many_eq m s :
  shrinking m ->
  many m s = match m s with
             | Some r => many m r
             | None => s
             end.
Proof.
  intros Hm. unfold many at 1. destruct s as [|c s].
  - simpl. destruct (m []) as [r|] eqn:E; [| done].
    apply Hm in E. simpl in E. lia.
  - simpl. destruct (m (c :: s)) as [r|] eqn:E; [| done].
    apply many_fuel_enough; [done |]. apply Hm in E. simpl in E. lia.
Qed.

Lemma many_None m s : m s = None -> many m s = s.
Proof. intros H. unfold many. destruct (length s); simpl; by rewrite ?H. Qed.

Lemma many_length m s : shrinking m -> length (many m s) <= length s.
Proof.
  intros Hm. induction s as [s IH] using list_length_ind.
  rewrite many_eq by done. destruct (m s) as [r|] eqn:E; [| done].
  apply Hm in E. specialize (IH r E). lia.
Qed.

Lemma many_stuck m s : shrinking m -> m (many m s) = None.
Proof.
  intros Hm. induction s as [s IH] using list_length_ind.
  rewrite many_eq by done. destruct (m s) as [r|] eqn:E; [| done].
  apply IH. by apply Hm.
Qed.

Lemma atLeast1_shrinking m : shrinking m -> shrinking (atLeast1 m).
Proof.
  intros Hm s r. unfold atLeast1. destruct (m s) as [r1|] eqn:E; [| done].
  intros [= <-]. apply Hm in E. pose proof (many_length m r1 Hm). lia.
Qed.

Lemma atLeast2_shrinking m : shrinking m -> shrinking (atLeast2 m).
Proof.
  intros Hm s r. unfold atLeast2. destruct (m s) as [r1|] eqn:E1; [| done].
  destruct (m r1) as [r2|] eqn:E2; [| done].
  intros [= <-]. apply Hm in E1, E2. pose proof (many_length m r2 Hm). lia.
Qed.

Lemma replaceAll_fuel_enough m rep n s :
  shrinking m -> length s <= n -> replaceAll_fuel m rep n s = replaceAll m rep s.
Proof.
  intros Hm. unfold replaceAll.
  assert (H : forall n1 n2 s, length s <= n1 -> length s <= n2 ->
                replaceAll_fuel m rep n1 s = replaceAll_fuel m rep n2 s).
  { clear n s. induction n1 as [|n1 IH]; intros n2 s H1 H2.
    - destruct s; [| simpl in H1; lia]. by destruct n2.
    - destruct n2 as [|n2].
      + destruct s; [done | simpl in H2; lia].
      + simpl. destruct s as [|c s]; [done |].
        destruct (m (c :: s)) as [r|] eqn:E.
        * apply Hm in E. simpl in *. f_equal. apply IH; lia.
        * simpl in *. f_equal. apply IH; lia. }
  intros Hn. by apply H.
Qed.

Lemma replaceAll_nil m rep : replaceAll m rep [] = [].
Proof. done. Qed.

Lemma replaceAll_match m rep s r :
  shrinking m -> m s = Some r -> replaceAll m rep s = rep ++ replaceAll m rep r.
Proof.
  intros Hm E. unfold replaceAll at 1. destruct s as [|c s].
  - apply Hm in E. simpl in E. lia.
  - cbn [replaceAll_fuel length]. rewrite E. f_equal.
    apply replaceAll_fuel_enough; try done. apply Hm in E. simpl in E. lia.
Qed.

Lemma replaceAll_skip m rep c s :
  shrinking m -> m (c :: s) = None ->
  replaceAll m rep (c :: s) = c :: replaceAll m rep s.
Proof.
  intros Hm E. unfold replaceAll at 1. cbn [replaceAll_fuel length].
  by rewrite E.
Qed.

End ScanFacts.
(** *** Characters and literals *)

Ltac by_cases c :=
  destruct c as [[] [] [] [] [] [] [] []]; vm_compute;
  try reflexivity; try discriminate; try (intros; discriminate);
  try (intros; reflexivity); try done.

Lemma upper_ws (a : ascii) : Js.is_ws (Re.upper a) = Js.is_ws a.
Proof. by_cases a. Qed.

Lemma upper_of_ws (c : ascii) : Js.is_ws c = true -> Re.upper c = c.
Proof. by_cases c. Qed.

Lemma upper_lt (a : ascii) : Re.upper a = "<"%char -> a = "<"%char.
Proof. by_cases a. Qed.

Lemma eqi_true (a c : ascii) : Re.eqi a c = true <-> Re.upper a = Re.upper c.
Proof. unfold Re.eqi. apply bool_decide_eq_true. Qed.

Lemma eqi_refl (a : ascii) : Re.eqi a a = true.
Proof. by apply eqi_true. Qed.

Lemma eqi_ws (a c : ascii) :
  Re.eqi a c = true -> Js.is_ws c = true -> Js.is_ws a = true.
Proof.
  intros H Hc. apply eqi_true in H. rewrite (upper_of_ws c Hc) in H.
  by rewrite <- upper_ws, H.
Qed.

Lemma eqi_lt_r (a c : ascii) : Re.eqi a c = true -> c = "<"%char -> a = "<"%char.
Proof. intros H ->. apply eqi_true in H. by apply upper_lt. Qed.

Lemma eqi_lt_l (c : ascii) : Re.eqi "<" c = true -> c = "<"%char.
Proof. intros H. apply eqi_true in H. symmetry in H. by apply upper_lt. Qed.

Lemma eqi_plain (a c : ascii) :
  plain a -> Re.eqi a c = true -> plain c.
Proof.
  intros [Hws Hlt] H. split.
  - destruct (Js.is_ws c) eqn:E; [| done].
    by rewrite (eqi_ws a c H E) in Hws.
  - intros ->. by apply Hlt, (eqi_lt_r a "<").
Qed.

Lemma lit_split (p s r : list ascii) :
  Re.lit p s = Some r ->
  exists w, s = w ++ r /\ Forall2 (fun a c => Re.eqi a c = true) p w.
Proof.
  revert s. induction p as [|a p IH]; intros s; simpl.
  - intros [= ->]. by exists [].
  - destruct s as [|c s]; [done |]. destruct (Re.eqi a c) eqn:E; [| done].
    intros H. destruct (IH _ H) as (w & -> & Hw). exists (c :: w).
    split; [done |]. by constructor.
Qed.

Lemma lit_length (p s r : list ascii) :
  Re.lit p s = Some r -> length s = length p + length r.
Proof.
  intros H. destruct (lit_split _ _ _ H) as (w & -> & Hw).
  rewrite length_app. by rewrite (Forall2_length _ _ _ Hw).
Qed.

Lemma lit_app (p s r b : list ascii) :
  Re.lit p s = Some r -> Re.lit p (s ++ b) = Some (r ++ b).
Proof.
  revert s. induction p as [|a p IH]; intros s; simpl.
  - by intros [= ->].
  - destruct s as [|c s]; [done |]. simpl. destruct (Re.eqi a c); [| done].
    apply IH.
Qed.

Lemma spaces_quiet_head (b : list ascii) (c : ascii) (b' : list ascii) :
  quiet b -> b = c :: b' -> Js.is_ws c = true \/ c = "<"%char.
Proof.
  intros Hq ->. unfold quiet, Re.spaces in Hq. simpl in Hq.
  destruct (Js.is_ws c); [by left | by right].
Qed.

(** A literal of plain characters that fails on [s] still fails when
    quiet input follows, provided [s] got past its first character. *)
Lemma lit_quiet (p s b : list ascii) :
  Forall plain p -> quiet b ->
  Re.lit p s = None -> Re.lit p (s ++ b) = None.
Proof.
  intros Hp Hb. revert s. induction Hp as [|a p Ha Hp IH]; intros s; simpl.
  - done.
  - destruct s as [|c s]; simpl.
    + intros _. destruct b as [|c b']; [done |].
      destruct (Re.eqi a c) eqn:E; [| done].
      destruct (eqi_plain a c Ha E) as [Hws Hlt].
      destruct (spaces_quiet_head _ c b' Hb eq_refl); congruence.
    + destruct (Re.eqi a c); [| done]. apply IH.
Qed.

Lemma spaces_length (s : list ascii) : length (Re.spaces s) <= length s.
Proof.
  unfold Re.spaces. induction s as [|c s IH]; simpl; [done |].
  destruct (Js.is_ws c); simpl; lia.
Qed.

Lemma spaces_split (s : list ascii) :
  exists w, s = w ++ Re.spaces s /\ Forall (fun c => Js.is_ws c = true) w.
Proof.
  unfold Re.spaces. induction s as [|c s (w & IH & Hw)]; simpl.
  - by exists [].
  - destruct (Js.is_ws c) eqn:E.
    + exists (c :: w). split; [by rewrite <- app_comm_cons, <- IH |].
      by constructor.
    + by exists [].
Qed.

Lemma spaces_head (s : list ascii) (c : ascii) (r : list ascii) :
  Re.spaces s = c :: r -> Js.is_ws c = false.
Proof.
  unfold Re.spaces. induction s as [|x s IH]; simpl; [done |].
  destruct (Js.is_ws x) eqn:E; [done |]. by intros [= <- _].
Qed.

Lemma spaces_idem (s : list ascii) : Re.spaces (Re.spaces s) = Re.spaces s.
Proof.
  destruct (Re.spaces s) as [|c r] eqn:E; [done |].
  apply spaces_head in E. unfold Re.spaces. simpl. by rewrite E.
Qed.

Lemma spaces_app (s b : list ascii) :
  Re.spaces s <> [] -> Re.spaces (s ++ b) = Re.spaces s ++ b.
Proof.
  unfold Re.spaces. induction s as [|c s IH]; simpl; [done |].
  destruct (Js.is_ws c); [exact IH | done].
Qed.

Lemma spaces_app_nil (s b : list ascii) :
  Re.spaces s = [] -> Re.spaces (s ++ b) = Re.spaces b.
Proof.
  unfold Re.spaces. induction s as [|c s IH]; simpl; [done |].
  destruct (Js.is_ws c); [exact IH | done].
Qed.
Lemma plain_chars :
  Forall plain (Js.chars "p>") /\ Forall plain (Js.chars "/p>")
  /\ Forall plain (Js.chars "br") /\ Forall plain (Js.chars "nbsp;")
  /\ Forall plain (Js.chars ">") /\ plain "/" /\ plain "&".
Proof. repeat split; repeat constructor; done. Qed.

Lemma Forall2_plain (p w : list ascii) :
  Forall plain p -> Forall2 (fun a c => Re.eqi a c = true) p w -> Forall plain w.
Proof.
  intros Hp H. induction H as [|a c p w E _ IH]; [done |].
  apply Forall_cons in Hp as [Ha Hp]. constructor; [| by apply IH].
  by apply (eqi_plain a c).
Qed.

Lemma ws_not_lt (w : list ascii) :
  Forall (fun c => Js.is_ws c = true) w -> Forall (fun x => x <> "<"%char) w.
Proof. intros H. eapply Forall_impl; [exact H |]. by intros x Hx ->. Qed.

Lemma plain_not_lt (w : list ascii) :
  Forall plain w -> Forall (fun x => x <> "<"%char) w.
Proof. intros H. eapply Forall_impl; [exact H |]. by intros x [_ Hx]. Qed.

(** What a literal that starts with the tag opener takes: the opener and
    then plain characters. *)
Lemma lit_tag_split (p s r : list ascii) :
  Forall plain p ->
  Re.lit ("<"%char :: p) s = Some r ->
  exists w, s = "<"%char :: w ++ r /\ Forall plain w /\ length w = length p.
Proof.
  intros Hp H. destruct (lit_split _ _ _ H) as (w & -> & Hw).
  apply Forall2_cons_inv_l in Hw as (c & w' & Hc & Hw' & ->).
  apply eqi_lt_l in Hc as ->. exists w'. split; [done |].
  split; [by eapply Forall2_plain |]. symmetry. by eapply Forall2_length.
Qed.

Lemma slash_split (s : list ascii) :
  exists w, s = w ++ Re.slash s /\ Forall plain w /\ (s <> [] -> w ++ Re.slash s <> []).
Proof.
  destruct s as [|c s]; simpl; [by exists [] |].
  destruct (decide (c = "/"%char)) as [-> |].
  - exists ["/"%char]. split; [done |]. split; [| done].
    repeat constructor; done.
  - by exists [].
Qed.

Lemma br_split (s r : list ascii) :
  Re.br s = Some r ->
  exists w, s = "<"%char :: w ++ r /\ Forall (fun x => x <> "<"%char) w.
Proof.
  unfold Re.br. destruct (Re.lit (Js.chars "<br") s) as [r1|] eqn:E1; [| done].
  intros E2.
  destruct plain_chars as (_ & _ & Hbr & _ & Hgt & _).
  destruct (lit_tag_split (Js.chars "br") s r1 Hbr E1) as (w1 & -> & Hw1 & _).
  destruct (spaces_split r1) as (w2 & Hr1 & Hw2).
  destruct (slash_split (Re.spaces r1)) as (w3 & Hr2 & Hw3 & _).
  destruct (lit_split _ _ _ E2) as (w4 & Hr3 & Hw4).
  exists (w1 ++ w2 ++ w3 ++ w4). split.
  - rewrite <- !app_assoc. do 2 f_equal.
    etrans; [exact Hr1 |]. f_equal. etrans; [exact Hr2 |]. f_equal. exact Hr3.
  - rewrite !Forall_app. split; [by apply plain_not_lt |].
    split; [by apply ws_not_lt |]. split; [by apply plain_not_lt |].
    apply plain_not_lt. exact (Forall2_plain _ _ Hgt Hw4).
Qed.

Lemma br_length (s r : list ascii) : Re.br s = Some r -> length r < length s.
Proof.
  intros H. destruct (br_split s r H) as (w & -> & _).
  simpl. rewrite length_app. lia.
Qed.

Lemma slash_app (s b : list ascii) : s <> [] -> Re.slash (s ++ b) = Re.slash s ++ b.
Proof. destruct s as [|c s]; [done |]. simpl. by destruct (decide _). Qed.

Lemma lit_nonempty (p s r : list ascii) :
  p <> [] -> Re.lit p s = Some r -> s <> [].
Proof. destruct p; [done |]. by destruct s. Qed.

Lemma br_app (s r b : list ascii) :
  Re.br s = Some r -> Re.br (s ++ b) = Some (r ++ b).
Proof.
  unfold Re.br. destruct (Re.lit (Js.chars "<br") s) as [r1|] eqn:E1; [| done].
  intros E2. rewrite (lit_app _ _ _ b E1).
  assert (H3 : Re.slash (Re.spaces r1) <> [])
    by (eapply lit_nonempty; [| exact E2]; done).
  assert (H2 : Re.spaces r1 <> []) by (intros E; by rewrite E in H3).
  rewrite spaces_app, slash_app by done. by apply lit_app.
Qed.

Lemma quiet_spaces (b : list ascii) : quiet b -> quiet (Re.spaces b).
Proof. unfold quiet. by rewrite spaces_idem. Qed.

Lemma quiet_not_gt (b : list ascii) :
  quiet b -> Re.lit (Js.chars ">") (Re.slash (Re.spaces b)) = None.
Proof.
  intros Hb. unfold quiet in Hb. destruct (Re.spaces b) as [|c r]; [done |].
  subst c. done.
Qed.

Lemma lit_gt_quiet (s b : list ascii) :
  quiet b -> Re.lit (Js.chars ">") s = None ->
  Re.lit (Js.chars ">") (s ++ b) = None.
Proof.
  intros Hb. apply lit_quiet; [| done]. repeat constructor; done.
Qed.

(** A break tag that is not complete in [s] is not completed by quiet
    input. *)
Lemma br_quiet (s b : list ascii) :
  quiet b -> s <> [] -> Re.br s = None -> Re.br (s ++ b) = None.
Proof.
  intros Hb Hs. unfold Re.br.
  destruct (Re.lit (Js.chars "<br") s) as [r1|] eqn:E1.
  - rewrite (lit_app _ _ _ b E1). intros E2.
    destruct (Re.spaces r1) as [|c x] eqn:Ex.
    + rewrite spaces_app_nil by done. by apply quiet_not_gt.
    + rewrite spaces_app by (by rewrite Ex). rewrite Ex.
      simpl in *. destruct (decide (c = "/"%char)) as [-> |].
      * by apply lit_gt_quiet.
      * by apply (lit_gt_quiet (c :: x)).
  - intros _. destruct s as [|c s]; [done |].
    change (Re.lit (Js.chars "<br") (c :: s))
      with (if Re.eqi "<" c then Re.lit (Js.chars "br") s else None) in E1.
    change (Re.lit (Js.chars "<br") ((c :: s) ++ b))
      with (if Re.eqi "<" c then Re.lit (Js.chars "br") (s ++ b) else None).
    destruct (Re.eqi "<" c); [| done].
    rewrite (lit_quiet (Js.chars "br") s b); [done | | done | done].
    repeat constructor; done.
Qed.
(** *** The lexer *)

Lemma lit_tag_quiet (p s b : list ascii) :
  Forall plain p -> quiet b -> s <> [] ->
  Re.lit ("<"%char :: p) s = None -> Re.lit ("<"%char :: p) (s ++ b) = None.
Proof.
  intros Hp Hb Hs. destruct s as [|c s]; [done |]. simpl.
  destruct (Re.eqi "<" c); [| done]. by apply lit_quiet.
Qed.

Lemma classify_split (s : list ascii) (k : Kind) (r : list ascii) :
  Lex.classify s = Some (k, r) ->
  exists c w, s = c :: w ++ r /\ Js.is_ws c = false
              /\ Forall (fun x => x <> "<"%char) w.
Proof.
  destruct plain_chars as (Hp & Hc & _ & Hn & _).
  unfold Lex.classify.
  destruct (Re.lit (Js.chars "<p>") s) as [r1|] eqn:E1.
  { intros [= <- <-].
    destruct (lit_tag_split _ _ _ Hp E1) as (w & -> & Hw & _).
    exists "<"%char, w. split; [done |]. split; [done |]. by apply plain_not_lt. }
  destruct (Re.lit (Js.chars "</p>") s) as [r2|] eqn:E2.
  { intros [= <- <-].
    destruct (lit_tag_split _ _ _ Hc E2) as (w & -> & Hw & _).
    exists "<"%char, w. split; [done |]. split; [done |]. by apply plain_not_lt. }
  destruct (Re.br s) as [r3|] eqn:E3.
  { intros [= <- <-]. destruct (br_split _ _ E3) as (w & -> & Hw).
    by exists "<"%char, w. }
  destruct (Re.lit (Js.chars "&nbsp;") s) as [r4|] eqn:E4; [| done].
  intros [= <- <-]. destruct (lit_split _ _ _ E4) as (w & -> & Hw).
  apply Forall2_cons_inv_l in Hw as (c & w' & Hc' & Hw' & ->).
  destruct plain_chars as (_ & _ & _ & _ & _ & _ & Hamp).
  destruct (eqi_plain _ _ Hamp Hc') as [Hws _].
  exists c, w'. split; [done |]. split; [done |].
  apply plain_not_lt. by eapply Forall2_plain.
Qed.

Lemma classify_quiet (s b : list ascii) :
  quiet b -> s <> [] ->
  Lex.classify (s ++ b)
  = match Lex.classify s with
    | Some (k, r) => Some (k, r ++ b)
    | None => None
    end.
Proof.
  intros Hb Hs. destruct plain_chars as (Hp & Hc & _ & Hn & _ & _ & Hamp).
  unfold Lex.classify.
  destruct (Re.lit (Js.chars "<p>") s) as [r1|] eqn:E1.
  { by rewrite (lit_app _ _ _ b E1). }
  assert (E1' : Re.lit (Js.chars "<p>") (s ++ b) = None)
    by exact (lit_tag_quiet (Js.chars "p>") s b Hp Hb Hs E1).
  rewrite E1'.
  destruct (Re.lit (Js.chars "</p>") s) as [r2|] eqn:E2.
  { by rewrite (lit_app _ _ _ b E2). }
  assert (E2' : Re.lit (Js.chars "</p>") (s ++ b) = None)
    by exact (lit_tag_quiet (Js.chars "/p>") s b Hc Hb Hs E2).
  rewrite E2'.
  destruct (Re.br s) as [r3|] eqn:E3.
  { by rewrite (br_app _ _ b E3). }
  rewrite (br_quiet s b) by done.
  destruct (Re.lit (Js.chars "&nbsp;") s) as [r4|] eqn:E4.
  { by rewrite (lit_app _ _ _ b E4). }
  rewrite (lit_quiet (Js.chars "&nbsp;") s b); [done | | done | done].
  by constructor.
Qed.

Lemma consumed_app (w r : list ascii) : Lex.consumed (w ++ r) r = w.
Proof.
  unfold Lex.consumed. rewrite length_app.
  replace (length w + length r - length r) with (length w) by lia.
  by rewrite take_app_length.
Qed.

Lemma next_split (s : list ascii) (t : Tok) (r : list ascii) :
  Lex.next s = Some (t, r) ->
  s = raw t ++ r
  /\ exists c w, raw t = c :: w /\ Forall (fun x => x <> "<"%char) w.
Proof.
  unfold Lex.next. destruct s as [|c s]; [done |].
  destruct (Js.is_ws c) eqn:Ews.
  { intros [= <- <-]. split; [done |]. by exists c, []. }
  destruct (Lex.classify (c :: s)) as [[k r']|] eqn:E.
  - intros [= <- <-]. destruct (classify_split _ _ _ E) as (c' & w & Hs & _ & Hw).
    rewrite Hs. rewrite (app_comm_cons w r' c'), consumed_app. simpl.
    split; [done |]. by exists c', w.
  - intros [= <- <-]. split; [done |]. by exists c, [].
Qed.

Lemma next_length (s : list ascii) (t : Tok) (r : list ascii) :
  Lex.next s = Some (t, r) -> length r < length s.
Proof.
  intros H. destruct (next_split s t r H) as (Hs & c & w & Hr & _).
  rewrite Hs, Hr. simpl. rewrite length_app. lia.
Qed.

Lemma next_nil : Lex.next [] = None.
Proof. done. Qed.

Lemma next_is_Some (s : list ascii) : s <> [] -> is_Some (Lex.next s).
Proof.
  destruct s as [|c s]; [done |]. intros _. unfold Lex.next.
  destruct (Js.is_ws c); [done |]. by destruct (Lex.classify _) as [[]|].
Qed.

Lemma lex_fuel_enough (n : nat) (s : list ascii) :
  length s <= n -> Lex.lex_fuel n s = Lex.lex s.
Proof.
  unfold Lex.lex.
  assert (H : forall n1 n2 s, length s <= n1 -> length s <= n2 ->
                Lex.lex_fuel n1 s = Lex.lex_fuel n2 s).
  { clear n s. induction n1 as [|n1 IH]; intros n2 s H1 H2.
    - destruct s; [| simpl in H1; lia]. by destruct n2.
    - destruct n2 as [|n2].
      + destruct s; [done | simpl in H2; lia].
      + simpl. destruct (Lex.next s) as [[t r]|] eqn:E; [| done].
        apply next_length in E. f_equal. apply IH; lia. }
  intros Hn. by apply H.
Qed.

Lemma lex_eq (s : list ascii) :
  Lex.lex s = match Lex.next s with
              | Some (t, r) => t :: Lex.lex r
              | None => []
              end.
Proof.
  unfold Lex.lex at 1. destruct s as [|c s]; [done |].
  cbn [length Lex.lex_fuel]. destruct (Lex.next (c :: s)) as [[t r]|] eqn:E;
    [| done].
  f_equal. apply lex_fuel_enough. apply next_length in E. simpl in E. lia.
Qed.

Lemma lex_nil : Lex.lex [] = [].
Proof. done. Qed.

Lemma unlex_cons (t : Tok) (ts : list Tok) :
  Lex.unlex (t :: ts) = raw t ++ Lex.unlex ts.
Proof. done. Qed.

Lemma unlex_app (a b : list Tok) : Lex.unlex (a ++ b) = Lex.unlex a ++ Lex.unlex b.
Proof. unfold Lex.unlex. by rewrite fmap_app, join_app. Qed.

Lemma unlex_lex (s : list ascii) : Lex.unlex (Lex.lex s) = s.
Proof.
  induction s as [s IH] using list_length_ind. rewrite lex_eq.
  destruct (Lex.next s) as [[t r]|] eqn:E.
  - destruct (next_split s t r E) as [Hs _]. rewrite unlex_cons, IH.
    + by rewrite <- Hs.
    + by eapply next_length.
  - destruct s; [done |]. by destruct (next_is_Some (a :: s)) as [? ?]; [| congruence].
Qed.

Lemma lex_inj (a b : list ascii) : Lex.lex a = Lex.lex b -> a = b.
Proof. intros H. by rewrite <- (unlex_lex a), <- (unlex_lex b), H. Qed.

Lemma next_quiet (s b : list ascii) :
  quiet b -> s <> [] ->
  Lex.next (s ++ b)
  = match Lex.next s with
    | Some (t, r) => Some (t, r ++ b)
    | None => None
    end.
Proof.
  intros Hb Hs. destruct s as [|c s]; [done |].
  pose proof (classify_quiet (c :: s) b Hb Hs) as Hc.
  unfold Lex.next. rewrite <- app_comm_cons. destruct (Js.is_ws c); [done |].
  rewrite app_comm_cons, Hc.
  destruct (Lex.classify (c :: s)) as [[k r]|] eqn:E; [| done].
  destruct (classify_split _ _ _ E) as (c' & w & Hs' & _).
  assert (Hcs : c :: s = (c' :: w) ++ r) by done.
  by rewrite Hcs, <- app_assoc, !consumed_app.
Qed.

(** Quiet input behind [s] does not change the tokens of [s]. *)
Lemma lex_app_quiet (s b : list ascii) :
  quiet b -> Lex.lex (s ++ b) = Lex.lex s ++ Lex.lex b.
Proof.
  intros Hb. induction s as [s IH] using list_length_ind.
  destruct s as [|c s]; [by rewrite lex_nil |].
  rewrite (lex_eq (c :: s)), (lex_eq ((c :: s) ++ b)), next_quiet by done.
  destruct (next_is_Some (c :: s)) as [[t r] E]; [done |]. rewrite E.
  simpl. f_equal. apply IH. by eapply next_length.
Qed.
(** *** Matchers on characters and on tokens *)

Lemma lit_clash (p q s r : list ascii) (i : nat) (a b : ascii) :
  Re.lit p s = Some r ->
  p !! i = Some a -> q !! i = Some b -> Re.upper a <> Re.upper b ->
  Re.lit q s = None.
Proof.
  revert q s i. induction p as [|x p IH]; intros q s i; [done |].
  destruct s as [|c s]; [done |]. simpl.
  destruct (Re.eqi x c) eqn:E; [| done]. intros Hr Ha Hb Hne.
  destruct q as [|y q]; [done |]. simpl.
  destruct (Re.eqi y c) eqn:E'; [| done].
  destruct i as [|i]; simpl in *.
  - injection Ha as ->. injection Hb as ->.
    apply eqi_true in E, E'. congruence.
  - by eapply IH.
Qed.

Lemma lit_head_not_ws (a : ascii) (p s r : list ascii) :
  Js.is_ws a = false -> Re.lit (a :: p) s = Some r ->
  exists c s', s = c :: s' /\ Js.is_ws c = false.
Proof.
  intros Ha. destruct s as [|c s]; [done |]. simpl.
  destruct (Re.eqi a c) eqn:E; [| done]. intros _. exists c, s.
  split; [done |]. destruct (Js.is_ws c) eqn:Ec; [| done].
  by rewrite (eqi_ws a c E Ec) in Ha.
Qed.

Lemma br_lit (s r : list ascii) :
  Re.br s = Some r -> exists r1, Re.lit (Js.chars "<br") s = Some r1.
Proof. unfold Re.br. destruct (Re.lit _ s); [by eexists | done]. Qed.

(** Which of the four tags or entities [classify] finds. *)
Lemma classify_open (s r : list ascii) :
  Lex.classify s = Some (KOpen, r) <-> Re.lit (Js.chars "<p>") s = Some r.
Proof.
  unfold Lex.classify. destruct (Re.lit (Js.chars "<p>") s); [naive_solver |].
  destruct (Re.lit (Js.chars "</p>") s); [naive_solver |].
  destruct (Re.br s); [naive_solver |].
  destruct (Re.lit (Js.chars "&nbsp;") s); naive_solver.
Qed.

Lemma classify_close (s r : list ascii) :
  Lex.classify s = Some (KClose, r) <-> Re.lit (Js.chars "</p>") s = Some r.
Proof.
  unfold Lex.classify. destruct (Re.lit (Js.chars "</p>") s) as [r2|] eqn:E2.
  - rewrite (lit_clash (Js.chars "</p>") (Js.chars "<p>") s r2 1 "/" "p");
      [naive_solver | done ..].
  - destruct (Re.lit (Js.chars "<p>") s); [naive_solver |].
    destruct (Re.br s); [naive_solver |].
    destruct (Re.lit (Js.chars "&nbsp;") s); naive_solver.
Qed.

Lemma classify_break (s r : list ascii) :
  Lex.classify s = Some (KBreak, r) <-> Re.br s = Some r.
Proof.
  unfold Lex.classify. destruct (Re.br s) as [r3|] eqn:E3.
  - destruct (br_lit _ _ E3) as [r1 E1].
    rewrite (lit_clash (Js.chars "<br") (Js.chars "<p>") s r1 1 "b" "p"),
      (lit_clash (Js.chars "<br") (Js.chars "</p>") s r1 1 "b" "/");
      [naive_solver | done ..].
  - destruct (Re.lit (Js.chars "<p>") s); [naive_solver |].
    destruct (Re.lit (Js.chars "</p>") s); [naive_solver |].
    destruct (Re.lit (Js.chars "&nbsp;") s); naive_solver.
Qed.

Lemma classify_nbsp (s r : list ascii) :
  Lex.classify s = Some (KNbsp, r) <-> Re.lit (Js.chars "&nbsp;") s = Some r.
Proof.
  unfold Lex.classify. destruct (Re.lit (Js.chars "&nbsp;") s) as [r4|] eqn:E4.
  - rewrite (lit_clash (Js.chars "&nbsp;") (Js.chars "<p>") s r4 0 "&" "<"),
      (lit_clash (Js.chars "&nbsp;") (Js.chars "</p>") s r4 0 "&" "<");
      [| done ..].
    unfold Re.br.
    rewrite (lit_clash (Js.chars "&nbsp;") (Js.chars "<br") s r4 0 "&" "<");
      [naive_solver | done ..].
  - destruct (Re.lit (Js.chars "<p>") s); [naive_solver |].
    destruct (Re.lit (Js.chars "</p>") s); [naive_solver |].
    destruct (Re.br s); naive_solver.
Qed.

Lemma classify_kinds (s : list ascii) (k : Kind) (r : list ascii) :
  Lex.classify s = Some (k, r) -> k <> KSpace /\ k <> KOther.
Proof.
  unfold Lex.classify.
  repeat (match goal with |- context [match ?x with _ => _ end] => destruct x end);
    naive_solver.
Qed.

Lemma classify_not_ws (s : list ascii) (k : Kind) (r : list ascii) :
  Lex.classify s = Some (k, r) ->
  exists c s', s = c :: s' /\ Js.is_ws c = false.
Proof.
  intros H. destruct (classify_split s k r H) as (c & w & -> & Hc & _).
  by exists c, (w ++ r).
Qed.

(** The first token has kind [k], one of the tags or the entity, exactly
    when the matcher of that kind matches at the head. *)
Lemma next_classify (s : list ascii) (k : Kind) (r : list ascii) :
  k <> KSpace -> k <> KOther ->
  (exists t, Lex.next s = Some (t, r) /\ kind t = k)
  <-> Lex.classify s = Some (k, r).
Proof.
  intros Hk1 Hk2. unfold Lex.next. split.
  - intros (t & H & Hk). destruct s as [|c s]; [done |].
    destruct (Js.is_ws c); [naive_solver |].
    destruct (Lex.classify (c :: s)) as [[k' r']|]; naive_solver.
  - intros H. destruct (classify_not_ws s k r H) as (c & s' & -> & Hc).
    rewrite Hc, H. by eexists.
Qed.

Lemma head_is_lex (s : list ascii) (k : Kind) :
  k <> KSpace -> k <> KOther ->
  Lex.head_is k (Lex.lex s)
  = match Lex.classify s with
    | Some (k', r) => if decide (k' = k) then Some (Lex.lex r) else None
    | None => None
    end.
Proof.
  intros Hk1 Hk2. rewrite lex_eq. unfold Lex.next.
  destruct s as [|c s]; [done |].
  destruct (Js.is_ws c) eqn:Ec.
  - simpl. rewrite decide_False by done.
    destruct (Lex.classify (c :: s)) as [[k' r]|] eqn:E; [| done].
    destruct (classify_not_ws _ _ _ E) as (? & ? & [= <- <-] & ?). congruence.
  - destruct (Lex.classify (c :: s)) as [[k' r]|] eqn:E; simpl.
    + done.
    + by rewrite decide_False.
Qed.

Lemma head_open (s : list ascii) :
  Lex.head_is KOpen (Lex.lex s) = Lex.lex <$> Re.lit (Js.chars "<p>") s.
Proof.
  rewrite head_is_lex by done.
  destruct (Re.lit (Js.chars "<p>") s) as [r|] eqn:E.
  - apply classify_open in E. rewrite E. by rewrite decide_True.
  - destruct (Lex.classify s) as [[k' r]|] eqn:E'; [| done].
    destruct (decide (k' = KOpen)) as [-> |]; [| done].
    apply classify_open in E'. congruence.
Qed.

Lemma head_close (s : list ascii) :
  Lex.head_is KClose (Lex.lex s) = Lex.lex <$> Re.lit (Js.chars "</p>") s.
Proof.
  rewrite head_is_lex by done.
  destruct (Re.lit (Js.chars "</p>") s) as [r|] eqn:E.
  - apply classify_close in E. rewrite E. by rewrite decide_True.
  - destruct (Lex.classify s) as [[k' r]|] eqn:E'; [| done].
    destruct (decide (k' = KClose)) as [-> |]; [| done].
    apply classify_close in E'. congruence.
Qed.

Lemma head_break (s : list ascii) :
  Lex.head_is KBreak (Lex.lex s) = Lex.lex <$> Re.br s.
Proof.
  rewrite head_is_lex by done.
  destruct (Re.br s) as [r|] eqn:E.
  - apply classify_break in E. rewrite E. by rewrite decide_True.
  - destruct (Lex.classify s) as [[k' r]|] eqn:E'; [| done].
    destruct (decide (k' = KBreak)) as [-> |]; [| done].
    apply classify_break in E'. congruence.
Qed.

Lemma head_nbsp (s : list ascii) :
  Lex.head_is KNbsp (Lex.lex s) = Lex.lex <$> Re.lit (Js.chars "&nbsp;") s.
Proof.
  rewrite head_is_lex by done.
  destruct (Re.lit (Js.chars "&nbsp;") s) as [r|] eqn:E.
  - apply classify_nbsp in E. rewrite E. by rewrite decide_True.
  - destruct (Lex.classify s) as [[k' r]|] eqn:E'; [| done].
    destruct (decide (k' = KNbsp)) as [-> |]; [| done].
    apply classify_nbsp in E'. congruence.
Qed.
Lemma lex_ws (c : ascii) (s : list ascii) :
  Js.is_ws c = true -> Lex.lex (c :: s) = mkTok KSpace [c] :: Lex.lex s.
Proof. intros H. rewrite lex_eq. unfold Lex.next. by rewrite H. Qed.

Lemma lex_not_ws (c : ascii) (s : list ascii) :
  Js.is_ws c = false ->
  exists t r, Lex.lex (c :: s) = t :: Lex.lex r /\ Lex.isSpace t = false.
Proof.
  intros H. rewrite lex_eq. unfold Lex.next. rewrite H.
  destruct (Lex.classify (c :: s)) as [[k r]|] eqn:E.
  - eexists _, _. split; [done |]. unfold Lex.isSpace. simpl.
    apply bool_decide_eq_false. by apply classify_kinds in E as [? _].
  - by eexists _, _.
Qed.

Lemma spaces_lex (s : list ascii) :
  Lex.spaces (Lex.lex s) = Lex.lex (Re.spaces s).
Proof.
  unfold Re.spaces. induction s as [|c s IH]; [done |]. simpl.
  destruct (Js.is_ws c) eqn:E.
  - rewrite lex_ws by done. simpl. exact IH.
  - destruct (lex_not_ws c s E) as (t & r & -> & Ht). simpl. by rewrite Ht.
Qed.

Lemma many_lex (m : list ascii -> option (list ascii))
    (tm : list Tok -> option (list Tok)) (s : list ascii) :
  shrinking m -> shrinking tm ->
  (forall x, tm (Lex.lex x) = Lex.lex <$> m x) ->
  many tm (Lex.lex s) = Lex.lex (many m s).
Proof.
  intros Hm Htm H. induction s as [s IH] using list_length_ind.
  rewrite (many_eq tm), (many_eq m), H by done.
  destruct (m s) as [r|] eqn:E; simpl; [| done]. apply IH. by apply Hm.
Qed.

Lemma atLeast1_lex (m : list ascii -> option (list ascii))
    (tm : list Tok -> option (list Tok)) (s : list ascii) :
  shrinking m -> shrinking tm ->
  (forall x, tm (Lex.lex x) = Lex.lex <$> m x) ->
  atLeast1 tm (Lex.lex s) = Lex.lex <$> atLeast1 m s.
Proof.
  intros Hm Htm H. unfold atLeast1. rewrite H.
  destruct (m s) as [r|]; simpl; [| done]. by rewrite (many_lex m).
Qed.

Lemma atLeast2_lex (m : list ascii -> option (list ascii))
    (tm : list Tok -> option (list Tok)) (s : list ascii) :
  shrinking m -> shrinking tm ->
  (forall x, tm (Lex.lex x) = Lex.lex <$> m x) ->
  atLeast2 tm (Lex.lex s) = Lex.lex <$> atLeast2 m s.
Proof.
  intros Hm Htm H. unfold atLeast2. rewrite H.
  destruct (m s) as [r|]; simpl; [| done]. rewrite H.
  destruct (m r) as [r'|]; simpl; [| done]. by rewrite (many_lex m).
Qed.

(** The matchers take something. *)
Lemma head_is_shrinking (k : Kind) : shrinking (Lex.head_is k).
Proof.
  intros [|t ts] r; simpl; [done |]. destruct (decide _); [| done].
  intros [= <-]. lia.
Qed.

Lemma tspaces_length (ts : list Tok) : length (Lex.spaces ts) <= length ts.
Proof.
  induction ts as [|t ts IH]; simpl; [done |].
  destruct (Lex.isSpace t); simpl; lia.
Qed.

Lemma tblank_shrinking : shrinking Lex.blank.
Proof.
  intros [|t ts] r; simpl; [done |]. destruct (Lex.isBlank t); [| done].
  intros [= <-]. lia.
Qed.

Lemma tpara_shrinking : shrinking Lex.para.
Proof.
  intros ts r. unfold Lex.para.
  destruct (Lex.head_is KOpen ts) as [r1|] eqn:E1; [| done]. intros E2.
  apply head_is_shrinking in E1, E2.
  pose proof (many_length Lex.blank r1 tblank_shrinking). lia.
Qed.

Lemma temptyPara_shrinking : shrinking Lex.emptyPara.
Proof.
  intros ts r. unfold Lex.emptyPara.
  destruct (Lex.head_is KOpen ts) as [r1|] eqn:E1; [| done].
  destruct (Lex.head_is KClose (Lex.spaces r1)) as [r2|] eqn:E2; [| done].
  intros [= <-]. apply head_is_shrinking in E1, E2.
  pose proof (tspaces_length r1). pose proof (tspaces_length r2). lia.
Qed.

Lemma tbreakSpace_shrinking : shrinking Lex.breakSpace.
Proof.
  intros ts r. unfold Lex.breakSpace.
  destruct (Lex.head_is KBreak ts) as [r1|] eqn:E1; [| done].
  intros [= <-]. apply head_is_shrinking in E1.
  pose proof (tspaces_length r1). lia.
Qed.

Lemma lit_shrinking (p : list ascii) : p <> [] -> shrinking (Re.lit p).
Proof.
  intros Hp s r H. apply lit_length in H. destruct p; [done |].
  simpl in H. lia.
Qed.

Lemma blank_shrinking : shrinking Re.blank.
Proof.
  intros [|c s] r; unfold Re.blank; [done |]. destruct (Js.is_ws c).
  { intros [= <-]. simpl. lia. }
  destruct (Re.lit (Js.chars "&nbsp;") (c :: s)) as [r'|] eqn:E.
  - intros [= <-]. apply lit_length in E. simpl in *. lia.
  - intros H. by apply br_length in H.
Qed.

Lemma para_shrinking : shrinking Re.para.
Proof.
  intros s r. unfold Re.para.
  destruct (Re.lit (Js.chars "<p>") s) as [r1|] eqn:E1; [| done]. intros E2.
  apply lit_length in E1, E2.
  pose proof (many_length Re.blank r1 blank_shrinking). simpl in *. lia.
Qed.

Lemma emptyPara_shrinking : shrinking Re.emptyPara.
Proof.
  intros s r. unfold Re.emptyPara.
  destruct (Re.lit (Js.chars "<p>") s) as [r1|] eqn:E1; [| done].
  destruct (Re.lit (Js.chars "</p>") (Re.spaces r1)) as [r2|] eqn:E2; [| done].
  intros [= <-]. apply lit_length in E1, E2.
  pose proof (spaces_length r1). pose proof (spaces_length r2). simpl in *. lia.
Qed.

Lemma breakSpace_shrinking : shrinking Re.breakSpace.
Proof.
  intros s r. unfold Re.breakSpace.
  destruct (Re.br s) as [r1|] eqn:E1; [| done].
  intros [= <-]. apply br_length in E1. pose proof (spaces_length r1). lia.
Qed.

Lemma blank_lex (s : list ascii) :
  Lex.blank (Lex.lex s) = Lex.lex <$> Re.blank s.
Proof.
  destruct s as [|c s]; [done |]. unfold Re.blank.
  destruct (Js.is_ws c) eqn:Ec.
  { by rewrite lex_ws. }
  rewrite lex_eq. unfold Lex.next. rewrite Ec.
  destruct (Lex.classify (c :: s)) as [[k r]|] eqn:E.
  - destruct k.
    + pose proof E as E'. apply classify_open in E'.
      destruct (Re.lit (Js.chars "&nbsp;") (c :: s)) as [r4|] eqn:E4.
      { apply classify_nbsp in E4. congruence. }
      destruct (Re.br (c :: s)) as [r3|] eqn:E3; [| done].
      apply classify_break in E3. congruence.
    + destruct (Re.lit (Js.chars "&nbsp;") (c :: s)) as [r4|] eqn:E4.
      { apply classify_nbsp in E4. congruence. }
      destruct (Re.br (c :: s)) as [r3|] eqn:E3; [| done].
      apply classify_break in E3. congruence.
    + destruct (Re.lit (Js.chars "&nbsp;") (c :: s)) as [r4|] eqn:E4.
      { apply classify_nbsp in E4. congruence. }
      apply classify_break in E. by rewrite E.
    + apply classify_nbsp in E. by rewrite E.
    + by apply classify_kinds in E as [? _].
    + by apply classify_kinds in E as [_ ?].
  - destruct (Re.lit (Js.chars "&nbsp;") (c :: s)) as [r4|] eqn:E4.
    { apply classify_nbsp in E4. congruence. }
    destruct (Re.br (c :: s)) as [r3|] eqn:E3; [| done].
    apply classify_break in E3. congruence.
Qed.

Ltac osimpl := cbn [fmap option_fmap option_map].

Lemma para_lex (s : list ascii) : Lex.para (Lex.lex s) = Lex.lex <$> Re.para s.
Proof.
  unfold Lex.para, Re.para. rewrite head_open.
  destruct (Re.lit (Js.chars "<p>") s) as [r|]; osimpl; [| done].
  rewrite (many_lex Re.blank), head_close;
    auto using blank_shrinking, tblank_shrinking, blank_lex.
Qed.

Lemma emptyPara_lex (s : list ascii) :
  Lex.emptyPara (Lex.lex s) = Lex.lex <$> Re.emptyPara s.
Proof.
  unfold Lex.emptyPara, Re.emptyPara. rewrite head_open.
  destruct (Re.lit (Js.chars "<p>") s) as [r|]; osimpl; [| done].
  rewrite spaces_lex, head_close.
  destruct (Re.lit (Js.chars "</p>") (Re.spaces r)) as [r'|]; osimpl; [| done].
  by rewrite spaces_lex.
Qed.

Lemma breakSpace_lex (s : list ascii) :
  Lex.breakSpace (Lex.lex s) = Lex.lex <$> Re.breakSpace s.
Proof.
  unfold Lex.breakSpace, Re.breakSpace. rewrite head_break.
  destruct (Re.br s) as [r|]; osimpl; [| done]. by rewrite spaces_lex.
Qed.

(** *** The steps of the normaliser, on tokens *)

Lemma lt_quiet (y : list ascii) : quiet ("<"%char :: y).
Proof. done. Qed.

Lemma ws_quiet (z : list ascii) :
  Forall (fun c => Js.is_ws c = true) z -> quiet z.
Proof.
  intros H. unfold quiet, Re.spaces.
  induction H as [|c z Hc _ IH]; simpl; [done | by rewrite Hc].
Qed.

Lemma split_lt (s : list ascii) :
  exists u b, s = u ++ b /\ Forall (fun x => x <> "<"%char) u
              /\ (b = [] \/ exists y, b = "<"%char :: y).
Proof.
  induction s as [|c s (u & b & -> & Hu & Hb)].
  - exists [], []. auto.
  - destruct (decide (c = "<"%char)) as [-> | Hc].
    + exists [], ("<"%char :: u ++ b). split_and!; eauto.
    + exists (c :: u), b. split_and!; auto.
Qed.

Lemma lex_cons_stable (w u b b' : list ascii) (t : Tok) :
  quiet b -> quiet b' ->
  Lex.lex (w ++ u ++ b) = t :: Lex.lex (u ++ b) ->
  Lex.lex (w ++ u ++ b') = t :: Lex.lex (u ++ b').
Proof.
  intros Hb Hb'.
  rewrite !app_assoc, !(lex_app_quiet _ b), !(lex_app_quiet _ b') by done.
  rewrite app_comm_cons. intros H%app_inv_tail. by rewrite H.
Qed.

Lemma lex_eq_nil (s : list ascii) : Lex.lex s = [] -> s = [].
Proof. intros H. by rewrite <- (unlex_lex s), H. Qed.

Section Squares.

Variables (m : list ascii -> option (list ascii))
          (tm : list Tok -> option (list Tok)).
Hypothesis m_shrinking : shrinking m.
Hypothesis tm_shrinking : shrinking tm.
Hypothesis m_at_lt : at_lt m.
Hypothesis square : forall x, tm (Lex.lex x) = Lex.lex <$> m x.

Lemma at_lt_None (c : ascii) (s : list ascii) :
  c <> "<"%char -> m (c :: s) = None.
Proof.
  intros Hc. destruct (m (c :: s)) as [r|] eqn:E; [| done].
  apply m_at_lt in E as [y [= -> _]]. done.
Qed.

Lemma replaceAll_prefix (rep u r : list ascii) :
  Forall (fun x => x <> "<"%char) u ->
  replaceAll m rep (u ++ r) = u ++ replaceAll m rep r.
Proof.
  induction 1 as [|c u Hc _ IH]; [done |]. simpl.
  rewrite replaceAll_skip by auto using at_lt_None. by rewrite IH.
Qed.

Lemma replaceAll_quiet (rep b : list ascii) :
  (exists y, rep = "<"%char :: y) ->
  b = [] \/ (exists y, b = "<"%char :: y) ->
  quiet (replaceAll m rep b).
Proof.
  intros [y0 ->] [-> | [y ->]]; [done |].
  destruct (m ("<"%char :: y)) as [r|] eqn:E.
  - by rewrite (replaceAll_match _ _ _ r).
  - by rewrite replaceAll_skip.
Qed.

Lemma replaceAll_lex (rep : list ascii) (trep : list Tok) (s : list ascii) :
  (exists y, rep = "<"%char :: y) ->
  (forall y, Lex.lex (rep ++ y) = trep ++ Lex.lex y) ->
  Lex.lex (replaceAll m rep s) = replaceAll tm trep (Lex.lex s).
Proof.
  intros Hrep Hlex. induction s as [s IH] using list_length_ind.
  destruct s as [|c s]; [done |].
  destruct (m (c :: s)) as [rest|] eqn:E.
  - rewrite (replaceAll_match m _ _ rest), (replaceAll_match tm _ _ (Lex.lex rest));
      [| done | by rewrite square, E | done ..].
    rewrite Hlex. f_equal. apply IH. by apply m_shrinking.
  - destruct (next_is_Some (c :: s)) as [[t r] En]; [done |].
    destruct (next_split _ _ _ En) as (Hs & c' & w & Hw & Hlt).
    rewrite Hw in Hs. injection Hs as <- Hs. subst s.
    pose proof (lex_eq (c :: w ++ r)) as Hl. rewrite En in Hl.
    rewrite Hl, (replaceAll_skip tm); [| done | by rewrite <- Hl, square, E].
    rewrite (replaceAll_skip m) by done.
    rewrite replaceAll_prefix by done.
    rewrite <- IH by (eapply next_length; exact En).
    destruct (split_lt r) as (u & b & -> & Hu & Hb).
    rewrite (replaceAll_prefix _ u) by done.
    apply (lex_cons_stable (c :: w) u b); [| by apply replaceAll_quiet |].
    + destruct Hb as [-> | [y ->]]; done.
    + exact Hl.
Qed.

Lemma stripLeading_lex (s : list ascii) :
  Lex.lex (stripLeading m s) = stripLeading tm (Lex.lex s).
Proof.
  unfold stripLeading. rewrite square. by destruct (m s).
Qed.

Lemma stripTrailing_prefix (u r : list ascii) :
  Forall (fun x => x <> "<"%char) u ->
  stripTrailing m (u ++ r) = u ++ stripTrailing m r.
Proof.
  induction 1 as [|c u Hc _ IH]; [done |]. simpl.
  by rewrite at_lt_None, IH.
Qed.

Lemma stripTrailing_split (s : list ascii) :
  exists z, s = stripTrailing m s ++ z /\ (z = [] \/ exists y, z = "<"%char :: y).
Proof.
  induction s as [|c s (z & Hz & Hq)]; [exists []; auto |]. simpl.
  destruct (m (c :: s)) as [[|c' r']|] eqn:E.
  - exists (c :: s). split; [done |]. right. by apply m_at_lt in E.
  - exists z. split; [simpl; by f_equal | done].
  - exists z. split; [simpl; by f_equal | done].
Qed.

Lemma stripTrailing_lex (s : list ascii) :
  Lex.lex (stripTrailing m s) = stripTrailing tm (Lex.lex s).
Proof.
  induction s as [s IH] using list_length_ind.
  destruct s as [|c s]; [done |].
  destruct (next_is_Some (c :: s)) as [[t r] En]; [done |].
  destruct (next_split _ _ _ En) as (Hs & c' & w & Hw & Hlt).
  rewrite Hw in Hs. injection Hs as <- Hs. subst s.
  pose proof (lex_eq (c :: w ++ r)) as Hl. rewrite En in Hl.
  rewrite Hl. cbn [stripTrailing]. rewrite <- Hl, square.
  destruct (m (c :: w ++ r)) as [rest|] eqn:E; cbn [fmap option_fmap option_map].
  - destruct rest as [|c1 rest].
    + by rewrite lex_nil.
    + destruct (Lex.lex (c1 :: rest)) as [|t1 ts1] eqn:E1.
      { by apply lex_eq_nil in E1. }
      rewrite stripTrailing_prefix by done.
      rewrite <- IH by (eapply next_length; exact En).
      destruct (stripTrailing_split r) as (z & Hz & Hq).
      assert (Hgoal : Lex.lex ((c :: w) ++ stripTrailing m r ++ [])
                      = t :: Lex.lex (stripTrailing m r ++ [])).
      { apply (lex_cons_stable (c :: w) _ z); [| done |].
        - destruct Hq as [-> | [y ->]]; done.
        - rewrite <- Hz. exact Hl. }
      by rewrite !app_nil_r in Hgoal.
  - rewrite stripTrailing_prefix by done.
    rewrite <- IH by (eapply next_length; exact En).
    destruct (stripTrailing_split r) as (z & Hz & Hq).
    assert (Hgoal : Lex.lex ((c :: w) ++ stripTrailing m r ++ [])
                    = t :: Lex.lex (stripTrailing m r ++ [])).
    { apply (lex_cons_stable (c :: w) _ z); [| done |].
      - destruct Hq as [-> | [y ->]]; done.
      - rewrite <- Hz. exact Hl. }
    by rewrite !app_nil_r in Hgoal.
Qed.

End Squares.

(** Trimming *)
Lemma trimEnd_split (s : list ascii) :
  exists z, s = Js.trimEnd s ++ z /\ Forall (fun c => Js.is_ws c = true) z.
Proof.
  induction s as [|c s (z & Hz & Hws)]; [by exists [] |]. simpl.
  destruct (Js.trimEnd s) as [|c' r'] eqn:E.
  - destruct (Js.is_ws c) eqn:Ec.
    + exists (c :: s). split; [done |]. simpl in Hz. subst z. by constructor.
    + exists z. by rewrite Hz at 1.
  - exists z. by rewrite Hz at 1.
Qed.

Lemma trimEnd_last (s : list ascii) :
  Js.trimEnd s = []
  \/ exists k c, Js.trimEnd s = k ++ [c] /\ Js.is_ws c = false.
Proof.
  induction s as [|c s IH]; [by left |]. simpl.
  destruct (Js.trimEnd s) as [|c' r'] eqn:E.
  - destruct (Js.is_ws c) eqn:Ec; [by left |]. right. by exists [], c.
  - right. destruct IH as [? | (k & c0 & -> & Hc0)]; [done |].
    by exists (c :: k), c0.
Qed.

Lemma tspacesEnd_spaces (a z : list Tok) :
  Forall (fun t => Lex.isSpace t = true) z ->
  Lex.spacesEnd (a ++ z) = Lex.spacesEnd a.
Proof.
  intros Hz. assert (Hnil : Lex.spacesEnd z = []).
  { induction Hz as [|t z Ht _ IH]; simpl; [done | by rewrite IH, Ht]. }
  induction a as [|t a IH]; simpl; [done | by rewrite IH].
Qed.

Lemma tspacesEnd_last (a : list Tok) (t : Tok) :
  Lex.isSpace t = false -> Lex.spacesEnd (a ++ [t]) = a ++ [t].
Proof.
  intros Ht. induction a as [|t' a IH]; simpl; [by rewrite Ht |].
  rewrite IH. by destruct a.
Qed.

Lemma lex_all_ws (z : list ascii) :
  Forall (fun c => Js.is_ws c = true) z ->
  Forall (fun t => Lex.isSpace t = true) (Lex.lex z).
Proof.
  induction 1 as [|c z Hc _ IH]; [by rewrite lex_nil |].
  rewrite lex_ws by done. by constructor.
Qed.

(** The raw text of a token: never empty, one white-space character for
    a space token. *)
Lemma lex_raw (s : list ascii) :
  Forall (fun t => raw t <> []
                   /\ (Lex.isSpace t = true ->
                       exists c, raw t = [c] /\ Js.is_ws c = true))
         (Lex.lex s).
Proof.
  induction s as [s IH] using list_length_ind.
  destruct s as [|c s]; [by rewrite lex_nil |].
  destruct (next_is_Some (c :: s)) as [[t r] En]; [done |].
  rewrite lex_eq, En. constructor; [| apply IH; by eapply next_length].
  destruct (next_split _ _ _ En) as (_ & c' & w & Hw & _).
  split; [by rewrite Hw |].
  unfold Lex.next in En. destruct (Js.is_ws c) eqn:Ec.
  - injection En as <- <-. by exists c.
  - destruct (Lex.classify (c :: s)) as [[k r']|] eqn:E.
    + injection En as <- <-. unfold Lex.isSpace. simpl.
      apply classify_kinds in E as [? _]. by rewrite bool_decide_eq_false_2.
    + by injection En as <- <-.
Qed.

Lemma lex_last (k : list ascii) (c : ascii) :
  Js.is_ws c = false ->
  exists a t, Lex.lex (k ++ [c]) = a ++ [t] /\ Lex.isSpace t = false.
Proof.
  intros Hc. remember (Lex.lex (k ++ [c])) as L eqn:E. symmetry in E.
  destruct L as [|x l _] using rev_ind.
  { apply lex_eq_nil in E. by destruct k. }
  exists l, x. split; [done |].
  pose proof (lex_raw (k ++ [c])) as Hraw. rewrite E in Hraw.
  apply Forall_app in Hraw as [_ Hx]. apply Forall_singleton in Hx as [Hne Hsp].
  destruct (Lex.isSpace x) eqn:Ex; [| done].
  destruct Hsp as (c0 & Hc0 & Hws); [done |].
  pose proof (unlex_lex (k ++ [c])) as Hu. rewrite E, unlex_app in Hu.
  unfold Lex.unlex at 2 in Hu. simpl in Hu. rewrite Hc0, app_nil_r in Hu.
  apply app_inj_tail in Hu as [_ ->]. congruence.
Qed.

Lemma spacesEnd_lex (s : list ascii) :
  Lex.spacesEnd (Lex.lex s) = Lex.lex (Js.trimEnd s).
Proof.
  destruct (trimEnd_split s) as (z & Hz & Hws).
  rewrite Hz at 1. rewrite lex_app_quiet by by apply ws_quiet.
  rewrite tspacesEnd_spaces by by apply lex_all_ws.
  destruct (trimEnd_last s) as [-> | (k & c & -> & Hc)]; [by rewrite lex_nil |].
  destruct (lex_last k c Hc) as (a & t & -> & Ht). by apply tspacesEnd_last.
Qed.

Lemma trim_lex (s : list ascii) : Lex.trim (Lex.lex s) = Lex.lex (Js.trim s).
Proof. unfold Lex.trim, Js.trim. by rewrite spaces_lex, spacesEnd_lex. Qed.

Lemma lit_at_lt (p : list ascii) : at_lt (Re.lit ("<"%char :: p)).
Proof.
  intros [|c s] r; simpl; [done |]. destruct (Re.eqi "<" c) eqn:E; [| done].
  apply eqi_lt_l in E as ->. by eexists.
Qed.

Lemma para_at_lt : at_lt Re.para.
Proof.
  intros s r. unfold Re.para.
  destruct (Re.lit (Js.chars "<p>") s) as [r1|] eqn:E; [| done].
  intros _. by apply (lit_at_lt (Js.chars "p>")) in E.
Qed.

Lemma emptyPara_at_lt : at_lt Re.emptyPara.
Proof.
  intros s r. unfold Re.emptyPara.
  destruct (Re.lit (Js.chars "<p>") s) as [r1|] eqn:E; [| done].
  intros _. by apply (lit_at_lt (Js.chars "p>")) in E.
Qed.

Lemma breakSpace_at_lt : at_lt Re.breakSpace.
Proof.
  intros s r. unfold Re.breakSpace, Re.br.
  destruct (Re.lit (Js.chars "<br") s) as [r1|] eqn:E; [| done].
  intros _. by apply (lit_at_lt (Js.chars "br")) in E.
Qed.

Lemma atLeast1_at_lt (m : list ascii -> option (list ascii)) :
  at_lt m -> at_lt (atLeast1 m).
Proof.
  intros Hm s r. unfold atLeast1. destruct (m s) as [r1|] eqn:E; [| done].
  intros _. by apply Hm in E.
Qed.

Lemma atLeast2_at_lt (m : list ascii -> option (list ascii)) :
  at_lt m -> at_lt (atLeast2 m).
Proof.
  intros Hm s r. unfold atLeast2. destruct (m s) as [r1|] eqn:E; [| done].
  intros _. by apply Hm in E.
Qed.

Lemma lex_P (y : list ascii) :
  Lex.lex (Js.chars "<p></p>" ++ y) = Lex.P ++ Lex.lex y.
Proof.
  rewrite lex_eq.
  change (Lex.next (Js.chars "<p></p>" ++ y))
    with (Some (mkTok KOpen (Lex.consumed
                               (Js.chars "<p>" ++ (Js.chars "</p>" ++ y))
                               (Js.chars "</p>" ++ y)),
                Js.chars "</p>" ++ y)).
  rewrite (consumed_app (Js.chars "<p>")), lex_eq.
  change (Lex.next (Js.chars "</p>" ++ y))
    with (Some (mkTok KClose (Lex.consumed (Js.chars "</p>" ++ y) y), y)).
  by rewrite (consumed_app (Js.chars "</p>")).
Qed.

Lemma lex_B (y : list ascii) :
  Lex.lex (Js.chars "<br/>" ++ y) = Lex.B ++ Lex.lex y.
Proof.
  rewrite lex_eq.
  change (Lex.next (Js.chars "<br/>" ++ y))
    with (Some (mkTok KBreak (Lex.consumed (Js.chars "<br/>" ++ y) y), y)).
  by rewrite (consumed_app (Js.chars "<br/>")).
Qed.

Lemma atLeast2_emptyPara_lex (x : list ascii) :
  atLeast2 Lex.emptyPara (Lex.lex x) = Lex.lex <$> atLeast2 Re.emptyPara x.
Proof.
  apply atLeast2_lex;
    auto using emptyPara_shrinking, temptyPara_shrinking, emptyPara_lex.
Qed.

Lemma atLeast1_emptyPara_lex (x : list ascii) :
  atLeast1 Lex.emptyPara (Lex.lex x) = Lex.lex <$> atLeast1 Re.emptyPara x.
Proof.
  apply atLeast1_lex;
    auto using emptyPara_shrinking, temptyPara_shrinking, emptyPara_lex.
Qed.

Lemma atLeast2_breakSpace_lex (x : list ascii) :
  atLeast2 Lex.breakSpace (Lex.lex x) = Lex.lex <$> atLeast2 Re.breakSpace x.
Proof.
  apply atLeast2_lex;
    auto using breakSpace_shrinking, tbreakSpace_shrinking, breakSpace_lex.
Qed.

Lemma paras_lex (s : list ascii) :
  Lex.lex (replaceAll Re.para (Js.chars "<p></p>") s)
  = replaceAll Lex.para Lex.P (Lex.lex s).
Proof.
  apply replaceAll_lex;
    auto using para_shrinking, tpara_shrinking, para_at_lt, para_lex, lex_P.
  by eexists.
Qed.

Lemma empties_lex (s : list ascii) :
  Lex.lex (replaceAll (atLeast2 Re.emptyPara) (Js.chars "<p></p>") s)
  = replaceAll (atLeast2 Lex.emptyPara) Lex.P (Lex.lex s).
Proof.
  apply replaceAll_lex;
    auto using atLeast2_shrinking, emptyPara_shrinking, temptyPara_shrinking,
      atLeast2_at_lt, emptyPara_at_lt, atLeast2_emptyPara_lex, lex_P.
  by eexists.
Qed.

Lemma leading_lex (s : list ascii) :
  Lex.lex (stripLeading (atLeast1 Re.emptyPara) s)
  = stripLeading (atLeast1 Lex.emptyPara) (Lex.lex s).
Proof. apply stripLeading_lex, atLeast1_emptyPara_lex. Qed.

Lemma trailing_lex (s : list ascii) :
  Lex.lex (stripTrailing (atLeast1 Re.emptyPara) s)
  = stripTrailing (atLeast1 Lex.emptyPara) (Lex.lex s).
Proof.
  apply stripTrailing_lex;
    auto using atLeast1_at_lt, emptyPara_at_lt, atLeast1_emptyPara_lex.
Qed.

Lemma breaks_lex (s : list ascii) :
  Lex.lex (replaceAll (atLeast2 Re.breakSpace) (Js.chars "<br/>") s)
  = replaceAll (atLeast2 Lex.breakSpace) Lex.B (Lex.lex s).
Proof.
  apply replaceAll_lex;
    auto using atLeast2_shrinking, breakSpace_shrinking, tbreakSpace_shrinking,
      atLeast2_at_lt, breakSpace_at_lt, atLeast2_breakSpace_lex, lex_B.
  by eexists.
Qed.

(** The normaliser is a function of the tokens. *)
Lemma cleanChars_lex (s : list ascii) :
  Lex.lex (cleanChars s) = Lex.clean (Lex.lex s).
Proof.
  unfold cleanChars, Lex.clean. cbv zeta.
  by rewrite <- trim_lex, breaks_lex, trailing_lex, leading_lex, empties_lex,
    paras_lex, <- trim_lex.
Qed.
(** *** Fixed points of the scanners *)

Section ScanFixed.

Context {A : Type}.
Implicit Types (m : list A -> option (list A)) (s r rep : list A).

Lemma nowhere_onlyAt m rep s : nowhere m s -> onlyAt m rep s.
Proof. intros H a b r Hs E. by rewrite (H a b Hs) in E. Qed.

Lemma onlyAt_suffix m rep a b : onlyAt m rep (a ++ b) -> onlyAt m rep b.
Proof. intros H a' b' r ->. apply (H (a ++ a')). by rewrite app_assoc. Qed.

Lemma nowhere_suffix m a b : nowhere m (a ++ b) -> nowhere m b.
Proof. intros H a' b' ->. apply (H (a ++ a')). by rewrite app_assoc. Qed.

Lemma noTrail_suffix m a b : noTrail m (a ++ b) -> noTrail m b.
Proof. intros H a' b' ->. apply (H (a ++ a')). by rewrite app_assoc. Qed.

Lemma replaceAll_id m rep s :
  shrinking m -> onlyAt m rep s -> replaceAll m rep s = s.
Proof.
  intros Hm. induction s as [s IH] using list_length_ind. intros H.
  destruct s as [|c s]; [done |].
  destruct (m (c :: s)) as [r|] eqn:E.
  - rewrite (replaceAll_match m rep _ r) by done.
    pose proof (H [] _ _ eq_refl E) as Hs. rewrite Hs in H |- *.
    f_equal. apply IH; [by apply Hm | by eapply onlyAt_suffix].
  - rewrite replaceAll_skip by done. f_equal.
    apply IH; [simpl; lia |]. by apply (onlyAt_suffix m rep [c]).
Qed.

Lemma replaceAll_eq_nil m rep s :
  shrinking m -> rep <> [] -> replaceAll m rep s = [] -> s = [].
Proof.
  intros Hm Hrep. destruct s as [|c s]; [done |].
  destruct (m (c :: s)) as [r|] eqn:E.
  - rewrite (replaceAll_match m rep _ r) by done. by destruct rep.
  - by rewrite replaceAll_skip.
Qed.

(** What comes behind a position of the output: the output for what
    comes behind a position of the input, or the end of a replacement
    followed by such an output. *)
Lemma replaceAll_suffixes m rep s a' b' :
  shrinking m -> cuts m ->
  replaceAll m rep s = a' ++ b' ->
  (exists a b, s = a ++ b /\ b' = replaceAll m rep b)
  \/ (exists a r rep1 rep2, s = a ++ r /\ rep = rep1 ++ rep2 /\ rep1 <> []
        /\ rep2 <> [] /\ b' = rep2 ++ replaceAll m rep r).
Proof.
  intros Hm Hcut. revert a'. induction s as [s IH] using list_length_ind.
  intros a' H. destruct a' as [|c' a'].
  { left. by exists [], s. }
  destruct s as [|c s]; [done |].
  destruct (m (c :: s)) as [r|] eqn:E.
  - rewrite (replaceAll_match m rep _ r) in H by done.
    destruct (Hcut _ _ E) as [a0 Ha0].
    assert (Hlen : length r < length (c :: s)) by by apply Hm.
    apply app_eq_app in H as [l [[H1 H2] | [H1 H2]]].
    + destruct l as [|x l].
      * rewrite app_nil_r in H1. simpl in H2. subst b'.
        left. by exists a0, r.
      * right. exists a0, r, (c' :: a'), (x :: l). by rewrite Ha0.
    + destruct (IH r Hlen _ H2) as
        [(a & b & -> & ->) | (a & r1 & rep1 & rep2 & -> & ? & ? & ? & ->)].
      * left. exists (a0 ++ a), b. by rewrite Ha0, app_assoc.
      * right. exists (a0 ++ a), r1, rep1, rep2. by rewrite Ha0, app_assoc.
  - rewrite replaceAll_skip in H by done. injection H as <- H.
    destruct (IH s ltac:(simpl; lia) _ H) as
      [(a & b & -> & ->) | (a & r1 & rep1 & rep2 & -> & ? & ? & ? & ->)].
    + left. by exists (c :: a), b.
    + right. by exists (c :: a), r1, rep1, rep2.
Qed.

Lemma stripTrailing_id m s : noTrail m s -> stripTrailing m s = s.
Proof.
  induction s as [|c s IH]; [done |]. intros H. simpl.
  rewrite IH by by apply (noTrail_suffix m [c]).
  destruct (m (c :: s)) as [[|??]|] eqn:E; try done.
  by destruct (H [] (c :: s)).
Qed.

(** [stripTrailing] cuts at the first position from which [m] reaches
    the end. *)
Lemma stripTrailing_spec m s :
  exists z, s = stripTrailing m s ++ z
            /\ (z = [] \/ m z = Some [])
            /\ forall a b, stripTrailing m s = a ++ b -> b <> [] ->
                           m (b ++ z) <> Some [].
Proof.
  induction s as [|c s (z & Hz & Hm & Hleft)].
  - exists []. split_and!; [done | by left |]. by intros [] [].
  - simpl. destruct (m (c :: s)) as [[|c1 r1]|] eqn:E.
    + exists (c :: s). split_and!; [done | by right |]. by intros [] [].
    + exists z. split_and!; [simpl; by f_equal | done |].
      intros [|c0 a] b Hab Hb.
      * simpl in Hab. subst b. simpl. rewrite <- Hz. congruence.
      * injection Hab as -> Hab. by apply (Hleft a).
    + exists z. split_and!; [simpl; by f_equal | done |].
      intros [|c0 a] b Hab Hb.
      * simpl in Hab. subst b. simpl. rewrite <- Hz. congruence.
      * injection Hab as -> Hab. by apply (Hleft a).
Qed.

End ScanFixed.
(** *** Matching on tokens *)

Lemma isSpace_kind (t : Tok) : Lex.isSpace t = true <-> kind t = KSpace.
Proof. unfold Lex.isSpace. by rewrite bool_decide_eq_true. Qed.

Lemma isSpace_blank (t : Tok) : Lex.isSpace t = true -> Lex.isBlank t = true.
Proof. unfold Lex.isSpace, Lex.isBlank. by intros ->. Qed.

Lemma isBlank_kind (t : Tok) :
  Lex.isBlank t = true <-> kind t = KSpace \/ kind t = KNbsp \/ kind t = KBreak.
Proof.
  unfold Lex.isBlank. rewrite !orb_true_iff, !bool_decide_eq_true. tauto.
Qed.

Lemma not_blank_kind (t : Tok) (k : Kind) :
  kind t = k -> k = KOpen \/ k = KClose \/ k = KOther -> Lex.isBlank t = false.
Proof.
  intros <- H. apply not_true_is_false. rewrite isBlank_kind.
  destruct (kind t); intuition congruence.
Qed.

Lemma head_is_Some (k : Kind) (ts r : list Tok) :
  Lex.head_is k ts = Some r <-> exists t, ts = t :: r /\ kind t = k.
Proof.
  destruct ts as [|t ts]; simpl.
  { split; [done | by intros (? & ? & _)]. }
  destruct (decide (kind t = k)) as [Hk | Hk].
  - split; [intros [= <-]; by exists t | by intros (? & [= <- <-] & _)].
  - split; [done | intros (? & [= <- <-] & ?); done].
Qed.

Lemma head_is_headKind (k : Kind) (ts : list Tok) :
  headKind ts <> Some k -> Lex.head_is k ts = None.
Proof.
  destruct ts as [|t ts]; simpl; [done |]. intros H.
  rewrite decide_False; [done |]. intros Hk. apply H. by rewrite <- Hk.
Qed.

Lemma head_is_cons (k : Kind) (t : Tok) (ts : list Tok) :
  kind t = k -> Lex.head_is k (t :: ts) = Some ts.
Proof. intros H. simpl. by rewrite decide_True. Qed.

Lemma head_is_app (k : Kind) (ts r z : list Tok) :
  Lex.head_is k ts = Some r -> Lex.head_is k (ts ++ z) = Some (r ++ z).
Proof.
  intros (t & -> & Hk)%head_is_Some. simpl. by rewrite decide_True.
Qed.

Lemma starts_cons (m : list Tok -> option (list Tok)) (k : Kind)
    (t : Tok) (ts : list Tok) :
  starts m k -> kind t <> k -> m (t :: ts) = None.
Proof.
  intros Hm Hk. destruct (m (t :: ts)) as [r|] eqn:E; [| done].
  apply Hm in E. injection E as E. done.
Qed.

Lemma starts_nil (m : list Tok -> option (list Tok)) (k : Kind) :
  starts m k -> m [] = None.
Proof. intros Hm. destruct (m []) as [r|] eqn:E; [by apply Hm in E | done]. Qed.

(** White space in front *)
Lemma tspaces_split (ts : list Tok) :
  exists sp, ts = sp ++ Lex.spaces ts /\ Forall (fun t => Lex.isSpace t = true) sp.
Proof.
  induction ts as [|t ts (sp & Hsp & Hall)]; [by exists [] |]. simpl.
  destruct (Lex.isSpace t) eqn:E; [| by exists []].
  exists (t :: sp). split; [simpl; by f_equal | by constructor].
Qed.

Lemma tspaces_noLead (ts : list Tok) : noLead (Lex.spaces ts).
Proof.
  unfold noLead. induction ts as [|t ts IH]; simpl; [done |].
  destruct (Lex.isSpace t) eqn:E; [done |]. simpl. by rewrite E.
Qed.

Lemma noLead_head (ts : list Tok) : noLead ts <-> headKind ts <> Some KSpace.
Proof.
  unfold noLead, headKind. destruct ts as [|t ts]; simpl; [done |].
  destruct (Lex.isSpace t) eqn:E.
  - apply isSpace_kind in E. rewrite E. split; [| done]. intros H.
    pose proof (tspaces_length ts) as Hl. rewrite H in Hl. simpl in Hl. lia.
  - split; [| done]. intros _ [= H]. apply isSpace_kind in H. congruence.
Qed.

Lemma noLead_prefix (a z : list Tok) : noLead (a ++ z) -> noLead a.
Proof. rewrite !noLead_head. by destruct a. Qed.

Lemma tspaces_app (ts z : list Tok) :
  Lex.spaces ts <> [] -> Lex.spaces (ts ++ z) = Lex.spaces ts ++ z.
Proof.
  induction ts as [|t ts IH]; simpl; [done |].
  destruct (Lex.isSpace t); [exact IH | done].
Qed.

Lemma tspaces_app_nil (ts z : list Tok) :
  Lex.spaces ts = [] -> Lex.spaces (ts ++ z) = Lex.spaces z.
Proof.
  induction ts as [|t ts IH]; simpl; [done |].
  destruct (Lex.isSpace t); [exact IH | done].
Qed.

Lemma tspaces_all (sp z : list Tok) :
  Forall (fun t => Lex.isSpace t = true) sp ->
  Lex.spaces (sp ++ z) = Lex.spaces z.
Proof. induction 1 as [|t sp Ht _ IH]; simpl; [done | by rewrite Ht]. Qed.

(** Blank tokens in front *)
Lemma many_blank_cons (t : Tok) (ts : list Tok) :
  many Lex.blank (t :: ts)
  = if Lex.isBlank t then many Lex.blank ts else t :: ts.
Proof.
  rewrite many_eq by apply tblank_shrinking. simpl. by destruct (Lex.isBlank t).
Qed.

Lemma many_blank_nil : many Lex.blank [] = [].
Proof. done. Qed.

Lemma many_blank_head (ts : list Tok) :
  Lex.blank ts = None -> many Lex.blank ts = ts.
Proof. apply many_None. Qed.

Lemma many_blank_spaces (ts : list Tok) :
  many Lex.blank (Lex.spaces ts) = many Lex.blank ts.
Proof.
  induction ts as [|t ts IH]; [done |]. simpl.
  destruct (Lex.isSpace t) eqn:E; [| done].
  by rewrite IH, many_blank_cons, (isSpace_blank t E).
Qed.

Lemma many_blank_app (ts z : list Tok) :
  many Lex.blank ts <> [] -> many Lex.blank (ts ++ z) = many Lex.blank ts ++ z.
Proof.
  induction ts as [|t ts IH]; [done |]. simpl. rewrite !many_blank_cons.
  destruct (Lex.isBlank t); [exact IH | done].
Qed.

(** The matchers, unfolded at the first token *)
Lemma para_cons (t : Tok) (ts : list Tok) :
  Lex.para (t :: ts)
  = if decide (kind t = KOpen) then Lex.head_is KClose (many Lex.blank ts)
    else None.
Proof. unfold Lex.para. simpl. by destruct (decide (kind t = KOpen)). Qed.

Lemma emptyPara_cons (t : Tok) (ts : list Tok) :
  Lex.emptyPara (t :: ts)
  = if decide (kind t = KOpen)
    then Lex.spaces <$> Lex.head_is KClose (Lex.spaces ts)
    else None.
Proof.
  unfold Lex.emptyPara. simpl. destruct (decide (kind t = KOpen)); [| done].
  by destruct (Lex.head_is KClose (Lex.spaces ts)).
Qed.

Lemma breakSpace_cons (t : Tok) (ts : list Tok) :
  Lex.breakSpace (t :: ts)
  = if decide (kind t = KBreak) then Some (Lex.spaces ts) else None.
Proof. unfold Lex.breakSpace. simpl. by destruct (decide (kind t = KBreak)). Qed.

Lemma para_starts : starts Lex.para KOpen.
Proof.
  intros [|t ts] r; [done |]. rewrite para_cons.
  destruct (decide (kind t = KOpen)) as [E|]; [| done]. intros _. unfold headKind. simpl. by rewrite E.
Qed.

Lemma emptyPara_starts : starts Lex.emptyPara KOpen.
Proof.
  intros [|t ts] r; [done |]. rewrite emptyPara_cons.
  destruct (decide (kind t = KOpen)) as [E|]; [| done]. intros _. unfold headKind. simpl. by rewrite E.
Qed.

Lemma breakSpace_starts : starts Lex.breakSpace KBreak.
Proof.
  intros [|t ts] r; [done |]. rewrite breakSpace_cons.
  destruct (decide (kind t = KBreak)) as [E|]; [| done]. intros _. unfold headKind. simpl. by rewrite E.
Qed.

Lemma atLeast1_starts (m : list Tok -> option (list Tok)) (k : Kind) :
  starts m k -> starts (atLeast1 m) k.
Proof.
  intros Hm s r. unfold atLeast1. destruct (m s) as [r1|] eqn:E; [| done].
  intros _. by apply Hm in E.
Qed.

Lemma atLeast2_starts (m : list Tok -> option (list Tok)) (k : Kind) :
  starts m k -> starts (atLeast2 m) k.
Proof.
  intros Hm s r. unfold atLeast2. destruct (m s) as [r1|] eqn:E; [| done].
  intros _. by apply Hm in E.
Qed.

(** The matchers return what is left of the input. *)
Lemma head_is_cuts (k : Kind) : cuts (Lex.head_is k).
Proof. intros ts r (t & -> & _)%head_is_Some. by exists [t]. Qed.

Lemma many_cuts {A} (m : list A -> option (list A)) (s : list A) :
  shrinking m -> cuts m -> exists a, s = a ++ many m s.
Proof.
  intros Hm Hc. induction s as [s IH] using list_length_ind.
  rewrite many_eq by done. destruct (m s) as [r|] eqn:E; [| by exists []].
  destruct (Hc _ _ E) as [a ->]. destruct (IH r) as [a' Ha']; [by apply Hm |].
  exists (a ++ a'). by rewrite <- app_assoc, <- Ha'.
Qed.

Lemma atLeast1_cuts {A} (m : list A -> option (list A)) :
  shrinking m -> cuts m -> cuts (atLeast1 m).
Proof.
  intros Hm Hc s r. unfold atLeast1. destruct (m s) as [r1|] eqn:E; [| done].
  intros [= <-]. destruct (Hc _ _ E) as [a ->].
  destruct (many_cuts m r1 Hm Hc) as [a' Ha']. exists (a ++ a').
  by rewrite <- app_assoc, <- Ha'.
Qed.

Lemma atLeast2_cuts {A} (m : list A -> option (list A)) :
  shrinking m -> cuts m -> cuts (atLeast2 m).
Proof.
  intros Hm Hc s r. unfold atLeast2. destruct (m s) as [r1|] eqn:E1; [| done].
  destruct (m r1) as [r2|] eqn:E2; [| done].
  intros [= <-]. destruct (Hc _ _ E1) as [a1 ->]. destruct (Hc _ _ E2) as [a2 ->].
  destruct (many_cuts m r2 Hm Hc) as [a' Ha']. exists (a1 ++ a2 ++ a').
  by rewrite <- !app_assoc, <- Ha'.
Qed.

Lemma tblank_cuts : cuts Lex.blank.
Proof.
  intros [|t ts] r; simpl; [done |]. destruct (Lex.isBlank t); [| done].
  intros [= <-]. by exists [t].
Qed.

Lemma tpara_cuts : cuts Lex.para.
Proof.
  intros ts r. unfold Lex.para.
  destruct (Lex.head_is KOpen ts) as [r1|] eqn:E1; [| done]. intros E2.
  destruct (head_is_cuts _ _ _ E1) as [a1 ->].
  destruct (head_is_cuts _ _ _ E2) as [a2 Ha2].
  destruct (many_cuts Lex.blank r1 tblank_shrinking tblank_cuts) as [a' Ha'].
  exists (a1 ++ a' ++ a2). by rewrite <- !app_assoc, <- Ha2, <- Ha'.
Qed.

Lemma temptyPara_cuts : cuts Lex.emptyPara.
Proof.
  intros ts r. unfold Lex.emptyPara.
  destruct (Lex.head_is KOpen ts) as [r1|] eqn:E1; [| done].
  destruct (Lex.head_is KClose (Lex.spaces r1)) as [r2|] eqn:E2; [| done].
  intros [= <-]. destruct (head_is_cuts _ _ _ E1) as [a1 ->].
  destruct (head_is_cuts _ _ _ E2) as [a2 Ha2].
  destruct (tspaces_split r1) as (sp1 & Hsp1 & _).
  destruct (tspaces_split r2) as (sp2 & Hsp2 & _).
  exists (a1 ++ sp1 ++ a2 ++ sp2).
  by rewrite <- !app_assoc, <- Hsp2, <- Ha2, <- Hsp1.
Qed.

Lemma tbreakSpace_cuts : cuts Lex.breakSpace.
Proof.
  intros ts r. unfold Lex.breakSpace.
  destruct (Lex.head_is KBreak ts) as [r1|] eqn:E1; [| done].
  intros [= <-]. destruct (head_is_cuts _ _ _ E1) as [a1 ->].
  destruct (tspaces_split r1) as (sp1 & Hsp1 & _).
  exists (a1 ++ sp1). by rewrite <- !app_assoc, <- Hsp1.
Qed.
(** *** A replacement step under the matchers

    A step [replaceAll m rep] whose matches start at a token of kind
    [k0] and whose replacement starts with such a token leaves the
    first token's kind alone, and can be moved out of the scans for
    white space and for blank tokens. *)
Section Commute.

Variables (m : list Tok -> option (list Tok)) (rep : list Tok) (k0 : Kind).
Hypothesis m_shrinking : shrinking m.
Hypothesis m_starts : starts m k0.
Hypothesis rep_head : headKind rep = Some k0.
Hypothesis m_blank :
  k0 = KOpen
  \/ (k0 = KBreak /\ (exists t0, rep = [t0])
      /\ forall x r, m x = Some r -> many Lex.blank x = many Lex.blank r).

Lemma headKind_cons (t : Tok) (x : list Tok) : headKind (t :: x) = Some (kind t).
Proof. done. Qed.

Lemma k0_not_space : k0 <> KSpace.
Proof. pose proof m_blank as [-> | [-> _]]; done. Qed.

Lemma k0_not_close : k0 <> KClose.
Proof. pose proof m_blank as [-> | [-> _]]; done. Qed.

Lemma replaceAll_other (t : Tok) (x : list Tok) :
  kind t <> k0 -> replaceAll m rep (t :: x) = t :: replaceAll m rep x.
Proof. intros H. apply replaceAll_skip; [done | by eapply starts_cons]. Qed.

Lemma replaceAll_headKind (x : list Tok) :
  headKind (replaceAll m rep x) = headKind x.
Proof.
  destruct x as [|t x]; [done |]. destruct (m (t :: x)) as [r|] eqn:E.
  - rewrite (replaceAll_match m rep _ r) by done. apply m_starts in E.
    rewrite E, <- rep_head. by destruct rep.
  - by rewrite replaceAll_skip.
Qed.

Lemma replaceAll_noLead (x : list Tok) : noLead x -> noLead (replaceAll m rep x).
Proof. rewrite !noLead_head. by rewrite replaceAll_headKind. Qed.

Lemma replaceAll_spaces (x : list Tok) :
  Lex.spaces (replaceAll m rep x) = replaceAll m rep (Lex.spaces x).
Proof.
  induction x as [|t x IH]; [done |]. simpl. destruct (Lex.isSpace t) eqn:E.
  - rewrite replaceAll_other.
    + simpl. by rewrite E.
    + apply isSpace_kind in E. rewrite E. intros H. by apply k0_not_space.
  - apply replaceAll_noLead. unfold noLead. simpl. by rewrite E.
Qed.

Lemma replaceAll_head_is (k : Kind) (x : list Tok) :
  k <> k0 ->
  Lex.head_is k (replaceAll m rep x) = replaceAll m rep <$> Lex.head_is k x.
Proof.
  intros Hk. destruct x as [|t x]; [done |].
  destruct (decide (kind t = k)) as [E | E].
  - rewrite replaceAll_other by congruence. simpl. by rewrite !decide_True.
  - simpl. rewrite decide_False by done. apply head_is_headKind.
    rewrite replaceAll_headKind, headKind_cons. congruence.
Qed.

Lemma not_blank_many (x : list Tok) :
  (forall k, headKind x = Some k -> k = KOpen \/ k = KClose \/ k = KOther) ->
  many Lex.blank x = x.
Proof.
  intros H. destruct x as [|t x]; [done |]. rewrite many_blank_cons.
  by rewrite (not_blank_kind t (kind t) eq_refl (H _ eq_refl)).
Qed.

Lemma replaceAll_blanks (x : list Tok) :
  many Lex.blank (replaceAll m rep x) = replaceAll m rep (many Lex.blank x).
Proof.
  induction x as [x IH] using list_length_ind.
  destruct x as [|t x]; [done |].
  destruct (m (t :: x)) as [r|] eqn:E.
  - pose proof (m_starts _ _ E) as Ht. rewrite headKind_cons in Ht.
    injection Ht as Ht.
    pose proof m_blank as Hb. pose proof rep_head as Hrep. revert Hrep.
    destruct Hb as [Hk0 | (Hk0 & [t0 Ht0] & Hbl)]; intros Hrep.
    + rewrite (not_blank_many (t :: x)), not_blank_many; [done | |].
      * intros k. rewrite replaceAll_headKind, headKind_cons, Ht, Hk0.
        intros [= <-]. by left.
      * intros k. rewrite headKind_cons, Ht, Hk0. intros [= <-]. by left.
    + rewrite (replaceAll_match m _ _ r) by done.
      rewrite (Hbl _ _ E), Ht0. simpl. rewrite many_blank_cons.
      rewrite Ht0, headKind_cons, Hk0 in Hrep. injection Hrep as Hk.
      assert (Lex.isBlank t0 = true) as -> by (apply isBlank_kind; auto).
      rewrite <- Ht0. apply IH. by apply m_shrinking.
  - rewrite replaceAll_skip by done. rewrite !many_blank_cons.
    destruct (Lex.isBlank t).
    + apply IH. simpl. lia.
    + by rewrite replaceAll_skip.
Qed.

Lemma para_replaceAll_tail (t : Tok) (x : list Tok) :
  Lex.para (t :: replaceAll m rep x) = replaceAll m rep <$> Lex.para (t :: x).
Proof.
  rewrite !para_cons. destruct (decide (kind t = KOpen)); [| done].
  rewrite replaceAll_blanks. apply replaceAll_head_is.
  intros H. by apply k0_not_close.
Qed.

Lemma emptyPara_replaceAll_tail (t : Tok) (x : list Tok) :
  Lex.emptyPara (t :: replaceAll m rep x)
  = replaceAll m rep <$> Lex.emptyPara (t :: x).
Proof.
  rewrite !emptyPara_cons. destruct (decide (kind t = KOpen)); [| done].
  rewrite replaceAll_spaces, (replaceAll_head_is KClose).
  - destruct (Lex.head_is KClose (Lex.spaces x)); [| done]. simpl.
    by rewrite replaceAll_spaces.
  - intros H. by apply k0_not_close.
Qed.

(** A step that does not touch the opening tags commutes with the
    matchers for paragraphs. *)
Hypothesis k0_not_open : k0 <> KOpen.

Lemma para_replaceAll (x : list Tok) :
  Lex.para (replaceAll m rep x) = replaceAll m rep <$> Lex.para x.
Proof.
  destruct x as [|t x]; [done |]. destruct (decide (kind t = k0)) as [E | E].
  - rewrite (para_cons t), decide_False by congruence.
    unfold Lex.para. rewrite head_is_headKind; [done |].
    rewrite replaceAll_headKind, headKind_cons. congruence.
  - rewrite replaceAll_other by done. apply para_replaceAll_tail.
Qed.

Lemma emptyPara_replaceAll (x : list Tok) :
  Lex.emptyPara (replaceAll m rep x) = replaceAll m rep <$> Lex.emptyPara x.
Proof.
  destruct x as [|t x]; [done |]. destruct (decide (kind t = k0)) as [E | E].
  - rewrite (emptyPara_cons t), decide_False by congruence.
    unfold Lex.emptyPara. rewrite head_is_headKind; [done |].
    rewrite replaceAll_headKind, headKind_cons. congruence.
  - rewrite replaceAll_other by done. apply emptyPara_replaceAll_tail.
Qed.

Lemma many_emptyPara_replaceAll (x : list Tok) :
  many Lex.emptyPara (replaceAll m rep x)
  = replaceAll m rep (many Lex.emptyPara x).
Proof.
  induction x as [x IH] using list_length_ind.
  rewrite (many_eq Lex.emptyPara x), many_eq, emptyPara_replaceAll
    by apply temptyPara_shrinking.
  destruct (Lex.emptyPara x) as [r|] eqn:E; [| done]. simpl.
  apply IH. by apply temptyPara_shrinking.
Qed.

Lemma atLeast1_emptyPara_replaceAll (x : list Tok) :
  atLeast1 Lex.emptyPara (replaceAll m rep x)
  = replaceAll m rep <$> atLeast1 Lex.emptyPara x.
Proof.
  unfold atLeast1. rewrite emptyPara_replaceAll.
  destruct (Lex.emptyPara x) as [r|]; [| done]. simpl.
  by rewrite many_emptyPara_replaceAll.
Qed.

Lemma atLeast2_emptyPara_replaceAll (x : list Tok) :
  atLeast2 Lex.emptyPara (replaceAll m rep x)
  = replaceAll m rep <$> atLeast2 Lex.emptyPara x.
Proof.
  unfold atLeast2. rewrite emptyPara_replaceAll.
  destruct (Lex.emptyPara x) as [r|]; [| done]. simpl.
  rewrite emptyPara_replaceAll.
  destruct (Lex.emptyPara r) as [r'|]; [| done]. simpl.
  by rewrite many_emptyPara_replaceAll.
Qed.

End Commute.
(** *** The three replacements *)

Lemma tbreakSpace_blanks (x r : list Tok) :
  Lex.breakSpace x = Some r -> many Lex.blank x = many Lex.blank r.
Proof.
  destruct x as [|t x]; [done |]. rewrite breakSpace_cons.
  destruct (decide (kind t = KBreak)) as [E|]; [| done]. intros [= <-].
  rewrite many_blank_cons, many_blank_spaces.
  assert (Lex.isBlank t = true) as -> by (apply isBlank_kind; auto). done.
Qed.

Lemma many_breakSpace_blanks (x : list Tok) :
  many Lex.blank (many Lex.breakSpace x) = many Lex.blank x.
Proof.
  induction x as [x IH] using list_length_ind.
  rewrite (many_eq Lex.breakSpace) by apply tbreakSpace_shrinking.
  destruct (Lex.breakSpace x) as [r|] eqn:E; [| done].
  rewrite IH by by apply tbreakSpace_shrinking.
  symmetry. by apply tbreakSpace_blanks.
Qed.

Lemma breaks_blanks (x r : list Tok) :
  atLeast2 Lex.breakSpace x = Some r -> many Lex.blank x = many Lex.blank r.
Proof.
  unfold atLeast2. destruct (Lex.breakSpace x) as [r1|] eqn:E1; [| done].
  destruct (Lex.breakSpace r1) as [r2|] eqn:E2; [| done]. intros [= <-].
  by rewrite many_breakSpace_blanks, (tbreakSpace_blanks _ _ E1),
    (tbreakSpace_blanks _ _ E2).
Qed.

(** What is left behind a run of matches *)
Lemma temptyPara_noLead (x r : list Tok) : Lex.emptyPara x = Some r -> noLead r.
Proof.
  destruct x as [|t x]; [done |]. rewrite emptyPara_cons.
  destruct (decide _); [| done].
  destruct (Lex.head_is KClose (Lex.spaces x)); [| done].
  intros [= <-]. apply tspaces_noLead.
Qed.

Lemma tbreakSpace_noLead (x r : list Tok) : Lex.breakSpace x = Some r -> noLead r.
Proof.
  destruct x as [|t x]; [done |]. rewrite breakSpace_cons.
  destruct (decide _); [| done]. intros [= <-]. apply tspaces_noLead.
Qed.

Lemma many_noLead (m : list Tok -> option (list Tok)) (x : list Tok) :
  shrinking m -> (forall y r, m y = Some r -> noLead r) ->
  noLead x -> noLead (many m x).
Proof.
  intros Hm Hout. induction x as [x IH] using list_length_ind. intros Hx.
  rewrite many_eq by done. destruct (m x) as [r|] eqn:E; [| done].
  apply IH; [by apply Hm | by eapply Hout].
Qed.

Lemma atLeast1_out (m : list Tok -> option (list Tok)) (x r : list Tok) :
  shrinking m -> (forall y r, m y = Some r -> noLead r) ->
  atLeast1 m x = Some r -> m r = None /\ noLead r.
Proof.
  intros Hm Hout. unfold atLeast1.
  destruct (m x) as [r1|] eqn:E1; [| done]. intros [= <-].
  split; [by apply many_stuck |]. apply many_noLead; eauto.
Qed.

Lemma atLeast2_out (m : list Tok -> option (list Tok)) (x r : list Tok) :
  shrinking m -> (forall y r, m y = Some r -> noLead r) ->
  atLeast2 m x = Some r -> m r = None /\ noLead r.
Proof.
  intros Hm Hout. unfold atLeast2.
  destruct (m x) as [r1|] eqn:E1; [| done].
  destruct (m r1) as [r2|] eqn:E2; [| done]. intros [= <-].
  split; [by apply many_stuck |]. apply many_noLead; eauto.
Qed.

Lemma atLeast2_None (m : list Tok -> option (list Tok)) (x : list Tok) :
  m x = None -> atLeast2 m x = None.
Proof. unfold atLeast2. by intros ->. Qed.

(** The replacement texts *)
Lemma P_split (rep1 rep2 : list Tok) :
  Lex.P = rep1 ++ rep2 -> rep1 <> [] -> rep2 <> [] ->
  rep2 = [mkTok KClose (Js.chars "</p>")].
Proof.
  unfold Lex.P. destruct rep1 as [|t1 [|t2 rep1]]; [done | | ].
  - by intros [= _ <-].
  - intros [= _ _ H]. symmetry in H. apply app_eq_nil in H as [_ ->]. done.
Qed.

Lemma B_split (rep1 rep2 : list Tok) :
  Lex.B = rep1 ++ rep2 -> rep1 <> [] -> rep2 <> [] -> False.
Proof.
  unfold Lex.B. destruct rep1 as [|t1 rep1]; [done |].
  intros [= _ H]. symmetry in H. apply app_eq_nil in H as [_ ->]. done.
Qed.

Lemma para_P (r : list Tok) : Lex.para (Lex.P ++ r) = Some r.
Proof. done. Qed.

Lemma emptyPara_P (r : list Tok) : Lex.emptyPara (Lex.P ++ r) = Some (Lex.spaces r).
Proof. done. Qed.

(** The hypotheses of the section above, for each replacement *)
Lemma empties_shrinking : shrinking (atLeast2 Lex.emptyPara).
Proof. apply atLeast2_shrinking, temptyPara_shrinking. Qed.

Lemma breaks_shrinking : shrinking (atLeast2 Lex.breakSpace).
Proof. apply atLeast2_shrinking, tbreakSpace_shrinking. Qed.

Lemma empties_starts : starts (atLeast2 Lex.emptyPara) KOpen.
Proof. apply atLeast2_starts, emptyPara_starts. Qed.

Lemma breaks_starts : starts (atLeast2 Lex.breakSpace) KBreak.
Proof. apply atLeast2_starts, breakSpace_starts. Qed.

Lemma empties_cuts : cuts (atLeast2 Lex.emptyPara).
Proof. apply atLeast2_cuts; [apply temptyPara_shrinking | apply temptyPara_cuts]. Qed.

Lemma breaks_cuts : cuts (atLeast2 Lex.breakSpace).
Proof. apply atLeast2_cuts; [apply tbreakSpace_shrinking | apply tbreakSpace_cuts]. Qed.

Lemma breaks_side :
  KBreak = KOpen
  \/ (KBreak = KBreak /\ (exists t0, Lex.B = [t0])
      /\ forall x r, atLeast2 Lex.breakSpace x = Some r ->
                     many Lex.blank x = many Lex.blank r).
Proof. right. split_and!; [done | by eexists | apply breaks_blanks]. Qed.

Create HintDb scan.

#[export] Hint Resolve tpara_shrinking temptyPara_shrinking tbreakSpace_shrinking
  empties_shrinking breaks_shrinking para_starts empties_starts breaks_starts
  tpara_cuts empties_cuts breaks_cuts breaks_side : scan.
(** *** Paragraphs stay canonical *)

Section Canonical.

Variables (m : list Tok -> option (list Tok)) (rep : list Tok) (k0 : Kind).
Hypothesis m_shrinking : shrinking m.
Hypothesis m_starts : starts m k0.
Hypothesis m_cuts : cuts m.
Hypothesis rep_head : headKind rep = Some k0.
Hypothesis m_blank :
  k0 = KOpen
  \/ (k0 = KBreak /\ (exists t0, rep = [t0])
      /\ forall x r, m x = Some r -> many Lex.blank x = many Lex.blank r).
Hypothesis rep_PB : rep = Lex.P \/ rep = Lex.B.

Lemma onlyAt_para_step (ts : list Tok) :
  (forall a b r, ts = a ++ b -> m b = None -> Lex.para b = Some r -> b = Lex.P ++ r) ->
  onlyAt Lex.para Lex.P (replaceAll m rep ts).
Proof.
  intros H a' b' r' Hs Hp.
  destruct (replaceAll_suffixes m rep ts a' b' m_shrinking m_cuts Hs)
    as [(a & b & -> & ->) | (a & r & rep1 & rep2 & -> & Hrep & H1 & H2 & ->)].
  - destruct b as [|t x]; [done |]. destruct (m (t :: x)) as [r|] eqn:E.
    + rewrite (replaceAll_match m rep _ r) in Hp |- * by done.
      pose proof rep_PB as [HP | HB]; rewrite ?HP, ?HB in Hp |- *; [| done].
      rewrite para_P in Hp. by injection Hp as <-.
    + rewrite replaceAll_skip in Hp |- * by done.
      rewrite (para_replaceAll_tail m rep k0) in Hp by done.
      destruct (Lex.para (t :: x)) as [r|] eqn:Ep; [| done].
      injection Hp as <-. pose proof (H a _ _ eq_refl E Ep) as Hb.
      injection Hb as -> ->. simpl.
      rewrite (replaceAll_other m rep k0); [done .. |]. simpl.
      intros Hk. symmetry in Hk. revert Hk. by eapply (k0_not_close m rep k0).
  - pose proof rep_PB as [HP | HB]; rewrite ?HP, ?HB in Hrep.
    + by rewrite (P_split _ _ Hrep H1 H2) in Hp.
    + by destruct (B_split _ _ Hrep H1 H2).
Qed.

End Canonical.

Ltac scan_side :=
  try first [ done | by left | by right | by auto with scan ].

Lemma paras_canonical (ts : list Tok) : onlyAt Lex.para Lex.P (paras ts).
Proof.
  apply (onlyAt_para_step Lex.para Lex.P KOpen); scan_side.
  intros a b r _ E1 E2. congruence.
Qed.

Lemma empties_canonical (ts : list Tok) :
  onlyAt Lex.para Lex.P ts -> onlyAt Lex.para Lex.P (empties ts).
Proof.
  intros H. apply (onlyAt_para_step _ Lex.P KOpen); scan_side.
  intros a b r Hs _ E. by apply (H a).
Qed.

Lemma breaks_canonical (ts : list Tok) :
  onlyAt Lex.para Lex.P ts -> onlyAt Lex.para Lex.P (breaks ts).
Proof.
  intros H. apply (onlyAt_para_step _ Lex.B KBreak); scan_side.
  intros a b r Hs _ E. by apply (H a).
Qed.
(** *** No run is left behind *)

Lemma empties_stuck (r : list Tok) :
  Lex.emptyPara r = None -> Lex.emptyPara (empties r) = None.
Proof.
  intros E. destruct r as [|t x]; [done |].
  rewrite replaceAll_skip by (by auto using atLeast2_None with scan).
  rewrite (emptyPara_replaceAll_tail _ Lex.P KOpen); scan_side. by rewrite E.
Qed.

Lemma empties_once (b : list Tok) : atLeast2 Lex.emptyPara (empties b) = None.
Proof.
  destruct (atLeast2 Lex.emptyPara b) as [r|] eqn:E.
  - rewrite (replaceAll_match _ _ _ r) by auto with scan.
    apply (atLeast2_out _ _ _ temptyPara_shrinking temptyPara_noLead) in E
      as [E Hr].
    unfold atLeast2. rewrite emptyPara_P.
    rewrite (replaceAll_spaces _ Lex.P KOpen); scan_side.
    rewrite Hr. by rewrite empties_stuck.
  - destruct b as [|t x]; [done |]. rewrite replaceAll_skip by auto with scan.
    unfold atLeast2 in E |- *.
    rewrite (emptyPara_replaceAll_tail _ Lex.P KOpen); scan_side.
    destruct (Lex.emptyPara (t :: x)) as [r1|]; [| done]. simpl.
    destruct (Lex.emptyPara r1) as [r2|] eqn:E2; [done |].
    by rewrite empties_stuck.
Qed.

Lemma empties_nowhere (ts : list Tok) :
  nowhere (atLeast2 Lex.emptyPara) (empties ts).
Proof.
  intros a' b' Hs.
  destruct (replaceAll_suffixes _ _ ts a' b' empties_shrinking empties_cuts Hs)
    as [(a & b & -> & ->) | (a & r & rep1 & rep2 & -> & Hrep & H1 & H2 & ->)].
  - apply empties_once.
  - by rewrite (P_split _ _ Hrep H1 H2).
Qed.

Lemma tbreakSpace_None (x : list Tok) :
  Lex.breakSpace x = None <-> headKind x <> Some KBreak.
Proof.
  destruct x as [|t x]; [done |]. rewrite breakSpace_cons, headKind_cons.
  destruct (decide (kind t = KBreak)) as [-> |]; [done |].
  split; [congruence | done].
Qed.

Lemma breaks_stuck (r : list Tok) :
  Lex.breakSpace r = None -> Lex.breakSpace (breaks r) = None.
Proof.
  rewrite !tbreakSpace_None, (replaceAll_headKind _ Lex.B KBreak); scan_side.
Qed.

Lemma breakSpace_B (r : list Tok) :
  Lex.breakSpace (Lex.B ++ r) = Some (Lex.spaces r).
Proof. done. Qed.

Lemma breaks_once (b : list Tok) : atLeast2 Lex.breakSpace (breaks b) = None.
Proof.
  destruct (atLeast2 Lex.breakSpace b) as [r|] eqn:E.
  - rewrite (replaceAll_match _ _ _ r) by auto with scan.
    apply (atLeast2_out _ _ _ tbreakSpace_shrinking tbreakSpace_noLead) in E
      as [E Hr].
    unfold atLeast2. rewrite breakSpace_B.
    rewrite (replaceAll_spaces _ Lex.B KBreak); scan_side.
    rewrite Hr. by rewrite breaks_stuck.
  - destruct b as [|t x]; [done |]. rewrite replaceAll_skip by auto with scan.
    unfold atLeast2 in E |- *. rewrite breakSpace_cons in E |- *.
    destruct (decide (kind t = KBreak)); [| done].
    rewrite (replaceAll_spaces _ Lex.B KBreak); scan_side.
    destruct (Lex.breakSpace (Lex.spaces x)) as [r2|] eqn:E2; [done |].
    by rewrite breaks_stuck.
Qed.

Lemma breaks_nowhere (ts : list Tok) :
  nowhere (atLeast2 Lex.breakSpace) (breaks ts).
Proof.
  intros a' b' Hs.
  destruct (replaceAll_suffixes _ _ ts a' b' breaks_shrinking breaks_cuts Hs)
    as [(a & b & -> & ->) | (a & r & rep1 & rep2 & -> & Hrep & H1 & H2 & ->)].
  - apply breaks_once.
  - by destruct (B_split _ _ Hrep H1 H2).
Qed.
(** *** Longer input *)

Lemma tpara_app (b r z : list Tok) :
  Lex.para b = Some r -> Lex.para (b ++ z) = Some (r ++ z).
Proof.
  destruct b as [|t x]; [done |]. simpl. rewrite !para_cons.
  destruct (decide (kind t = KOpen)); [| done]. intros H.
  rewrite many_blank_app; [by apply head_is_app |].
  intros E. by rewrite E in H.
Qed.

Lemma temptyPara_app (b r z : list Tok) :
  Lex.emptyPara b = Some r ->
  Lex.emptyPara (b ++ z)
  = Some (match r with [] => Lex.spaces z | _ => r ++ z end).
Proof.
  destruct b as [|t x]; [done |]. simpl. rewrite !emptyPara_cons.
  destruct (decide (kind t = KOpen)); [| done].
  destruct (Lex.head_is KClose (Lex.spaces x)) as [r0|] eqn:E; [| done].
  intros [= <-]. rewrite tspaces_app by (intros E'; by rewrite E' in E).
  rewrite (head_is_app _ _ _ z E). simpl. f_equal.
  destruct (Lex.spaces r0) as [|t' r'] eqn:E0.
  - by apply tspaces_app_nil.
  - rewrite tspaces_app by (by rewrite E0). by rewrite E0.
Qed.

Lemma tbreakSpace_app (b r z : list Tok) :
  Lex.breakSpace b = Some r ->
  Lex.breakSpace (b ++ z)
  = Some (match r with [] => Lex.spaces z | _ => r ++ z end).
Proof.
  destruct b as [|t x]; [done |]. simpl. rewrite !breakSpace_cons.
  destruct (decide (kind t = KBreak)); [| done]. intros [= <-]. f_equal.
  destruct (Lex.spaces x) as [|t' r'] eqn:E0.
  - by apply tspaces_app_nil.
  - rewrite tspaces_app by (by rewrite E0). by rewrite E0.
Qed.

Lemma onlyAt_para_prefix (a z : list Tok) :
  onlyAt Lex.para Lex.P (a ++ z) -> onlyAt Lex.para Lex.P a.
Proof.
  intros H a1 b r -> Hp. apply (tpara_app _ _ z) in Hp.
  apply (H a1) in Hp; [| by rewrite app_assoc].
  rewrite app_assoc in Hp. by apply app_inv_tail in Hp.
Qed.

Section Longer.

Variable m : list Tok -> option (list Tok).
Hypothesis m_nil : m [] = None.
Hypothesis m_app : forall b r z,
  m b = Some r -> m (b ++ z) = Some (match r with [] => Lex.spaces z | _ => r ++ z end).

Lemma atLeast2_longer (b r z : list Tok) :
  atLeast2 m b = Some r -> is_Some (atLeast2 m (b ++ z)).
Proof.
  unfold atLeast2. destruct (m b) as [r1|] eqn:E1; [| done].
  destruct (m r1) as [r2|] eqn:E2; [| done]. intros _.
  rewrite (m_app _ _ z E1). destruct r1 as [|t1 r1]; [congruence |].
  by rewrite (m_app _ _ z E2).
Qed.

Lemma nowhere_prefix (a z : list Tok) :
  nowhere (atLeast2 m) (a ++ z) -> nowhere (atLeast2 m) a.
Proof.
  intros H a1 b ->. destruct (atLeast2 m b) as [r|] eqn:E; [| done].
  destruct (atLeast2_longer _ _ z E) as [r' E'].
  rewrite (H a1 (b ++ z)) in E'; [done | by rewrite app_assoc].
Qed.

End Longer.

Lemma empties_nowhere_prefix (a z : list Tok) :
  nowhere (atLeast2 Lex.emptyPara) (a ++ z) -> nowhere (atLeast2 Lex.emptyPara) a.
Proof. apply nowhere_prefix; [done | apply temptyPara_app]. Qed.

Lemma breaks_nowhere_prefix (a z : list Tok) :
  nowhere (atLeast2 Lex.breakSpace) (a ++ z) -> nowhere (atLeast2 Lex.breakSpace) a.
Proof. apply nowhere_prefix; [done | apply tbreakSpace_app]. Qed.

(** A run that reaches the end of its input goes on through what is
    appended. *)
Lemma atLeast1_many {A} (m : list A -> option (list A)) (s : list A) :
  shrinking m ->
  atLeast1 m s = match m s with Some _ => Some (many m s) | None => None end.
Proof.
  intros Hm. unfold atLeast1. rewrite (many_eq m s) by done. by destruct (m s).
Qed.

Lemma many_emptyPara_app (b z : list Tok) :
  many Lex.emptyPara b = [] -> b <> [] ->
  many Lex.emptyPara (b ++ z) = many Lex.emptyPara (Lex.spaces z).
Proof.
  induction b as [b IH] using list_length_ind. intros H Hb.
  rewrite many_eq in H by apply temptyPara_shrinking.
  destruct (Lex.emptyPara b) as [r1|] eqn:E; [| done].
  rewrite (many_eq _ (b ++ z)), (temptyPara_app _ _ z E)
    by apply temptyPara_shrinking.
  destruct r1 as [|t1 r1]; [done |].
  apply IH; [by apply temptyPara_shrinking in E | done ..].
Qed.

Lemma run_app (b z : list Tok) :
  atLeast1 Lex.emptyPara b = Some [] ->
  atLeast1 Lex.emptyPara (b ++ z) = Some (many Lex.emptyPara (Lex.spaces z)).
Proof.
  rewrite !atLeast1_many by apply temptyPara_shrinking.
  destruct (Lex.emptyPara b) as [r1|] eqn:E; [| done]. intros [= H].
  rewrite (temptyPara_app _ _ z E). f_equal. apply many_emptyPara_app; [done |].
  by destruct b.
Qed.

(** *** Trimming tokens *)

Lemma tspacesEnd_split (ts : list Tok) :
  exists sp, ts = Lex.spacesEnd ts ++ sp
             /\ Forall (fun t => Lex.isSpace t = true) sp.
Proof.
  induction ts as [|t ts (sp & Hsp & Hall)]; [by exists [] |]. simpl.
  destruct (Lex.spacesEnd ts) as [|t' r'] eqn:E.
  - destruct (Lex.isSpace t) eqn:Et.
    + exists (t :: ts). split; [done |]. simpl in Hsp. subst sp. by constructor.
    + exists sp. by rewrite Hsp at 1.
  - exists sp. by rewrite Hsp at 1.
Qed.

Lemma tspacesEnd_cases (ts : list Tok) :
  Lex.spacesEnd ts = []
  \/ exists a t, Lex.spacesEnd ts = a ++ [t] /\ Lex.isSpace t = false.
Proof.
  induction ts as [|t ts IH]; [by left |]. simpl.
  destruct (Lex.spacesEnd ts) as [|t' r'] eqn:E.
  - destruct (Lex.isSpace t) eqn:Et; [by left |]. right. by exists [], t.
  - right. destruct IH as [? | (a & t0 & -> & Ht0)]; [done |].
    by exists (t :: a), t0.
Qed.

Lemma tspacesEnd_idem (ts : list Tok) :
  Lex.spacesEnd (Lex.spacesEnd ts) = Lex.spacesEnd ts.
Proof.
  destruct (tspacesEnd_cases ts) as [-> | (a & t & -> & Ht)]; [done |].
  by apply tspacesEnd_last.
Qed.

Lemma tspacesEnd_noLead (ts : list Tok) : noLead ts -> noLead (Lex.spacesEnd ts).
Proof.
  destruct (tspacesEnd_split ts) as (sp & Hsp & _). intros H.
  rewrite Hsp in H. by apply noLead_prefix in H.
Qed.

Lemma ttrim_noLead (ts : list Tok) : noLead (Lex.trim ts).
Proof. apply tspacesEnd_noLead, tspaces_noLead. Qed.

Lemma ttrim_id (ts : list Tok) :
  noLead ts -> Lex.spacesEnd ts = ts -> Lex.trim ts = ts.
Proof. unfold Lex.trim. intros -> ->. done. Qed.

Lemma ttrim_idem (ts : list Tok) : Lex.trim (Lex.trim ts) = Lex.trim ts.
Proof.
  apply ttrim_id; [apply ttrim_noLead | apply tspacesEnd_idem].
Qed.
(** *** The end of the input *)

Lemma trailing_noTrail (ts : list Tok) :
  noTrail (atLeast1 Lex.emptyPara) (stripTrailing (atLeast1 Lex.emptyPara) ts).
Proof.
  destruct (stripTrailing_spec (atLeast1 Lex.emptyPara) ts)
    as (z & Hz & Hend & Hleft).
  intros a b Hab Hb E. apply (Hleft a b Hab Hb).
  rewrite (run_app _ z E). destruct Hend as [-> | Ez]; [done |].
  pose proof (atLeast1_starts _ _ emptyPara_starts _ _ Ez) as Hs.
  assert (Hz' : noLead z) by (apply noLead_head; by rewrite Hs).
  rewrite Hz'. rewrite atLeast1_many in Ez by apply temptyPara_shrinking.
  destruct (Lex.emptyPara z); [done | done].
Qed.

Lemma breaks_noTrail (ts : list Tok) :
  noTrail (atLeast1 Lex.emptyPara) ts ->
  noTrail (atLeast1 Lex.emptyPara) (breaks ts).
Proof.
  intros H a' b' Hs Hb' E.
  destruct (replaceAll_suffixes _ _ ts a' b' breaks_shrinking breaks_cuts Hs)
    as [(a & b & -> & ->) | (a & r & rep1 & rep2 & -> & Hrep & H1 & H2 & ->)].
  - rewrite (atLeast1_emptyPara_replaceAll _ Lex.B KBreak) in E; scan_side.
    destruct (atLeast1 Lex.emptyPara b) as [r|] eqn:Eb; [| done].
    injection E as E. apply replaceAll_eq_nil in E; [| auto with scan | done].
    subst r. apply (H a b); [done | | done]. by intros ->.
  - by destruct (B_split _ _ Hrep H1 H2).
Qed.

Lemma spacesEnd_noTrail (ts : list Tok) :
  noTrail (atLeast1 Lex.emptyPara) ts ->
  noTrail (atLeast1 Lex.emptyPara) (Lex.spacesEnd ts).
Proof.
  intros H a b Hab Hb E. destruct (tspacesEnd_split ts) as (sp & Hsp & Hall).
  apply (H a (b ++ sp)).
  - by rewrite Hsp at 1; rewrite Hab, app_assoc.
  - by destruct b.
  - rewrite (run_app _ sp E). f_equal.
    rewrite <- (app_nil_r sp), tspaces_all by done. done.
Qed.

(** *** The start of the input *)

Lemma leading_stuck (ts : list Tok) :
  noLead ts ->
  Lex.emptyPara (stripLeading (atLeast1 Lex.emptyPara) ts) = None
  /\ noLead (stripLeading (atLeast1 Lex.emptyPara) ts).
Proof.
  intros Hts. unfold stripLeading.
  destruct (atLeast1 Lex.emptyPara ts) as [r|] eqn:E.
  - by apply (atLeast1_out _ _ _ temptyPara_shrinking temptyPara_noLead) in E.
  - split; [| done]. unfold atLeast1 in E. by destruct (Lex.emptyPara ts).
Qed.

Lemma stripLeading_suffix {A} (m : list A -> option (list A)) (s : list A) :
  cuts m -> exists a, s = a ++ stripLeading m s.
Proof.
  intros Hm. unfold stripLeading. destruct (m s) as [r|] eqn:E; [| by exists []].
  by apply Hm.
Qed.

Lemma temptyPara_prefix (a z : list Tok) :
  Lex.emptyPara (a ++ z) = None -> Lex.emptyPara a = None.
Proof.
  intros H. destruct (Lex.emptyPara a) as [r|] eqn:E; [| done].
  by rewrite (temptyPara_app _ _ z E) in H.
Qed.

Lemma breaks_nowhere_empties (ts : list Tok) :
  nowhere (atLeast2 Lex.emptyPara) ts ->
  nowhere (atLeast2 Lex.emptyPara) (breaks ts).
Proof.
  intros H a' b' Hs.
  destruct (replaceAll_suffixes _ _ ts a' b' breaks_shrinking breaks_cuts Hs)
    as [(a & b & -> & ->) | (a & r & rep1 & rep2 & -> & Hrep & H1 & H2 & ->)].
  - rewrite (atLeast2_emptyPara_replaceAll _ Lex.B KBreak); scan_side.
    by rewrite (H a b).
  - by destruct (B_split _ _ Hrep H1 H2).
Qed.

(** *** The normal form *)

(** What [Lex.clean] returns: every paragraph that matches is [<p></p>],
    no two empty paragraphs and no two breaks follow each other, no empty
    paragraph stands at either end, and neither does white space. *)
Lemma clean_normal (ts : list Tok) :
  let out := Lex.clean ts in
  onlyAt Lex.para Lex.P out
  /\ nowhere (atLeast2 Lex.emptyPara) out
  /\ Lex.emptyPara out = None
  /\ noTrail (atLeast1 Lex.emptyPara) out
  /\ nowhere (atLeast2 Lex.breakSpace) out
  /\ noLead out /\ Lex.spacesEnd out = out.
Proof.
  unfold Lex.clean. cbv zeta.
  set (t0 := Lex.trim ts).
  set (t1 := paras t0).
  set (t2 := empties t1).
  set (t3 := stripLeading (atLeast1 Lex.emptyPara) t2).
  set (t4 := stripTrailing (atLeast1 Lex.emptyPara) t3).
  set (t5 := breaks t4).
  assert (N2 : noLead t2).
  { apply (replaceAll_noLead _ Lex.P KOpen); scan_side.
    apply (replaceAll_noLead _ Lex.P KOpen); scan_side. apply ttrim_noLead. }
  destruct (leading_stuck t2 N2) as [E3 N3]. fold t3 in E3, N3.
  destruct (stripLeading_suffix (atLeast1 Lex.emptyPara) t2) as [a3 H3].
  { apply atLeast1_cuts; [apply temptyPara_shrinking | apply temptyPara_cuts]. }
  fold t3 in H3.
  destruct (stripTrailing_spec (atLeast1 Lex.emptyPara) t3) as (z4 & H4 & _).
  fold t4 in H4.
  assert (N5 : noLead t5).
  { apply (replaceAll_noLead _ Lex.B KBreak); scan_side.
    rewrite H4 in N3. by apply noLead_prefix in N3. }
  assert (Ht : Lex.trim t5 = Lex.spacesEnd t5).
  { unfold Lex.trim. by rewrite N5. }
  rewrite Ht. destruct (tspacesEnd_split t5) as (z6 & H6 & _).
  assert (C4 : onlyAt Lex.para Lex.P t4).
  { apply (onlyAt_para_prefix _ z4). rewrite <- H4.
    apply (onlyAt_suffix _ _ a3). rewrite <- H3.
    apply empties_canonical, paras_canonical. }
  assert (W4 : nowhere (atLeast2 Lex.emptyPara) t4).
  { apply (empties_nowhere_prefix _ z4). rewrite <- H4.
    apply (nowhere_suffix _ a3). rewrite <- H3. apply empties_nowhere. }
  split_and!.
  - apply (onlyAt_para_prefix _ z6). rewrite <- H6. by apply breaks_canonical.
  - apply (empties_nowhere_prefix _ z6). rewrite <- H6.
    by apply breaks_nowhere_empties.
  - apply (temptyPara_prefix _ z6). rewrite <- H6.
    unfold t5. rewrite (emptyPara_replaceAll _ Lex.B KBreak); scan_side.
    rewrite H4 in E3. apply temptyPara_prefix in E3. by rewrite E3.
  - apply spacesEnd_noTrail, breaks_noTrail, trailing_noTrail.
  - apply (breaks_nowhere_prefix _ z6). rewrite <- H6. apply breaks_nowhere.
  - by apply tspacesEnd_noLead.
  - apply tspacesEnd_idem.
Qed.

Lemma clean_fixed (ts : list Tok) :
  onlyAt Lex.para Lex.P ts ->
  nowhere (atLeast2 Lex.emptyPara) ts ->
  Lex.emptyPara ts = None ->
  noTrail (atLeast1 Lex.emptyPara) ts ->
  nowhere (atLeast2 Lex.breakSpace) ts ->
  noLead ts -> Lex.spacesEnd ts = ts ->
  Lex.clean ts = ts.
Proof.
  intros H1 H2 H3 H4 H5 H6 H7. unfold Lex.clean. cbv zeta.
  rewrite (ttrim_id ts) by done.
  rewrite (replaceAll_id Lex.para) by auto with scan.
  rewrite (replaceAll_id (atLeast2 Lex.emptyPara))
    by auto using nowhere_onlyAt with scan.
  assert (stripLeading (atLeast1 Lex.emptyPara) ts = ts) as ->.
  { unfold stripLeading, atLeast1. by rewrite H3. }
  rewrite stripTrailing_id by done.
  rewrite (replaceAll_id (atLeast2 Lex.breakSpace))
    by auto using nowhere_onlyAt with scan.
  by apply ttrim_id.
Qed.

Lemma clean_idem (ts : list Tok) : Lex.clean (Lex.clean ts) = Lex.clean ts.
Proof.
  destruct (clean_normal ts) as (H1 & H2 & H3 & H4 & H5 & H6 & H7).
  by apply clean_fixed.
Qed.

Lemma cleanChars_idem (s : list ascii) : cleanChars (cleanChars s) = cleanChars s.
Proof. apply lex_inj. by rewrite !cleanChars_lex, clean_idem. Qed.
(** *** The normaliser on strings *)

Lemma trim_idem (s : list ascii) : Js.trim (Js.trim s) = Js.trim s.
Proof. apply lex_inj. by rewrite <- !trim_lex, ttrim_idem. Qed.

Lemma cleanChars_trimmed (s : list ascii) :
  Js.trim (cleanChars s) = cleanChars s.
Proof. unfold cleanChars. cbv zeta. apply trim_idem. Qed.

Lemma cleanHtml_chars (x : string) : Js.chars (cleanHtml x) = cleanChars (Js.chars x).
Proof.
  unfold cleanHtml. destruct (decide (x = EmptyString)) as [-> |]; [done |].
  apply chars_text.
Qed.

Lemma cleanHtml_idem (x : string) : cleanHtml (cleanHtml x) = cleanHtml x.
Proof.
  apply chars_inj. by rewrite !cleanHtml_chars, cleanChars_idem.
Qed.

(** A fact about the tokens of the input, said of the input itself. *)
Lemma nowhere_lex (m : list ascii -> option (list ascii))
    (tm : list Tok -> option (list Tok)) (s : list ascii) :
  at_lt m -> (forall x, tm (Lex.lex x) = Lex.lex <$> m x) ->
  nowhere tm (Lex.lex s) -> nowhere m s.
Proof.
  intros Hlt Hsq H a b ->. destruct (m b) as [r|] eqn:E; [| done].
  destruct (Hlt _ _ E) as [y ->].
  specialize (H (Lex.lex a) (Lex.lex ("<"%char :: y))
                (lex_app_quiet a _ (lt_quiet y))).
  by rewrite Hsq, E in H.
Qed.

Lemma noTrail_lex (m : list ascii -> option (list ascii))
    (tm : list Tok -> option (list Tok)) (s : list ascii) :
  at_lt m -> (forall x, tm (Lex.lex x) = Lex.lex <$> m x) ->
  noTrail tm (Lex.lex s) -> noTrail m s.
Proof.
  intros Hlt Hsq H a b -> Hb E. destruct (Hlt _ _ E) as [y ->].
  apply (H (Lex.lex a) (Lex.lex ("<"%char :: y))
           (lex_app_quiet a _ (lt_quiet y))).
  - intros E'. by apply lex_eq_nil in E'.
  - by rewrite Hsq, E.
Qed.

Lemma onlyAt_lex (s : list ascii) :
  onlyAt Lex.para Lex.P (Lex.lex s) -> onlyAt Re.para (Js.chars "<p></p>") s.
Proof.
  intros H a b r -> E. destruct (para_at_lt _ _ E) as [y ->].
  apply lex_inj. rewrite lex_P. apply (H (Lex.lex a)).
  - apply lex_app_quiet, lt_quiet.
  - by rewrite para_lex, E.
Qed.


(** *** What the normaliser guarantees *)

(** C1: the normaliser is idempotent: normalising a second time changes
    nothing, [cleanHtml (cleanHtml x) = cleanHtml x] for every input
    string. *)
Theorem cleanHtml_idempotent (x : string) : cleanHtml (cleanHtml x) = cleanHtml x.
Proof. apply cleanHtml_idem. Qed.

(** X2: in the result no two empty paragraphs follow each other and no
    two line breaks do: the second and the last pattern of [cleanHtml],
    the ones with the quantifier [{2,}], match at no position. *)
Theorem cleanHtml_no_runs (x : string) :
  nowhere (atLeast2 Re.emptyPara) (Js.chars (cleanHtml x))
  /\ nowhere (atLeast2 Re.breakSpace) (Js.chars (cleanHtml x)).
Proof.
  rewrite cleanHtml_chars.
  destruct (clean_normal (Lex.lex (Js.chars x))) as (_ & H2 & _ & _ & H5 & _).
  rewrite <- cleanChars_lex in H2, H5. split.
  - apply (nowhere_lex _ (atLeast2 Lex.emptyPara));
      auto using atLeast2_at_lt, emptyPara_at_lt, atLeast2_emptyPara_lex.
  - apply (nowhere_lex _ (atLeast2 Lex.breakSpace));
      auto using atLeast2_at_lt, breakSpace_at_lt, atLeast2_breakSpace_lex.
Qed.

(** X3: the result has no white space at either end, does not start
    with an empty paragraph, and from no position a run of empty
    paragraphs reaches its end. *)
Theorem cleanHtml_ends (x : string) :
  Js.trim (Js.chars (cleanHtml x)) = Js.chars (cleanHtml x)
  /\ Re.emptyPara (Js.chars (cleanHtml x)) = None
  /\ noTrail (atLeast1 Re.emptyPara) (Js.chars (cleanHtml x)).
Proof.
  rewrite cleanHtml_chars.
  destruct (clean_normal (Lex.lex (Js.chars x))) as (_ & _ & H3 & H4 & _).
  rewrite <- cleanChars_lex in H3, H4. split_and!.
  - apply cleanChars_trimmed.
  - rewrite emptyPara_lex in H3.
    by destruct (Re.emptyPara (cleanChars (Js.chars x))).
  - apply (noTrail_lex _ (atLeast1 Lex.emptyPara));
      auto using atLeast1_at_lt, emptyPara_at_lt, atLeast1_emptyPara_lex.
Qed.

(** X4: wherever the result holds a paragraph of nothing but white
    space, [&nbsp;] and line breaks, that paragraph is [<p></p>]
    itself. *)
Theorem cleanHtml_canonical_paragraphs (x : string) :
  onlyAt Re.para (Js.chars "<p></p>") (Js.chars (cleanHtml x)).
Proof.
  rewrite cleanHtml_chars. apply onlyAt_lex. rewrite cleanChars_lex.
  by destruct (clean_normal (Lex.lex (Js.chars x))) as (H1 & _).
Qed.

(** *** The length of the result *)

Lemma replaceAll_takes {A} (m : list A -> option (list A)) (rep s : list A) :
  shrinking m -> takes m rep -> length (replaceAll m rep s) <= length s.
Proof.
  intros Hm Ht. induction s as [s IH] using list_length_ind.
  destruct s as [|c s]; [done |].
  destruct (m (c :: s)) as [r|] eqn:E.
  - rewrite (replaceAll_match m rep _ r) by done. rewrite length_app.
    pose proof (Ht _ _ E). pose proof (IH r (Hm _ _ E)). lia.
  - rewrite replaceAll_skip by done. simpl.
    pose proof (IH s ltac:(simpl; lia)). lia.
Qed.

Lemma stripTrailing_length {A} (m : list A -> option (list A)) (s : list A) :
  length (stripTrailing m s) <= length s.
Proof.
  induction s as [|c s IH]; [done |]. simpl.
  destruct (m (c :: s)) as [[|??]|]; simpl; lia.
Qed.

Lemma stripLeading_length {A} (m : list A -> option (list A)) (s : list A) :
  shrinking m -> length (stripLeading m s) <= length s.
Proof.
  intros Hm. unfold stripLeading. destruct (m s) as [r|] eqn:E; [| done].
  apply Hm in E. lia.
Qed.

Lemma trimEnd_length (s : list ascii) : length (Js.trimEnd s) <= length s.
Proof.
  destruct (trimEnd_split s) as (z & Hz & _). rewrite Hz at 2.
  rewrite length_app. lia.
Qed.

Lemma trim_length (s : list ascii) : length (Js.trim s) <= length s.
Proof.
  unfold Js.trim. pose proof (trimEnd_length (Js.trimStart s)).
  pose proof (spaces_length s). unfold Re.spaces in *. lia.
Qed.

Lemma para_takes : takes Re.para (Js.chars "<p></p>").
Proof.
  intros s r. unfold Re.para.
  destruct (Re.lit (Js.chars "<p>") s) as [r1|] eqn:E1; [| done]. intros E2.
  apply lit_length in E1, E2.
  pose proof (many_length Re.blank r1 blank_shrinking). simpl in *. lia.
Qed.

Lemma emptyPara_takes : takes Re.emptyPara (Js.chars "<p></p>").
Proof.
  intros s r. unfold Re.emptyPara.
  destruct (Re.lit (Js.chars "<p>") s) as [r1|] eqn:E1; [| done].
  destruct (Re.lit (Js.chars "</p>") (Re.spaces r1)) as [r2|] eqn:E2; [| done].
  intros [= <-]. apply lit_length in E1, E2.
  pose proof (spaces_length r1). pose proof (spaces_length r2). simpl in *. lia.
Qed.

Lemma atLeast2_takes {A} (m : list A -> option (list A)) (rep : list A) :
  shrinking m -> takes m rep -> takes (atLeast2 m) rep.
Proof.
  intros Hm Ht s r. unfold atLeast2.
  destruct (m s) as [r1|] eqn:E1; [| done].
  destruct (m r1) as [r2|] eqn:E2; [| done]. intros [= <-].
  pose proof (Ht _ _ E1). pose proof (Hm _ _ E2).
  pose proof (many_length m r2 Hm). lia.
Qed.

Lemma slash_length (s : list ascii) : length (Re.slash s) <= length s.
Proof.
  destruct s as [|c s]; simpl; [done |]. destruct (decide _); simpl; lia.
Qed.

Lemma breakSpace_takes : takes (atLeast2 Re.breakSpace) (Js.chars "<br/>").
Proof.
  assert (H4 : forall s r, Re.breakSpace s = Some r -> 4 + length r <= length s).
  { intros s r. unfold Re.breakSpace, Re.br.
    destruct (Re.lit (Js.chars "<br") s) as [r1|] eqn:E1; [| done].
    destruct (Re.lit (Js.chars ">") (Re.slash (Re.spaces r1))) as [r2|] eqn:E2;
      [| done].
    intros [= <-]. apply lit_length in E1, E2.
    pose proof (slash_length (Re.spaces r1)). pose proof (spaces_length r1).
    pose proof (spaces_length r2). simpl in *. lia. }
  intros s r. unfold atLeast2.
  destruct (Re.breakSpace s) as [r1|] eqn:E1; [| done].
  destruct (Re.breakSpace r1) as [r2|] eqn:E2; [| done]. intros [= <-].
  apply H4 in E1, E2.
  pose proof (many_length Re.breakSpace r2 breakSpace_shrinking). simpl. lia.
Qed.

Lemma cleanChars_length (s : list ascii) : length (cleanChars s) <= length s.
Proof.
  unfold cleanChars. cbv zeta.
  etrans; [apply trim_length |].
  etrans; [apply replaceAll_takes;
           [apply atLeast2_shrinking, breakSpace_shrinking
           | apply breakSpace_takes] |].
  etrans; [apply stripTrailing_length |].
  etrans; [apply stripLeading_length, atLeast1_shrinking, emptyPara_shrinking |].
  etrans; [apply replaceAll_takes;
           [apply atLeast2_shrinking, emptyPara_shrinking
           | apply atLeast2_takes;
             [apply emptyPara_shrinking | apply emptyPara_takes]] |].
  etrans; [apply replaceAll_takes; [apply para_shrinking | apply para_takes] |].
  apply trim_length.
Qed.

(** X8: the normaliser never makes its input longer. *)
Theorem cleanHtml_not_longer (x : string) :
  String.length (cleanHtml x) <= String.length x.
Proof.
  rewrite <- !length_chars, cleanHtml_chars. apply cleanChars_length.
Qed.

(** *** What the normaliser leaves alone *)

Lemma others_app (a b : list Tok) : others (a ++ b) = others a ++ others b.
Proof. apply filter_app. Qed.

Lemma others_cons (t : Tok) (ts : list Tok) :
  kind t <> KOther -> others (t :: ts) = others ts.
Proof. intros H. unfold others. by rewrite filter_cons_False. Qed.

Lemma head_is_spares (k : Kind) : k <> KOther -> spares (Lex.head_is k).
Proof.
  intros Hk [|t ts] r; simpl; [done |].
  destruct (decide (kind t = k)) as [Ht | Ht]; [| done].
  intros [= <-]. apply others_cons. congruence.
Qed.

Lemma tblank_spares : spares Lex.blank.
Proof.
  intros [|t ts] r; simpl; [done |]. destruct (Lex.isBlank t) eqn:E; [| done].
  intros [= <-]. apply others_cons. apply isBlank_kind in E.
  destruct E as [E | [E | E]]; congruence.
Qed.

Lemma tspaces_others (ts : list Tok) : others (Lex.spaces ts) = others ts.
Proof.
  induction ts as [|t ts IH]; [done |]. simpl.
  destruct (Lex.isSpace t) eqn:E; [| done].
  rewrite IH. symmetry. apply others_cons. apply isSpace_kind in E. congruence.
Qed.

Lemma tspacesEnd_others (ts : list Tok) : others (Lex.spacesEnd ts) = others ts.
Proof.
  destruct (tspacesEnd_split ts) as (sp & Hsp & Hall). rewrite Hsp at 2.
  rewrite others_app.
  assert (others sp = []) as ->; [| by rewrite app_nil_r].
  clear Hsp. induction Hall as [|t sp Ht _ IH]; [done |].
  rewrite others_cons; [exact IH |]. apply isSpace_kind in Ht. congruence.
Qed.

Lemma many_spares (m : list Tok -> option (list Tok)) (s : list Tok) :
  shrinking m -> spares m -> others (many m s) = others s.
Proof.
  intros Hm Hs. induction s as [s IH] using list_length_ind.
  rewrite many_eq by done. destruct (m s) as [r|] eqn:E; [| done].
  rewrite IH by by apply Hm. symmetry. by apply Hs.
Qed.

Lemma atLeast1_spares (m : list Tok -> option (list Tok)) :
  shrinking m -> spares m -> spares (atLeast1 m).
Proof.
  intros Hm Hs s r. unfold atLeast1. destruct (m s) as [r1|] eqn:E; [| done].
  intros [= <-]. rewrite many_spares by done. by apply Hs.
Qed.

Lemma atLeast2_spares (m : list Tok -> option (list Tok)) :
  shrinking m -> spares m -> spares (atLeast2 m).
Proof.
  intros Hm Hs s r. unfold atLeast2. destruct (m s) as [r1|] eqn:E1; [| done].
  destruct (m r1) as [r2|] eqn:E2; [| done].
  intros [= <-]. rewrite many_spares by done.
  rewrite (Hs _ _ E1). by apply Hs.
Qed.

Lemma tpara_spares : spares Lex.para.
Proof.
  intros s r. unfold Lex.para.
  destruct (Lex.head_is KOpen s) as [r1|] eqn:E1; [| done]. intros E2.
  apply head_is_spares in E1, E2; try done.
  rewrite E1, <- E2. symmetry.
  apply many_spares; [apply tblank_shrinking | apply tblank_spares].
Qed.

Lemma temptyPara_spares : spares Lex.emptyPara.
Proof.
  intros s r. unfold Lex.emptyPara.
  destruct (Lex.head_is KOpen s) as [r1|] eqn:E1; [| done].
  destruct (Lex.head_is KClose (Lex.spaces r1)) as [r2|] eqn:E2; [| done].
  intros [= <-]. apply head_is_spares in E1, E2; try done.
  by rewrite tspaces_others, E1, <- E2, tspaces_others.
Qed.

Lemma tbreakSpace_spares : spares Lex.breakSpace.
Proof.
  intros s r. unfold Lex.breakSpace.
  destruct (Lex.head_is KBreak s) as [r1|] eqn:E1; [| done].
  intros [= <-]. apply head_is_spares in E1; [| done].
  by rewrite tspaces_others.
Qed.

Lemma replaceAll_spares (m : list Tok -> option (list Tok)) (rep s : list Tok) :
  shrinking m -> spares m -> others rep = [] ->
  others (replaceAll m rep s) = others s.
Proof.
  intros Hm Hs Hrep. induction s as [s IH] using list_length_ind.
  destruct s as [|c s]; [done |].
  destruct (m (c :: s)) as [r|] eqn:E.
  - rewrite (replaceAll_match m rep _ r) by done.
    rewrite others_app, Hrep, IH by by apply Hm. symmetry. by apply Hs.
  - rewrite replaceAll_skip by done.
    change (c :: replaceAll m rep s) with ([c] ++ replaceAll m rep s).
    change (c :: s) with ([c] ++ s).
    rewrite !others_app, IH; [done | simpl; lia].
Qed.

Lemma stripTrailing_spares (m : list Tok -> option (list Tok)) (s : list Tok) :
  spares m -> others (stripTrailing m s) = others s.
Proof.
  intros Hs. induction s as [|c s IH]; [done |]. simpl.
  assert (Hc : others (c :: stripTrailing m s) = others (c :: s)).
  { change (others ([c] ++ stripTrailing m s) = others ([c] ++ s)).
    by rewrite !others_app, IH. }
  destruct (m (c :: s)) as [[|c1 r1]|] eqn:E; [| exact Hc | exact Hc].
  symmetry. apply (Hs _ _ E).
Qed.

Lemma clean_others (ts : list Tok) : others (Lex.clean ts) = others ts.
Proof.
  unfold Lex.clean, Lex.trim. cbv zeta.
  rewrite tspacesEnd_others, tspaces_others.
  rewrite replaceAll_spares;
    [| apply breaks_shrinking
     | apply atLeast2_spares;
       [apply tbreakSpace_shrinking | apply tbreakSpace_spares]
     | done].
  rewrite stripTrailing_spares
    by (apply atLeast1_spares;
        [apply temptyPara_shrinking | apply temptyPara_spares]).
  assert (Hlead : forall x,
            others (stripLeading (atLeast1 Lex.emptyPara) x) = others x).
  { intros x. unfold stripLeading.
    destruct (atLeast1 Lex.emptyPara x) as [r|] eqn:E; [| done].
    symmetry. revert E.
    apply atLeast1_spares; [apply temptyPara_shrinking | apply temptyPara_spares]. }
  rewrite Hlead.
  rewrite replaceAll_spares;
    [| apply empties_shrinking
     | apply atLeast2_spares;
       [apply temptyPara_shrinking | apply temptyPara_spares]
     | done].
  rewrite replaceAll_spares;
    [| apply tpara_shrinking | apply tpara_spares | done].
  by rewrite tspacesEnd_others, tspaces_others.
Qed.

(** X13: the normaliser only ever touches white space, the tags [<p>],
    [</p>] and [<br>] and the entity [&nbsp;]: every other character of
    the input is in the result, unchanged and in its order, and the
    result has no other character besides these. *)
Theorem cleanHtml_keeps_text (x : string) :
  others (Lex.lex (Js.chars (cleanHtml x))) = others (Lex.lex (Js.chars x)).
Proof. by rewrite cleanHtml_chars, cleanChars_lex, clean_others. Qed.

(** ** The tag input *)

Lemma text_nil (l : list ascii) : Js.text l = EmptyString -> l = [].
Proof. intros H. by rewrite <- (chars_text l), H. Qed.

Lemma addTag_tags (raw : string) (s : TagSelector.t) :
  let tag := Js.text (Js.trim (Js.chars raw)) in
  TagSelector.selectedTags (TagSelector.addTag raw s)
  = if bool_decide (tag <> EmptyString /\ tag ∉ TagSelector.selectedTags s)
    then TagSelector.selectedTags s ++ [tag]
    else TagSelector.selectedTags s.
Proof.
  intros tag. unfold TagSelector.addTag. fold tag.
  destruct (decide (tag = EmptyString)) as [E | E].
  { rewrite bool_decide_eq_false_2; [done | tauto]. }
  case_bool_decide as Hin.
  - rewrite bool_decide_eq_false_2; [done | tauto].
  - by rewrite bool_decide_eq_true_2.
Qed.

Lemma trimmed_clean (raw : string) :
  Js.text (Js.trim (Js.chars raw)) <> EmptyString ->
  TagSelector.clean (Js.text (Js.trim (Js.chars raw))).
Proof. intros H. split; [done |]. by rewrite chars_text, trim_idem. Qed.

Lemma tagStep_inv (ev : TagSelector.Event) (s : TagSelector.t) :
  NoDup (TagSelector.selectedTags s) ->
  Forall TagSelector.clean (TagSelector.selectedTags s) ->
  NoDup (TagSelector.selectedTags (TagSelector.step ev s))
  /\ Forall TagSelector.clean (TagSelector.selectedTags (TagSelector.step ev s)).
Proof.
  intros Hnd Hcl.
  assert (Hadd : forall raw,
            NoDup (TagSelector.selectedTags (TagSelector.addTag raw s))
            /\ Forall TagSelector.clean
                 (TagSelector.selectedTags (TagSelector.addTag raw s))).
  { intros raw. rewrite addTag_tags. case_bool_decide as H; [| done].
    destruct H as [Hne Hin]. split.
    - apply NoDup_app. split_and!; [done | | apply NoDup_singleton].
      intros x Hx ->%list_elem_of_singleton. done.
    - apply Forall_app. split; [done |]. apply Forall_singleton.
      by apply trimmed_clean. }
  destruct ev as [key | value | tag]; simpl.
  - unfold TagSelector.handleKeyDown.
    destruct (_ || _); [apply Hadd |].
    destruct (_ && _); [| done]. simpl. split.
    + eapply sublist_NoDup; [exact Hnd |]. apply sublist_take.
    + by apply Forall_take.
  - done.
  - split.
    + by apply NoDup_filter.
    + apply Forall_forall. intros x [_ Hx]%list_elem_of_filter.
      by eapply Forall_forall in Hcl.
Qed.

(** X5: whatever is typed, whichever keys are pressed and whichever
    tags are removed, the tag list never holds a tag twice and never a
    tag that is empty or has white space around it. *)
Theorem tags_stay_clean (evs : list TagSelector.Event) (s : TagSelector.t) :
  NoDup (TagSelector.selectedTags s) ->
  Forall TagSelector.clean (TagSelector.selectedTags s) ->
  NoDup (TagSelector.selectedTags (TagSelector.run evs s))
  /\ Forall TagSelector.clean (TagSelector.selectedTags (TagSelector.run evs s)).
Proof.
  revert s. induction evs as [|ev evs IH]; intros s Hnd Hcl; [done |].
  unfold TagSelector.run. simpl. apply IH; by apply tagStep_inv.
Qed.

Lemma tags_stay_clean_witness :
  let evs := [TagSelector.Typed " rocq "; TagSelector.KeyDown "Enter";
              TagSelector.Typed "rocq"; TagSelector.KeyDown ",";
              TagSelector.Typed "  "; TagSelector.KeyDown "Enter";
              TagSelector.Typed "js"; TagSelector.KeyDown "Enter"] in
  TagSelector.selectedTags (TagSelector.run evs (TagSelector.mk [] EmptyString))
  = ["rocq"; "js"]
  /\ NoDup (TagSelector.selectedTags
              (TagSelector.run evs (TagSelector.mk [] EmptyString)))
  /\ Forall TagSelector.clean
       (TagSelector.selectedTags
          (TagSelector.run evs (TagSelector.mk [] EmptyString))).
Proof.
  intros evs. split; [vm_compute; reflexivity |].
  apply (tags_stay_clean evs (TagSelector.mk [] EmptyString)).
  - simpl. apply NoDup_nil_2.
  - simpl. apply Forall_nil_2.
Defined.

(** ** More on the autosave of the component *)

(** X6: in every state of the component at most one autosave is
    pending: each render clears the timer of the render before it
    sets its own. *)
Theorem autosave_one_pending (delay : nat) (quota : Draft -> bool) (s : Editing) :
  editReachable delay quota s -> length (timers (env (autosave s))) <= 1.
Proof.
  intros H. apply editReachable_inv in H as [[-> | (t & -> & _)] _]; simpl; lia.
Qed.

Lemma autosave_one_pending_witness :
  let s := change 30 acceptAll (SetTitle "abc")
             (idle 30 acceptAll 1
                (change 30 acceptAll (SetImages [])
                   (idle 30 acceptAll 1
                      (change 30 acceptAll (SetTitle "a") (mount 30 acceptAll))))) in
  timers (env (autosave s)) = [mkTimer 2 32 (titled "abc")]
  /\ length (timers (env (autosave s))) <= 1.
Proof.
  intros s. split; [vm_compute; reflexivity |].
  apply (autosave_one_pending 30 acceptAll s).
  apply editReachable_change, editReachable_idle, editReachable_change,
    editReachable_idle, editReachable_change, editReachable_mount.
Defined.

(** X7: what the timer callback leaves behind.  A draft with content is
    rendered, the image list not set, and nothing renders for [delay]
    units of time.  Until then the slot and the notices stay as they
    are.  Then the callback has run: when the store takes the draft, the
    slot holds it and the notice says that the draft was saved; when the
    store refuses, the slot keeps what it held and the notice reports
    the failure.  In both cases no timer is left. *)
Theorem autosave_quiet_period (delay : nat) (quota : Draft -> bool) (s : Editing)
    (d : Draft) :
  editReachable delay quota s ->
  0 < delay ->
  images d = images (draft s) ->
  hasContent d = true ->
  let e := env (autosave s) in
  let after n := env (autosave (idle delay quota n (rerender delay quota d false s))) in
  (forall n, n < delay ->
     storage (after n) = storage e /\ notices (after n) = notices e)
  /\ timers (after delay) = []
  /\ storage (after delay)
     = (if quota d then storage e else <[DRAFT_KEY := d]> (storage e))
  /\ notices (after delay)
     = notices e
       ++ [if quota d then mkToast Failure "Failed to save draft"
           else mkToast Info "Draft auto-saved"].
Proof.
  intros Hr Hdelay _ Hd e after.
  apply editReachable_inv in Hr as [H1 _].
  destruct (render_pending delay quota d (autosave s) H1 Hd) as (i & k & E).
  fold e in E.
  assert (Hafter : forall n,
            after n = elapse quota n
                        (mkEnv (now e) [mkTimer i (now e + delay) d] k (writes e)
                           (storage e) (notices e))).
  { intros n. unfold after.
    destruct (idle_autosave delay quota n (rerender delay quota d false s))
      as [-> _].
    cbn [rerender autosave env]. by rewrite E. }
  destruct (single_timer_elapse delay quota
              (mkEnv (now e) [mkTimer i (now e + delay) d] k (writes e)
                 (storage e) (notices e)) i d Hdelay eq_refl) as [Hidle Hfire].
  cbn [now nextTimerId writes storage notices] in Hfire.
  split_and!.
  - intros n Hn. by rewrite Hafter, Hidle.
  - rewrite Hafter, Hfire. unfold autosaveCallback, setItem. by destruct (quota d).
  - rewrite Hafter, Hfire. unfold autosaveCallback, setItem. by destruct (quota d).
  - rewrite Hafter, Hfire. unfold autosaveCallback, setItem. by destruct (quota d).
Qed.

Lemma autosave_quiet_period_witness :
  let s := idle 30 acceptAll 2
             (change 30 acceptAll (SetTitle "a") (mount 30 acceptAll)) in
  let after n := env (autosave (idle 30 acceptAll n
                                  (rerender 30 acceptAll (titled "ab") false s))) in
  storage (after 29) !! DRAFT_KEY = Some (titled EmptyString)
  /\ storage (after 30) !! DRAFT_KEY = Some (titled "ab")
  /\ timers (after 30) = [].
Proof.
  intros s after.
  destruct (autosave_quiet_period 30 acceptAll s (titled "ab"))
    as (H1 & H2 & H3 & _);
    [ apply editReachable_idle, editReachable_change, editReachable_mount
    | lia | reflexivity | reflexivity |].
  split; [| split].
  - destruct (H1 29) as [E _]; [lia |].
    unfold after. rewrite E. vm_compute. reflexivity.
  - unfold after. rewrite H3. vm_compute. reflexivity.
  - exact H2.
Defined.

(** ** Formatting and the text of the document *)

Lemma keepsText_ret {A} (a : A) : keepsText (mret (M := M) a).
Proof. done. Qed.

Lemma keepsText_read {A} (f : App -> A) : keepsText (read f).
Proof. done. Qed.

Lemma keepsText_ask {A} (f : Quill.t -> A) (d : A) : keepsText (ask f d).
Proof. done. Qed.

Lemma keepsText_toast (l : Level) (msg : string) : keepsText (toast l msg).
Proof. done. Qed.

Lemma keepsText_query {A} (f : Quill.t -> result A) (d : A) : keepsText (query f d).
Proof.
  intros s. unfold query. destruct (quillRef s) as [q|]; [| done].
  by destruct (f q).
Qed.

Lemma keepsText_call (f : Quill.t -> result Quill.t) :
  keepsLeaves f -> keepsText (call f).
Proof.
  intros Hf s. unfold call.
  destruct (quillRef s) as [q|] eqn:E; [| done].
  destruct (f q) as [q'|e] eqn:Ef; [| done].
  unfold documentOf. simpl. rewrite E. simpl. by apply Hf.
Qed.

Lemma keepsText_bind {A B} (c : M A) (k : A -> M B) :
  keepsText c -> (forall a, keepsText (k a)) -> keepsText (c ≫= k).
Proof.
  intros Hc Hk s. rewrite run_bind. specialize (Hc s).
  destruct (c s) as [a s' | e s']; simpl in *; [| done].
  by rewrite Hk.
Qed.

Lemma leaves_map_range (name : string) (v : Value) (i n : nat) (d : list Node) :
  leaves (Quill.map_range (Quill.format_node name v) i n d) = leaves d.
Proof.
  unfold leaves, Quill.map_range. rewrite !fmap_app, <- list_fmap_compose.
  rewrite <- (take_drop i d) at 4. rewrite fmap_app. f_equal.
  rewrite <- (take_drop n (drop i d)) at 2. rewrite fmap_app, drop_drop. done.
Qed.

Lemma keepsLeaves_formatText (i n : nat) (name : string) (v : Value) :
  keepsLeaves (Quill.formatText i n name v).
Proof.
  intros q q'. unfold Quill.formatText. destruct (Quill.in_range i n q); [| done].
  intros [= <-]. simpl. apply leaves_map_range.
Qed.

Lemma keepsLeaves_setSelection (i n : nat) :
  keepsLeaves (fun q => Ok (Quill.setSelection i n q)).
Proof. by intros q q' [= <-]. Qed.

Lemma leaves_formatLine_from (pos start i n : nat) (name : string) (v : Value)
    (d : list Node) :
  leaves (Quill.formatLine_from pos start i n name v d) = leaves d.
Proof.
  revert pos start. induction d as [|x d IH]; intros pos start; simpl; [done |].
  destruct (Quill.is_newline x); simpl; rewrite IH; [| done].
  by destruct (_ && _).
Qed.

Lemma keepsLeaves_format (name : string) (v : Value) :
  keepsLeaves (Quill.format name v).
Proof.
  intros q q'. unfold Quill.format.
  destruct (Quill.selection (Quill.focus q)) as [r|]; [| by intros [= <-]].
  destruct (Quill.is_block name).
  { intros [= <-]. simpl. apply leaves_formatLine_from. }
  destruct (decide (Range.length r = 0)); [by intros [= <-] |].
  intros H. by apply keepsLeaves_formatText in H.
Qed.

Create HintDb keeps.

#[local] Hint Resolve keepsText_ret keepsText_read keepsText_ask keepsText_toast
  keepsText_query keepsText_call keepsLeaves_formatText keepsLeaves_setSelection
  keepsLeaves_format : keeps.

Lemma keepsText_handleFormat (format : string) (value : Value) :
  keepsText (handleFormat format value).
Proof.
  unfold handleFormat.
  apply keepsText_bind; [auto with keeps |]. intros editor.
  destruct (missing editor); [apply keepsText_ret |].
  apply keepsText_bind; [auto with keeps |]. intros range.
  repeat case_match;
    repeat (first [ apply keepsText_ret
                  | apply keepsText_bind; [| intros ?]
                  | apply keepsText_toast
                  | apply keepsText_query
                  | apply keepsText_call ]);
    auto with keeps.
Qed.

(** X9: formatting never changes the text: whatever the format, the
    value and the state, and whether the handler returns or throws, the
    characters and embeds of the document are the same afterwards, in
    the same order. *)
Theorem handleFormat_keeps_text (format : string) (value : Value) (app : App) :
  leaves (documentOf (final (handleFormat format value app)))
  = leaves (documentOf app).
Proof. apply keepsText_handleFormat. Qed.

(** ** The policy of the character toggles *)

Lemma agree_Some (a b : gmap string Value) (k : string) (v : Value) :
  Quill.agree a b !! k = Some v <-> a !! k = Some v /\ b !! k = Some v.
Proof.
  rewrite agree_lookup. destruct (a !! k) as [x|], (b !! k) as [y|];
    try (split; [done | by intros [? ?]]).
  destruct (decide (x = y)) as [-> | Hne].
  - split; [by intros [= ->] | by intros [[= ->] _]].
  - split; [done | intros [[= ->] [= ->]]; done].
Qed.

Lemma common_Some (k : string) (v : Value) (ns : list Node) :
  Quill.common ns !! k = Some v ->
  Forall (fun n => attrs n !! k = Some v) ns.
Proof.
  destruct ns as [|n r]; [done |]. simpl.
  induction r as [|m r IH]; simpl.
  - intros H. by repeat constructor.
  - intros [Hm Hr]%agree_Some. specialize (IH Hr).
    apply Forall_cons in IH as [Hn Hall]. by repeat constructor.
Qed.

Lemma common_truthy (k : string) (ns : list Node) :
  ns <> [] -> truthy (prop (Quill.common ns) k) = true <-> carried k ns.
Proof.
  intros Hne. unfold prop, carried. split.
  - destruct (Quill.common ns !! k) as [v|] eqn:E; simpl; [| done].
    intros Hv. exists v. split; [done |]. by apply common_Some.
  - intros (v & Hv & Hall). by rewrite (common_all k v ns Hne Hall).
Qed.

(** X10: the toggle of a character format over a non-empty range: when
    every unit of the range carries the format, it is removed from all
    of them; in every other case (some unit without it) all of them get
    it.  The units outside the range stay as they are. *)
Theorem toggle_policy (format : string) (app : App) (q : Quill.t) (i n : nat) :
  format ∈ ["bold"; "italic"; "underline"; "strike"] ->
  quillRef app = Some q ->
  Quill.getSelection q = Some (Range.mk i n) ->
  0 < n -> i + n <= Quill.getLength q ->
  exists app',
    handleFormat format VUndefined app = Returned tt app'
    /\ (carried format (take n (drop i (Quill.contents q))) ->
        Forall (fun x => attrs x !! format = None)
               (take n (drop i (documentOf app'))))
    /\ (~ carried format (take n (drop i (Quill.contents q))) ->
        Forall (fun x => attrs x !! format = Some (VBool true))
               (take n (drop i (documentOf app'))))
    /\ take i (documentOf app') = take i (Quill.contents q)
    /\ drop (i + n) (documentOf app') = drop (i + n) (Quill.contents q).
Proof.
  intros Hfmt Hq Hsel Hn Hlen.
  destruct (handleFormat_toggle format app q i n) as (app' & q' & R & Q & D & _);
    [done ..|].
  exists app'. split; [exact R |]. unfold documentOf. rewrite Q. simpl.
  rewrite D, map_range_window, map_range_prefix, map_range_suffix by done.
  set (w := take n (drop i (Quill.contents q))).
  assert (Hne : w <> []) by by apply window_nonempty.
  split_and!; [| | done | done].
  - intros H. apply (common_truthy format w Hne) in H. rewrite H. simpl. apply Forall_fmap, Forall_true.
    intros x. simpl. unfold Quill.set_attr. simpl. apply lookup_delete_eq.
  - intros H. destruct (truthy (prop (Quill.common w) format)) eqn:E.
    { by apply (common_truthy format w Hne) in E. }
    simpl. apply Forall_fmap, Forall_true.
    intros x. simpl. unfold Quill.set_attr. simpl. apply lookup_insert_eq.
Qed.

Lemma toggle_policy_witness :
  let mixed := [mkNode (Char "a") {["bold" := VBool true]}; mkNode (Char "b") ∅] in
  exists app',
    handleFormat "bold" VUndefined (sampleApp mixed 0 2) = Returned tt app'
    /\ Forall (fun x => attrs x !! "bold" = Some (VBool true))
              (take 2 (drop 0 (documentOf app'))).
Proof.
  intros mixed.
  destruct (toggle_policy "bold" (sampleApp mixed 0 2)
              (Quill.mk mixed (Some (Range.mk 0 2)) true ∅ 0) 0 2)
    as (app' & R & _ & Hon & _);
    [set_solver | reflexivity | reflexivity | lia | vm_compute; lia |].
  exists app'. split; [exact R |]. apply Hon.
  intros (v & _ & H). apply Forall_cons in H as [_ H].
  apply Forall_cons in H as [H _]. vm_compute in H. discriminate.
Defined.

(** ** Heading sizes *)

Lemma size_not_toggle :
  bool_decide ("size" = "list") = false /\ Quill.is_block "size" = false.
Proof. done. Qed.

(** The size branch of [handleFormat] on a range inside the document. *)
Lemma handleFormat_size (value : Value) (app : App) (q : Quill.t) (i n : nat) :
  quillRef app = Some q ->
  Quill.getSelection q = Some (Range.mk i n) ->
  0 < n -> i + n <= Quill.getLength q ->
  exists app' q',
    handleFormat "size" value app = Returned tt app'
    /\ quillRef app' = Some q'
    /\ Quill.contents q'
       = Quill.map_range (Quill.format_node "size" value) i n (Quill.contents q)
    /\ Quill.getSelection q' = Some (Range.mk (i + n) 0)
    /\ Quill.cursor q' !! "size" = None.
Proof.
  intros Hq Hsel Hn Hlen. unfold handleFormat.
  step. rewrite Hq. cbn [missing]. step. rewrite Hsel.
  rewrite (bool_decide_eq_false_2 ("size" = "list")) by done.
  rewrite (bool_decide_eq_true_2 ("size" = "size")) by done.
  cbn [no_range range_index range_length from_option Range.index Range.length].
  rewrite bool_decide_eq_false_2 by lia.
  pose proof (formatText_in_range i n "size" value q Hlen) as Hf.
  step. step.
  erewrite run_call;
    [| reflexivity | eapply format_at_caret; [done | reflexivity]].
  eexists _, _. split; [reflexivity |]. split; [reflexivity |].
  split; [reflexivity |]. split.
  - unfold Quill.getSelection. simpl. unfold Quill.getLength. simpl.
    rewrite map_range_length. unfold Quill.getLength in Hlen.
    do 2 f_equal; lia.
  - simpl. unfold Quill.set_attr. simpl. apply lookup_delete_eq.
Qed.

Lemma headingValue_sizes (v px : string) :
  (v, px) ∈ headingSizes -> headingValue v = VStr px.
Proof.
  unfold headingSizes. intros H.
  repeat (apply elem_of_cons in H as [[= -> ->] | H]; [done |]).
  by apply elem_of_nil in H.
Qed.

(** X11: a heading level chosen in the toolbar while a non-empty range
    is selected gives every unit of the range the size of that level
    (36px for h1 down to 14px for h6), the entry Normal takes the size
    away from all of them; the units outside the range keep their
    attributes, the text is the same, and a caret without a pending
    size is left behind the range. *)
Theorem heading_sets_size (v : string) (app : App) (q : Quill.t) (i n : nat) :
  quillRef app = Some q ->
  Quill.getSelection q = Some (Range.mk i n) ->
  0 < n -> i + n <= Quill.getLength q ->
  exists app' q',
    handleHeading v app = Returned tt app'
    /\ quillRef app' = Some q'
    /\ (forall px, (v, px) ∈ headingSizes ->
          Forall (fun x => attrs x !! "size" = Some (VStr px))
                 (take n (drop i (Quill.contents q'))))
    /\ (v = EmptyString ->
          Forall (fun x => attrs x !! "size" = None)
                 (take n (drop i (Quill.contents q'))))
    /\ take i (Quill.contents q') = take i (Quill.contents q)
    /\ drop (i + n) (Quill.contents q') = drop (i + n) (Quill.contents q)
    /\ leaves (Quill.contents q') = leaves (Quill.contents q)
    /\ Quill.getSelection q' = Some (Range.mk (i + n) 0)
    /\ Quill.cursor q' !! "size" = None.
Proof.
  intros Hq Hsel Hn Hlen. unfold handleHeading.
  destruct (handleFormat_size (headingValue v) app q i n)
    as (app' & q' & R & Q & D & S & C); [done ..|].
  exists app', q'. split; [exact R |]. split; [exact Q |].
  rewrite D, map_range_window, map_range_prefix, map_range_suffix,
    leaves_map_range by done.
  split_and!; try done.
  - intros px Hpx. rewrite (headingValue_sizes v px Hpx).
    apply Forall_fmap, Forall_true. intros x. simpl.
    unfold Quill.set_attr.
    assert (truthy (VStr px) = true) as ->.
    { revert Hpx. unfold headingSizes. intros H.
      repeat (apply elem_of_cons in H as [[= -> ->] | H]; [done |]).
      by apply elem_of_nil in H. }
    apply lookup_insert_eq.
  - intros ->. apply Forall_fmap, Forall_true. intros x. simpl.
    apply lookup_delete_eq.
Qed.

Lemma heading_sets_size_witness :
  exists app' q',
    handleHeading "h2" (sampleApp sampleDoc 1 2) = Returned tt app'
    /\ quillRef app' = Some q'
    /\ formatsOf "size" (Quill.contents q')
       = [VUndefined; VStr "32px"; VStr "32px"; VUndefined]
    /\ leaves (Quill.contents q') = leaves sampleDoc.
Proof.
  destruct (heading_sets_size "h2" (sampleApp sampleDoc 1 2)
              (Quill.mk sampleDoc (Some (Range.mk 1 2)) true ∅ 0) 1 2)
    as (app' & q' & R & Q & _ & _ & _ & _ & L & _);
    [reflexivity | reflexivity | lia | vm_compute; lia |].
  exists app', q'. split; [exact R |]. split; [exact Q |]. split; [| exact L].
  revert R Q. vm_compute. intros [= <-] [= <-]. reflexivity.
Defined.

(** ** More on link insertion, pasting and uploading *)

Lemma insertEmbed_in_range (i : nat) (src : string) (q : Quill.t) :
  i <= Quill.getLength q ->
  Quill.insertEmbed i src q
  = Ok (Quill.mk (Quill.insert_at i [mkNode (Image (Quill.nextBlot q) src) ∅]
                    (Quill.contents q))
          (Quill.selection q) (Quill.hasFocus q) (Quill.cursor q)
          (S (Quill.nextBlot q))).
Proof.
  intros H. unfold Quill.insertEmbed, Quill.in_range.
  by rewrite bool_decide_eq_true_2 by lia.
Qed.

Lemma insert_at_prefix (i : nat) (ns d : list Node) :
  i <= length d -> take i (Quill.insert_at i ns d) = take i d.
Proof.
  intros H. unfold Quill.insert_at.
  rewrite take_app_length'; [done | rewrite length_take; lia].
Qed.

Lemma insert_at_suffix (i : nat) (ns d : list Node) :
  i <= length d -> drop (i + length ns) (Quill.insert_at i ns d) = drop i d.
Proof.
  intros H. unfold Quill.insert_at. rewrite app_assoc.
  rewrite drop_app_length'; [done |]. rewrite length_app, length_take. lia.
Qed.

Lemma insert_at_window (i : nat) (ns d : list Node) :
  i <= length d -> take (length ns) (drop i (Quill.insert_at i ns d)) = ns.
Proof.
  intros H. unfold Quill.insert_at.
  rewrite drop_app_length' by (rewrite length_take; lia).
  by rewrite take_app_length.
Qed.

(** X12: a live selection wins over the cached one: with a non-empty
    range selected in the focused editor, the link goes to that range
    whatever [lastSelectionRef] holds; afterwards the cache is cleared
    and a caret stands behind the range. *)
Theorem link_prefers_live_selection (url : string) (app : App) (q : Quill.t)
    (i n : nat) :
  quillRef app = Some q ->
  Quill.getSelection q = Some (Range.mk i n) ->
  0 < n -> i + n <= Quill.getLength q ->
  exists app' q',
    handleInsertLink url app = Returned tt app'
    /\ quillRef app' = Some q'
    /\ Quill.contents q'
       = Quill.map_range (Quill.format_node "link" (VStr (withScheme url))) i n
           (Quill.contents q)
    /\ Quill.getSelection q' = Some (Range.mk (i + n) 0)
    /\ lastSelectionRef app' = None.
Proof.
  intros Hq Hsel Hn Hlen. unfold handleInsertLink.
  step. rewrite Hq. cbn [missing].
  do 3 step. rewrite Hsel. cbn [Range.index Range.length].
  rewrite bool_decide_eq_true_2 by done.
  pose proof (formatText_in_range i n "link" (VStr (withScheme url)) q Hlen) as Hf.
  do 4 step. eexists _, _. split; [reflexivity |].
  split; [reflexivity |]. split; [reflexivity |]. split; [| reflexivity].
  unfold Quill.getSelection. simpl. unfold Quill.getLength. simpl.
  rewrite map_range_length. unfold Quill.getLength in Hlen.
  do 2 f_equal; lia.
Qed.

Lemma link_prefers_live_selection_witness :
  let text := Quill.text_nodes "hello" ∅ in
  let q := Quill.mk text (Some (Range.mk 0 2)) true ∅ 0 in
  let app := mkApp (Some q) (Some (Range.mk 3 2)) false (mkDrag None None) [] in
  exists app',
    handleInsertLink "a.b" app = Returned tt app'
    /\ formatsOf "link" (documentOf app')
       = [VStr "https://a.b"; VStr "https://a.b"; VUndefined; VUndefined;
          VUndefined]
    /\ lastSelectionRef app' = None.
Proof.
  intros text q app.
  destruct (link_prefers_live_selection "a.b" app q 0 2)
    as (app' & q' & R & Q & D & _ & C);
    [reflexivity | reflexivity | lia | vm_compute; lia |].
  exists app'. split; [exact R |]. split; [| exact C].
  unfold documentOf. rewrite Q. simpl. rewrite D. vm_compute. reflexivity.
Defined.

Lemma onPaste_nothing (app : App) :
  onPaste None app = Returned tt app
  /\ onPaste (Some EmptyString) app = Returned tt app.
Proof.
  unfold onPaste. split; step; destruct (quillRef app); cbn [missing]; try done.
Qed.

Lemma onPaste_live (text : string) (app : App) (q : Quill.t) (i n : nat) :
  quillRef app = Some q ->
  Quill.getSelection q = Some (Range.mk i n) ->
  i <= Quill.getLength q ->
  text <> EmptyString ->
  let k := String.length text in
  exists app' q',
    onPaste (Some text) app = Returned tt app'
    /\ quillRef app' = Some q'
    /\ Quill.contents q'
       = Quill.insert_at i (Quill.text_nodes text ∅) (Quill.contents q)
    /\ Quill.getSelection q' = Some (Range.mk (i + k) 0)
    /\ lastSelectionRef app' = Some (Range.mk (i + k) 0).
Proof.
  intros Hq Hsel Hlen Htext k.
  assert (Hk : length (Quill.text_nodes text ∅) = k) by apply length_text_nodes.
  unfold onPaste.
  step. rewrite Hq. cbn [missing].
  rewrite decide_False by done.
  do 3 step. rewrite Hsel. cbn [Range.index]. fold k.
  pose proof (insertText_in_range i text ∅ q Hlen) as Hi.
  do 3 step.
  eexists _, _. split; [reflexivity |]. split; [reflexivity |].
  split; [reflexivity |]. split; [| reflexivity].
  unfold Quill.getSelection. simpl.
  change (Quill.getLength (Quill.with_contents ?d _)) with (length d).
  unfold Quill.getLength in Hlen.
  rewrite length_insert_at, Hk. do 2 f_equal; lia.
Qed.

(** X14: pasted text is inserted, without attributes, at the start of
    the live selection; the selected units are not replaced but stand
    behind the pasted text; the caret and the cached selection both end
    up right behind it.  A paste without text changes nothing. *)
Theorem paste_inserts_at_selection (text : string) (app : App) (q : Quill.t)
    (i n : nat) :
  quillRef app = Some q ->
  Quill.getSelection q = Some (Range.mk i n) ->
  i <= Quill.getLength q ->
  text <> EmptyString ->
  let k := String.length text in
  exists app' q',
    onPaste (Some text) app = Returned tt app'
    /\ quillRef app' = Some q'
    /\ take i (Quill.contents q') = take i (Quill.contents q)
    /\ take k (drop i (Quill.contents q')) = Quill.text_nodes text ∅
    /\ drop (i + k) (Quill.contents q') = drop i (Quill.contents q)
    /\ Quill.getSelection q' = Some (Range.mk (i + k) 0)
    /\ lastSelectionRef app' = Some (Range.mk (i + k) 0)
    /\ onPaste None app = Returned tt app
    /\ onPaste (Some EmptyString) app = Returned tt app.
Proof.
  intros Hq Hsel Hlen Htext k.
  assert (Hk : length (Quill.text_nodes text ∅) = k) by apply length_text_nodes.
  destruct (onPaste_live text app q i n) as (app' & q' & R & Q & D & S & C);
    [done ..|].
  exists app', q'. split; [exact R |]. split; [exact Q |].
  rewrite D. unfold Quill.getLength in Hlen.
  split; [by apply insert_at_prefix |].
  split; [rewrite <- Hk; by apply insert_at_window |].
  split; [rewrite <- Hk; by apply insert_at_suffix |].
  split; [exact S |]. split; [exact C |]. apply onPaste_nothing.
Qed.

Lemma paste_inserts_at_selection_witness :
  exists app',
    onPaste (Some "xy") (sampleApp sampleDoc 1 2) = Returned tt app'
    /\ leaves (documentOf app')
       = [Char "a"; Char "x"; Char "y"; Char "b";
          Image 0 "data:image/png;base64,AAAA"; Char "c"]
    /\ lastSelectionRef app' = Some (Range.mk 3 0).
Proof.
  destruct (paste_inserts_at_selection "xy" (sampleApp sampleDoc 1 2)
              (Quill.mk sampleDoc (Some (Range.mk 1 2)) true ∅ 0) 1 2)
    as (app' & q' & R & Q & _ & _ & _ & _ & C & _);
    [reflexivity | reflexivity | vm_compute; lia | discriminate |].
  exists app'. split; [exact R |]. split; [| exact C].
  revert R. vm_compute. by intros [= <-].
Defined.

(** X15: an upload into an editor with a selection puts one image embed
    at the start of the selection and nothing else: the units before
    and behind are the old ones, the document has one unit and one
    embed more, the caret stands right behind the image, and the
    updater handed to the image list appends exactly one record for the
    image, named [image] when the file has no name. *)
Theorem upload_inserts_image (imageUrl fileName : string) (stamp : nat)
    (app : App) (q : Quill.t) (i n : nat) :
  quillRef app = Some q ->
  Quill.selection q = Some (Range.mk i n) ->
  i <= Quill.getLength q ->
  exists updater app' q',
    insertImageIntoEditor imageUrl fileName stamp app = Returned updater app'
    /\ quillRef app' = Some q'
    /\ Quill.contents q'
       = Quill.insert_at i [mkNode (Image (Quill.nextBlot q) imageUrl) ∅]
           (Quill.contents q)
    /\ Quill.getLength q' = S (Quill.getLength q)
    /\ Quill.embedCount (Quill.contents q') = S (Quill.embedCount (Quill.contents q))
    /\ Quill.getSelection q' = Some (Range.mk (i + 1) 0)
    /\ (forall prev, exists r,
          updater prev = prev ++ [r] /\ url r = imageUrl /\ id r = stamp
          /\ name r = if decide (fileName = EmptyString) then "image"
                      else fileName).
Proof.
  intros Hq Hsel Hlen. unfold insertImageIntoEditor.
  step. rewrite Hq. cbn [missing]. do 3 step.
  assert (Hs : Quill.getSelection (Quill.focus q) = Some (Range.mk i n)).
  { unfold Quill.getSelection. simpl. exact Hsel. }
  rewrite Hs. cbn [Range.index].
  pose proof (insertEmbed_in_range i imageUrl (Quill.focus q) Hlen) as Hi.
  do 3 step.
  eexists _, _, _. split; [reflexivity |]. split; [reflexivity |].
  split; [reflexivity |]. simpl.
  assert (Hl : length (Quill.insert_at i
                         [mkNode (Image (Quill.nextBlot q) imageUrl) ∅]
                         (Quill.contents q)) = S (Quill.getLength q)).
  { rewrite length_insert_at. unfold Quill.getLength. simpl. lia. }
  split; [exact Hl |]. split; [apply embedCount_insert_image |]. split.
  - unfold Quill.getSelection. simpl.
    change (Quill.getLength (Quill.mk ?d _ _ _ _)) with (length d).
    rewrite Hl. do 2 f_equal; lia.
  - intros prev. by eexists.
Qed.

Lemma upload_inserts_image_witness :
  exists updater app',
    insertImageIntoEditor "data:," EmptyString 7 (sampleDrag 1)
    = Returned updater app'
    /\ leaves (documentOf app')
       = [Char "a"; Image 1 "data:,"; Char "b";
          Image 0 "data:image/png;base64,AAAA"; Char "c"]
    /\ updater [] = [mkImage 7 "image" "data:," None None].
Proof.
  destruct (upload_inserts_image "data:," EmptyString 7 (sampleDrag 1)
              (Quill.mk sampleDoc (Some (Range.mk 1 0)) true ∅ 1) 1 0)
    as (updater & app' & q' & R & _); [reflexivity | reflexivity | vm_compute; lia |].
  exists updater, app'. split; [exact R |].
  revert R. vm_compute. by intros [= <- <-].
Defined.

(** ** Where a dragged image lands *)

Lemma index_of_app (b : nat) (x y : list Node) :
  Quill.index_of b (x ++ y)
  = match Quill.index_of b x with
    | Some j => Some j
    | None => (fun j => length x + j) <$> Quill.index_of b y
    end.
Proof.
  induction x as [|n x IH]; simpl.
  - by destruct (Quill.index_of b y).
  - destruct (Quill.is_blot b n); [done |]. rewrite IH.
    destruct (Quill.index_of b x); [done |].
    by destruct (Quill.index_of b y).
Qed.

Lemma index_of_take (b : nat) (d : list Node) (j k : nat) :
  Quill.index_of b d = Some j -> k <= j -> Quill.index_of b (take k d) = None.
Proof.
  revert j k. induction d as [|n d IH]; intros j k; simpl.
  { by destruct k. }
  destruct (Quill.is_blot b n) eqn:E.
  - intros [= <-] Hk. by replace k with 0 by lia.
  - destruct (Quill.index_of b d) as [j'|] eqn:E'; simpl; [| done].
    intros [= <-] Hk. destruct k as [|k]; [done |]. simpl. rewrite E.
    by rewrite (IH j' k) by (done || lia).
Qed.

Lemma index_of_drop (b : nat) (d : list Node) (j k : nat) :
  Quill.index_of b d = Some j -> k <= j ->
  Quill.index_of b (drop k d) = Some (j - k).
Proof.
  revert j k. induction d as [|n d IH]; intros j k; simpl; [done |].
  destruct (Quill.is_blot b n) eqn:E.
  - intros [= <-] Hk. replace k with 0 by lia. simpl. by rewrite E.
  - destruct (Quill.index_of b d) as [j'|] eqn:E'; simpl; [| done].
    intros [= <-] Hk. destruct k as [|k]; simpl.
    + by rewrite E, E'.
    + by apply IH; [| lia].
Qed.

(** The offset of the dragged embed after the copy was inserted at
    [k]. *)
Lemma index_of_insert (b fresh : nat) (src : string) (d : list Node) (j k : nat) :
  Quill.index_of b d = Some j -> fresh <> b -> k <= length d ->
  Quill.index_of b (Quill.insert_at k [mkNode (Image fresh src) ∅] d)
  = Some (if decide (k <= j) then S j else j).
Proof.
  intros Hj Hf Hk. unfold Quill.insert_at.
  destruct (decide (k <= j)) as [Hle | Hgt].
  - rewrite index_of_app, (index_of_take b d j k Hj Hle).
    rewrite index_of_app. cbn [Quill.index_of]. unfold Quill.is_blot at 1.
    cbn [leaf]. rewrite bool_decide_eq_false_2 by done. simpl.
    rewrite (index_of_drop b d j k Hj Hle). simpl.
    rewrite length_take. f_equal. lia.
  - rewrite index_of_app.
    assert (E : Quill.index_of b (take k d) = Some j).
    { rewrite <- (take_drop k d) in Hj. rewrite index_of_app in Hj.
      destruct (Quill.index_of b (take k d)) as [j'|] eqn:E; [done |].
      destruct (Quill.index_of b (drop k d)); simpl in Hj; [| done].
      injection Hj as Hj. rewrite length_take in Hj. lia. }
    by rewrite E.
Qed.

Lemma insert_at_app (a r ns : list Node) :
  Quill.insert_at (length a) ns (a ++ r) = a ++ ns ++ r.
Proof.
  unfold Quill.insert_at. by rewrite take_app_length, drop_app_length.
Qed.

Lemma without_app (a c : list Node) (x : Node) :
  without (length a) (a ++ x :: c) = a ++ c.
Proof.
  unfold without. rewrite take_app_length. f_equal.
  rewrite (cons_middle x a c), app_assoc.
  apply drop_app_length'. rewrite length_app. simpl. lia.
Qed.

Lemma split_at {A} (k : nat) (l : list A) :
  k <= length l -> exists l1 l2, l = l1 ++ l2 /\ length l1 = k.
Proof.
  intros H. exists (take k l), (drop k l).
  split; [by rewrite take_drop | rewrite length_take; lia].
Qed.

Lemma without_insert (k j : nat) (x : Node) (d : list Node) :
  j < length d -> k <= length d ->
  without (if decide (k <= j) then S j else j) (Quill.insert_at k [x] d)
  = Quill.insert_at (if decide (k <= j) then k else k - 1) [x] (without j d).
Proof.
  intros Hj Hk. destruct (lookup_lt_is_Some_2 d j Hj) as [o Ho].
  pose proof (take_drop_middle d j o Ho) as Hd.
  assert (Ha : length (take j d) = j) by (rewrite length_take; lia).
  revert Hk. rewrite <- Hd.
  generalize (take j d) (drop (S j) d) Ha. clear. intros a c <- Hk.
  rewrite without_app. destruct (decide (k <= length a)) as [Hle | Hgt].
  - destruct (split_at k a Hle) as (a1 & a2 & -> & <-).
    rewrite <- !app_assoc, !insert_at_app.
    replace (S (length (a1 ++ a2))) with (length (a1 ++ [x] ++ a2))
      by (rewrite !length_app; simpl; lia).
    replace (a1 ++ [x] ++ a2 ++ o :: c) with ((a1 ++ [x] ++ a2) ++ o :: c)
      by (by rewrite <- !app_assoc).
    by rewrite without_app, <- !app_assoc.
  - rewrite length_app in Hk. simpl in Hk.
    destruct (split_at (k - S (length a)) c) as (c1 & c2 & -> & Hc1); [lia |].
    replace k with (length (a ++ o :: c1)) at 1
      by (rewrite length_app; simpl; lia).
    replace (k - 1) with (length (a ++ c1)) by (rewrite length_app; lia).
    rewrite (app_assoc a c1 c2), insert_at_app.
    replace (a ++ o :: c1 ++ c2) with ((a ++ o :: c1) ++ c2)
      by (by rewrite <- app_assoc).
    rewrite insert_at_app, <- (app_assoc a (o :: c1)). simpl.
    by rewrite without_app, <- app_assoc.
Qed.


(** X16: where a dragged image lands.  When the embed object of the
    drag is found at its offset and the drop carries a source, the
    result is the old document without the dragged unit and with the
    new embed inserted at the drop offset, counted in that shorter
    document: the drop offset itself when the image is dropped at or
    before its old place, one less when it is dropped behind it (the
    [adjustedDropIndex] that the listener computes).  The drag state is
    cleared. *)
Theorem dragMove_lands (app : App) (q : Quill.t) (offset blot : nat)
    (src : string) (a : gmap string Value) (e : DropEvent) :
  quillRef app = Some q ->
  Quill.contents q !! offset = Some (mkNode (Image blot src) a) ->
  Quill.index_of blot (Quill.contents q) = Some offset ->
  Quill.nextBlot q <> blot ->
  dataTransfer e <> EmptyString ->
  dropIndexOf q e <= Quill.getLength q ->
  let k := dropIndexOf q e in
  let landing := if decide (k <= offset) then k else k - 1 in
  exists app',
    dragMove offset e app = Returned tt app'
    /\ documentOf app'
       = Quill.insert_at landing
           [mkNode (Image (Quill.nextBlot q) (dataTransfer e)) ∅]
           (without offset (Quill.contents q))
    /\ draggingState app' = mkDrag None None.
Proof.
  intros Hq Hsrc Hidx Hfresh Hdata Hdrop k landing.
  unfold dragMove, onDragStart, onDrop.
  step. rewrite Hsrc. cbn [fmap option_fmap option_map leaf].
  do 2 step. cbn [quillRef set_dragging]. rewrite Hq. cbn [missing].
  do 2 step. rewrite decide_False by done. fold k.
  assert (Hins : Quill.insertEmbed k (dataTransfer e) (Quill.focus q)
                 = Ok (Quill.mk (Quill.insert_at k
                                   [mkNode (Image (Quill.nextBlot q) (dataTransfer e)) ∅]
                                   (Quill.contents q))
                         (Quill.selection q) true (Quill.cursor q)
                         (S (Quill.nextBlot q)))).
  { by apply (insertEmbed_in_range k (dataTransfer e) (Quill.focus q)). }
  do 2 step. cbn [draggingState set_quill set_dragging draggedBlot].
  set (new := mkNode (Image (Quill.nextBlot q) (dataTransfer e)) ∅) in *.
  set (d' := Quill.insert_at k [new] (Quill.contents q)) in *.
  set (q' := Quill.mk d' _ _ _ _) in *.
  set (j := if decide (k <= offset) then S offset else offset).
  assert (Hoff : offset < length (Quill.contents q)) by by eapply lookup_lt_Some.
  assert (Hget : Quill.getIndex blot q' = Ok j).
  { unfold Quill.getIndex. simpl. unfold d', new.
    by rewrite (index_of_insert blot _ _ _ offset k Hidx Hfresh Hdrop). }
  assert (Hdel : Quill.deleteText j 1 q'
                 = Ok (Quill.with_contents (without j d') q')).
  { unfold Quill.deleteText, Quill.in_range.
    rewrite bool_decide_eq_true_2.
    - unfold without. by rewrite Nat.add_1_r.
    - unfold Quill.getLength. simpl. unfold d'. rewrite length_insert_at.
      simpl. unfold j. destruct (decide (k <= offset)); lia. }
  unfold try_. do 3 step.
  eexists. split; [reflexivity |]. split; [| reflexivity].
  unfold documentOf. simpl. unfold j, d', landing.
  by apply without_insert.
Qed.

Lemma dragMove_lands_witness :
  let e := mkDrop "data:image/png;base64,AAAA" None in
  (exists app',
      dragMove 2 e (sampleDrag 4) = Returned tt app'
      /\ leaves (documentOf app')
         = [Char "a"; Char "b"; Char "c"; Image 1 "data:image/png;base64,AAAA"])
  /\ (exists app',
      dragMove 2 e (sampleDrag 0) = Returned tt app'
      /\ leaves (documentOf app')
         = [Image 1 "data:image/png;base64,AAAA"; Char "a"; Char "b"; Char "c"]).
Proof.
  intros e. split.
  - destruct (dragMove_lands (sampleDrag 4)
                (Quill.mk sampleDoc (Some (Range.mk 4 0)) true ∅ 1)
                2 0 "data:image/png;base64,AAAA" ∅ e)
      as (app' & R & D & _);
      [reflexivity | reflexivity | reflexivity | simpl; lia | discriminate
      | vm_compute; lia |].
    exists app'. split; [exact R |]. rewrite D. vm_compute. reflexivity.
  - destruct (dragMove_lands (sampleDrag 0)
                (Quill.mk sampleDoc (Some (Range.mk 0 0)) true ∅ 1)
                2 0 "data:image/png;base64,AAAA" ∅ e)
      as (app' & R & D & _);
      [reflexivity | reflexivity | reflexivity | simpl; lia | discriminate
      | vm_compute; lia |].
    exists app'. split; [exact R |]. rewrite D. vm_compute. reflexivity.
Defined.

(** X17: a drop without a text payload never changes the document,
    whatever the state of the editor and of the drag. *)
Theorem drop_without_payload (e : DropEvent) (app : App) :
  dataTransfer e = EmptyString ->
  documentOf (final (onDrop e app)) = documentOf app.
Proof.
  intros He. unfold onDrop. step.
  destruct (quillRef app) as [q|] eqn:Hq; cbn [missing]; [| done].
  do 2 step. rewrite He, decide_True by done. step.
  unfold documentOf. simpl. by rewrite Hq.
Qed.

Lemma drop_without_payload_witness :
  documentOf (final (onDrop (mkDrop EmptyString (Some 1)) (sampleDrag 4)))
  = sampleDoc.
Proof.
  apply (drop_without_payload (mkDrop EmptyString (Some 1)) (sampleDrag 4)).
  reflexivity.
Defined.

(** ** Publishing *)

Lemma truthyTags_idem (l : list string) : truthyTags (truthyTags l) = truthyTags l.
Proof.
  unfold truthyTags. induction l as [|t l IH]; [done |].
  destruct (decide (t = EmptyString)) as [-> | Ht].
  - by rewrite !filter_cons_False by (intros H; by apply H).
  - by rewrite !filter_cons_True, IH by done.
Qed.

Lemma truthyTags_no_empty (l : list string) : EmptyString ∉ truthyTags l.
Proof. unfold truthyTags. by intros [H _]%list_elem_of_filter. Qed.

(** The title of a published post is trimmed and not blank. *)
Lemma newPost_title (textContent : string -> string) (stamp : nat) (iso : string)
    (d : Draft) :
  let t := Post.title (newPost textContent stamp iso d) in
  Js.text (Js.trim (Js.chars t)) = t /\ t <> EmptyString.
Proof.
  unfold newPost. simpl.
  destruct (decide (Js.text (Js.trim (Js.chars (title d))) = EmptyString))
    as [E | E].
  - split; [vm_compute; reflexivity | done].
  - split; [| done]. by rewrite chars_text, trim_idem.
Qed.

Lemma nonblank_text (t : string) : nonblank t = true <-> Js.trim (Js.chars t) <> [].
Proof.
  unfold nonblank. rewrite negb_true_iff, bool_decide_eq_false. done.
Qed.

Lemma trimmed_nonblank (t : string) :
  Js.text (Js.trim (Js.chars t)) = t -> t <> EmptyString -> nonblank t = true.
Proof.
  intros Ht Hne. apply nonblank_text. intros E. rewrite E in Ht. by subst.
Qed.

Lemma handlePublish_posts (textContent : string -> string)
    (postsQuota : list Post.t -> bool) (stamp : nat) (iso : string) (s : Page) :
  nonblank (title (draft (editing s))) = true
  \/ nonblank (content (draft (editing s))) = true ->
  posts (handlePublish textContent postsQuota stamp iso s)
  = newPost textContent stamp iso (draft (editing s)) :: posts s.
Proof.
  intros Hguard. unfold handlePublish.
  assert (negb (nonblank (title (draft (editing s))))
          && negb (nonblank (content (draft (editing s)))) = false) as ->.
  { destruct Hguard as [-> | ->]; [done | apply andb_false_r]. }
  done.
Qed.

(** The draft that [handleSelectPost] loads from a published post
    publishes to the same post. *)
Lemma newPost_reload (textContent : string -> string) (stamp stamp' : nat)
    (iso iso' : string) (d : Draft) :
  let p := newPost textContent stamp iso d in
  newPost textContent stamp' iso'
    (mkDraft (Post.title p) (Post.contentHtml p) (truthyTags (Post.tags p))
       (Post.images p))
  = Post.mk stamp' (Post.title p) (Post.contentHtml p) (Post.contentPlain p)
      (Post.tags p) (Post.images p) iso'.
Proof.
  intros p. destruct (newPost_title textContent stamp iso d) as [Ht Hne].
  fold p in Ht, Hne. unfold newPost at 1. cbn [title content tags images].
  rewrite Ht, decide_False by done.
  unfold p, newPost. cbn [Post.contentHtml Post.tags Post.contentPlain].
  by rewrite !cleanHtml_idem, !truthyTags_idem.
Qed.

(** X18: a draft whose title and content are both blank is not
    published, whatever its tags and images: the warning is raised and
    neither the posts, nor the store, nor the draft change. *)
Theorem publish_refused (textContent : string -> string)
    (postsQuota : list Post.t -> bool) (stamp : nat) (iso : string) (s : Page) :
  Js.trim (Js.chars (title (draft (editing s)))) = [] ->
  Js.trim (Js.chars (content (draft (editing s)))) = [] ->
  handlePublish textContent postsQuota stamp iso s
  = mkPage (view s) (isPreview s) (editing s) (posts s) (postsSlot s)
      (banners s
       ++ [mkToast Warn "Add a title or some content before publishing"]).
Proof.
  intros Ht Hc. unfold handlePublish, nonblank. rewrite Ht, Hc.
  by rewrite !bool_decide_eq_true_2.
Qed.

Lemma publish_refused_witness :
  let d := mkDraft "  " EmptyString ["news"]
             [mkImage 1 "a.png" "data:," None None] in
  let s := mkPage EditorView false (mkEditing d initHook) [] None [] in
  hasContent d = true
  /\ posts (handlePublish (fun x => x) (fun _ => false) 5 "now" s) = []
  /\ draft (editing (handlePublish (fun x => x) (fun _ => false) 5 "now" s)) = d.
Proof.
  intros d s. split; [reflexivity |].
  rewrite (publish_refused (fun x => x) (fun _ => false) 5 "now" s);
    [| vm_compute; reflexivity | vm_compute; reflexivity].
  split; reflexivity.
Defined.

(** X19: a publish that is not refused puts exactly one new post in
    front of the posts, the older ones unchanged.  The content of the
    new post is in the normal form of [cleanHtml], its title is trimmed
    and not empty, and none of its tags is empty.  The draft cells are
    emptied, the draft slot is removed from the store, and the posts
    slot holds the new list unless the store refused it. *)
Theorem publish_prepends (textContent : string -> string)
    (postsQuota : list Post.t -> bool) (stamp : nat) (iso : string) (s : Page) :
  nonblank (title (draft (editing s))) = true
  \/ nonblank (content (draft (editing s))) = true ->
  let s' := handlePublish textContent postsQuota stamp iso s in
  exists p,
    posts s' = p :: posts s
    /\ Post.id p = stamp
    /\ cleanHtml (Post.contentHtml p) = Post.contentHtml p
    /\ Js.text (Js.trim (Js.chars (Post.title p))) = Post.title p
    /\ Post.title p <> EmptyString
    /\ (EmptyString ∉ Post.tags p)
    /\ Post.images p = images (draft (editing s))
    /\ draft (editing s') = emptyDraft
    /\ storage (env (autosave (editing s'))) !! DRAFT_KEY = None
    /\ (postsQuota (p :: posts s) = false -> postsSlot s' = Some (p :: posts s))
    /\ (postsQuota (p :: posts s) = true -> postsSlot s' = postsSlot s).
Proof.
  intros Hguard s'. unfold s', handlePublish.
  assert (negb (nonblank (title (draft (editing s))))
          && negb (nonblank (content (draft (editing s)))) = false) as ->.
  { destruct Hguard as [-> | ->]; [done | apply andb_false_r]. }
  exists (newPost textContent stamp iso (draft (editing s))). simpl.
  destruct (newPost_title textContent stamp iso (draft (editing s))) as [Ht Hne].
  split_and!; try done.
  - apply cleanHtml_idem.
  - apply truthyTags_no_empty.
  - apply lookup_delete_eq.
  - by intros ->.
  - by intros ->.
Qed.

Lemma publish_prepends_witness :
  let d := mkDraft " Hello " "<p>a</p><p> </p><p><br></p>" ["x"; EmptyString] [] in
  let s := mkPage EditorView false (mkEditing d initHook) [] None [] in
  exists p,
    posts (handlePublish (fun x => x) (fun _ => false) 5 "now" s) = [p]
    /\ Post.title p = "Hello"
    /\ Post.contentHtml p = "<p>a</p>"
    /\ Post.tags p = ["x"].
Proof.
  intros d s.
  destruct (publish_prepends (fun x => x) (fun _ => false) 5 "now" s)
    as (p & Hp & _); [left; reflexivity |].
  exists p. split; [exact Hp |].
  revert Hp. vm_compute. by intros [= <-].
Defined.

(** X20: a published post that is opened from the list and published
    again without a change gives a post with the same title, content,
    plain text, tags and images; only the id and the time stamp are
    new. *)
Theorem republish_is_stable (textContent : string -> string)
    (postsQuota : list Post.t -> bool) (stamp stamp' : nat) (iso iso' : string)
    (s : Page) :
  nonblank (title (draft (editing s))) = true
  \/ nonblank (content (draft (editing s))) = true ->
  let p := newPost textContent stamp iso (draft (editing s)) in
  let s1 := handlePublish textContent postsQuota stamp iso s in
  let s2 := handleSelectPost p s1 in
  let s3 := handlePublish textContent postsQuota stamp' iso' s2 in
  posts s3
  = Post.mk stamp' (Post.title p) (Post.contentHtml p) (Post.contentPlain p)
      (Post.tags p) (Post.images p) iso'
    :: p :: posts s.
Proof.
  intros Hguard p s1 s2 s3.
  destruct (newPost_title textContent stamp iso (draft (editing s))) as [Ht Hne].
  fold p in Ht, Hne.
  unfold s3. rewrite handlePublish_posts.
  - unfold s2. cbn [handleSelectPost editing draft posts].
    unfold s1. rewrite handlePublish_posts by done. fold p. f_equal.
    apply newPost_reload.
  - left. unfold s2. cbn [handleSelectPost editing draft title].
    by apply trimmed_nonblank.
Qed.

Lemma republish_is_stable_witness :
  let d := mkDraft " Hello " "<p>a</p><p> </p><p><br></p>" ["x"; EmptyString] [] in
  let s := mkPage EditorView false (mkEditing d initHook) [] None [] in
  let s1 := handlePublish (fun x => x) (fun _ => false) 5 "now" s in
  let p := newPost (fun x => x) 5 "now" d in
  posts (handlePublish (fun x => x) (fun _ => false) 6 "later"
           (handleSelectPost p s1))
  = [Post.mk 6 "Hello" "<p>a</p>" "<p>a</p>" ["x"] [] "later";
     Post.mk 5 "Hello" "<p>a</p>" "<p>a</p>" ["x"] [] "now"].
Proof.
  intros d s s1 p.
  etrans.
  - apply (republish_is_stable (fun x => x) (fun _ => false) 5 6 "now" "later" s).
    left. reflexivity.
  - vm_compute. reflexivity.
Defined.

(** X21: what the store holds after a publish.  The handler removes
    the draft slot; the render that follows runs both effects on the
    emptied draft: the autosave effect cancels the pending timer and
    sets none, and the effect on the images, set to a new empty list,
    writes the empty draft at once.  So no autosave is pending and the
    slot holds the empty draft. *)
Theorem publish_then_render (delay : nat) (quota : Draft -> bool)
    (textContent : string -> string) (postsQuota : list Post.t -> bool)
    (stamp : nat) (iso : string) (s : Page) :
  nonblank (title (draft (editing s))) = true
  \/ nonblank (content (draft (editing s))) = true ->
  onePending (autosave (editing s)) ->
  quota emptyDraft = false ->
  let s' := handlePublish textContent postsQuota stamp iso s in
  let after := autosave (rerender delay quota emptyDraft true (editing s')) in
  timers (env after) = []
  /\ storage (env after) !! DRAFT_KEY = Some emptyDraft
  /\ writes (env after)
     = writes (env (autosave (editing s)))
       ++ [mkWrite (now (env (autosave (editing s)))) DRAFT_KEY emptyDraft].
Proof.
  intros Hguard Hone Hq s' after. unfold after, s', handlePublish.
  assert (negb (nonblank (title (draft (editing s))))
          && negb (nonblank (content (draft (editing s)))) = false) as ->.
  { destruct Hguard as [-> | ->]; [done | apply andb_false_r]. }
  cbn [editing]. unfold rerender, resetDraft. cbn [autosave cleanup env].
  set (h := mkHook _ _).
  assert (Hh : onePending h).
  { destruct Hone as [H | (t & Ht & Hc)]; [by left | right; by exists t]. }
  pose proof (render_blank delay quota emptyDraft h Hh eq_refl) as E.
  unfold persistImages, setItem. rewrite Hq. simpl in *. rewrite E. simpl.
  split; [done |]. split; [apply lookup_insert_eq | done].
Qed.

Lemma publish_then_render_witness :
  let d := mkDraft "Hello" EmptyString [] [] in
  let h := mkHook (Some 0) (mkEnv 1 [mkTimer 0 30 d] 1 [] ∅ []) in
  let s := mkPage EditorView false (mkEditing d h) [] None [] in
  let s' := handlePublish (fun x => x) (fun _ => false) 5 "now" s in
  timers (env (autosave (rerender 30 acceptAll emptyDraft true (editing s')))) = []
  /\ storage (env (autosave (rerender 30 acceptAll emptyDraft true (editing s'))))
       !! DRAFT_KEY = Some emptyDraft.
Proof.
  intros d h s s'.
  destruct (publish_then_render 30 acceptAll (fun x => x) (fun _ => false) 5 "now" s)
    as (H1 & H2 & _).
  - left. reflexivity.
  - right. exists (mkTimer 0 30 d). split; reflexivity.
  - reflexivity.
  - split; [exact H1 | exact H2].
Defined.

(** ** Sizes *)

Lemma trim_no_ws (s : list ascii) :
  Forall (fun c => Js.is_ws c = false) s -> Js.trim s = s.
Proof. intros H. unfold Js.trim. by rewrite trimStart_no_ws, trimEnd_no_ws. Qed.

Lemma endsWith_px (v : list ascii) :
  Js.endsWith (Js.chars "%") (v ++ Js.chars "px") = false.
Proof. unfold Js.endsWith. by rewrite reverse_app. Qed.

Lemma all_digits_px (v : list ascii) : Js.all_digits (v ++ Js.chars "px") = false.
Proof.
  unfold Js.all_digits. destruct (v ++ Js.chars "px") as [|c r] eqn:E.
  { by destruct v. }
  rewrite <- E, forallb_app. simpl. apply andb_false_r.
Qed.

(** X22: a size that went through [normalizeSizeValue] is not changed
    by it again. *)
Theorem normalizeSizeValue_idempotent (raw : string) :
  normalizeSizeValue (normalizeSizeValue raw) = normalizeSizeValue raw.
Proof.
  destruct (decide (raw = EmptyString)) as [-> | Hraw]; [done |].
  unfold normalizeSizeValue at 2 3. rewrite !decide_False by done. cbv zeta.
  set (v := Js.trim (Js.chars raw)).
  assert (Hv : Js.trim v = v) by apply trim_idem.
  assert (Hkeep : Js.all_digits v = false -> normalizeSizeValue (Js.text v) = Js.text v).
  { intros Hd. unfold normalizeSizeValue.
    destruct (decide (Js.text v = EmptyString)) as [E | E]; [done |].
    rewrite chars_text, Hv, Hd. by destruct (Js.endsWith _ v). }
  destruct (Js.endsWith (Js.chars "%") v) eqn:Ep.
  - destruct (Js.all_digits v) eqn:Hd; [| by apply Hkeep].
    apply all_digits_Forall in Hd as [_ Hd].
    by rewrite endsWith_percent_digits in Ep.
  - destruct (Js.all_digits v) eqn:Hd; [| by apply Hkeep].
    apply all_digits_Forall in Hd as [Hne Hd].
    unfold normalizeSizeValue.
    rewrite decide_False.
    2:{ intros E. apply text_nil in E. by destruct v. }
    rewrite chars_text, trim_no_ws.
    + by rewrite endsWith_px, all_digits_px.
    + apply Forall_app. split; [| by repeat constructor].
      eapply Forall_impl; [exact Hd | apply digit_not_ws].
Qed.

(** X23: the update of the image list after a resize keeps every record
    in its place with its id, name and url; a record of another image
    is not touched, and a size that normalises to the empty string
    leaves the stored size as it is. *)
Theorem resize_keeps_records (src widthRaw heightRaw : string)
    (prev : list ImageRecord) (j : nat) (r : ImageRecord) :
  prev !! j = Some r ->
  exists r',
    resizeRecords src widthRaw heightRaw prev !! j = Some r'
    /\ length (resizeRecords src widthRaw heightRaw prev) = length prev
    /\ id r' = id r /\ name r' = name r /\ url r' = url r
    /\ (url r <> src -> r' = r)
    /\ (normalizeSizeValue widthRaw = EmptyString -> width r' = width r)
    /\ (normalizeSizeValue heightRaw = EmptyString -> height r' = height r)
    /\ (url r = src -> src <> EmptyString ->
        normalizeSizeValue widthRaw <> EmptyString ->
        width r' = Some (normalizeSizeValue widthRaw)).
Proof.
  intros Hj. unfold resizeRecords. rewrite list_lookup_fmap, Hj, length_fmap.
  eexists. split; [reflexivity |]. split; [done |]. unfold resizeRecord.
  destruct (decide (url r = EmptyString)) as [E | E].
  { split_and!; try done. intros Hs Hne. congruence. }
  destruct (decide (url r = src)) as [Es | Es]; simpl.
  - split_and!; try done.
    + by intros ->.
    + by intros ->.
    + intros _ _ Hw. by rewrite decide_False.
  - split_and!; done.
Qed.

Lemma resize_keeps_records_witness :
  let a := mkImage 1 "a.png" "data:a" (Some "120px") (Some "80px") in
  let b := mkImage 2 "b.png" "data:b" (Some "120px") (Some "80px") in
  resizeRecords "data:a" "300" " " [a; b]
  = [mkImage 1 "a.png" "data:a" (Some "300px") (Some "80px"); b].
Proof.
  intros a b.
  destruct (resize_keeps_records "data:a" "300" " " [a; b] 1 b eq_refl)
    as (r' & _). vm_compute. reflexivity.
Defined.

(** ** The list of posts *)

Lemma lower_ws (c : ascii) : Js.is_ws (lower c) = Js.is_ws c.
Proof. by_cases c. Qed.

Lemma lower_idem (c : ascii) : lower (lower c) = lower c.
Proof. by_cases c. Qed.

Lemma trimStart_lower (s : list ascii) :
  Js.trimStart (toLowerCase s) = toLowerCase (Js.trimStart s).
Proof.
  unfold toLowerCase. induction s as [|c s IH]; [done |]. csimpl.
  rewrite lower_ws. by destruct (Js.is_ws c).
Qed.

Lemma trimEnd_lower (s : list ascii) :
  Js.trimEnd (toLowerCase s) = toLowerCase (Js.trimEnd s).
Proof.
  unfold toLowerCase. induction s as [|c s IH]; [done |]. csimpl.
  rewrite IH, lower_ws. destruct (Js.trimEnd s); csimpl; [| done].
  by destruct (Js.is_ws c).
Qed.

Lemma toLowerCase_idem (s : list ascii) : toLowerCase (toLowerCase s) = toLowerCase s.
Proof.
  unfold toLowerCase. rewrite <- list_fmap_compose. apply list_fmap_ext.
  intros i c _. apply lower_idem.
Qed.

(** X24: the search does not look at the case of the query: a query
    and its lower-case form select the same posts. *)
Theorem filtered_ignores_case (query : string) (posts : list Post.t) :
  filtered (Js.text (toLowerCase (Js.chars query))) posts = filtered query posts.
Proof.
  unfold filtered, matchesQuery. rewrite chars_text.
  unfold Js.trim. by rewrite trimStart_lower, trimEnd_lower, toLowerCase_idem.
Qed.

